(** * Audio cue service: enablement derivation, memoization and playback

    A shallow embedding of [vs/platform/audioCues/browser/audioCueService.ts]:
    the static catalog of sounds and cues, the configuration values the service
    reads, the volume computation, the enablement derivation and its cache,
    and the playback controller as a labelled transition system driven by the
    callers of the service and by the audio sink, the timers and the
    configuration and accessibility subsystems. *)

From Stdlib Require Import List Bool Arith Lia String Floats ZArith PArith.
Import ListNotations.
Open Scope string_scope.
Open Scope list_scope.



(* ================================================================== *)
(** * JavaScript values and collections *)
(* ================================================================== *)

Module Js.

(** The values a configuration lookup can yield.  Numbers are IEEE 754
    binary64 values, as in the language. *)
Inductive Value : Type :=
| Undefined
| Null
| Boolean (b : bool)
| Number (x : float)
| Str (s : string)
| Object.

Definition typeof (v : Value) : string :=
  match v with
  | Undefined => "undefined"
  | Null => "object"
  | Boolean _ => "boolean"
  | Number _ => "number"
  | Str _ => "string"
  | Object => "object"
  end.

(** [v === 'lit'] for a string literal. *)
Definition strict_eq_str (v : Value) (lit : string) : bool :=
  match v with
  | Str s => String.eqb s lit
  | _ => false
  end.

(** The number held by a value whose [typeof] is ['number']. *)
Definition as_number (v : Value) : float :=
  match v with
  | Number x => x
  | _ => nan
  end.

(** [Math.min] and [Math.max] on two arguments: NaN is contagious, and
    [-0] is smaller than [+0]. *)
Definition Math_min (a b : float) : float :=
  if (is_nan a || is_nan b)%bool then nan
  else if (a <? b)%float then a
  else if (b <? a)%float then b
  else if get_sign a then a else b.

Definition Math_max (a b : float) : float :=
  if (is_nan a || is_nan b)%bool then nan
  else if (a <? b)%float then b
  else if (b <? a)%float then a
  else if get_sign a then b else a.

(** An error object, identified by its message. *)
Inductive Error : Type := MkError (message : string).

(** A [Set<T>]: elements are kept in insertion order and compared by
    identity; [add] of a member changes nothing. *)
Section SetOps.
Variable T : Type.
Variable T_eq_dec : forall x y : T, {x = y} + {x <> y}.

Definition JSet := list T.

Definition set_has (x : T) (s : JSet) : bool :=
  if in_dec T_eq_dec x s then true else false.

Definition set_add (x : T) (s : JSet) : JSet :=
  if set_has x s then s else s ++ [x].

Definition set_delete (x : T) (s : JSet) : JSet :=
  filter (fun y => if T_eq_dec x y then false else true) s.

(** [new Set(iterable)] *)
Definition set_of_list (l : list T) : JSet :=
  fold_left (fun s x => set_add x s) l [].

(** [Array.from(set)] *)
Definition set_to_array (s : JSet) : list T := s.
End SetOps.

Arguments set_has {T} T_eq_dec x s.
Arguments set_add {T} T_eq_dec x s.
Arguments set_delete {T} T_eq_dec x s.
Arguments set_of_list {T} T_eq_dec l.
Arguments set_to_array {T} s.

(** A [Map<K, V>] with keys compared by identity. *)
Section MapOps.
Variables K V : Type.
Variable K_eq_dec : forall x y : K, {x = y} + {x <> y}.

Definition JMap := list (K * V).

Fixpoint map_get (k : K) (m : JMap) : option V :=
  match m with
  | [] => None
  | (k', v) :: m' => if K_eq_dec k k' then Some v else map_get k m'
  end.

Definition map_has (k : K) (m : JMap) : bool :=
  match map_get k m with Some _ => true | None => false end.

Fixpoint map_set (k : K) (v : V) (m : JMap) : JMap :=
  match m with
  | [] => [(k, v)]
  | (k', v') :: m' =>
      if K_eq_dec k k' then (k', v) :: m' else (k', v') :: map_set k v m'
  end.
End MapOps.

Arguments map_get {K V} K_eq_dec k m.
Arguments map_has {K V} K_eq_dec k m.
Arguments map_set {K V} K_eq_dec k v m.

End Js.

(* ================================================================== *)
(** * The catalog: sounds and cues *)
(* ================================================================== *)

(** The constructors of [Sound] and [AudioCue] are private and the only
    instances are the static members registered below, so an instance is
    identified with the name of its static member. *)
Module Sound.
Inductive t : Type :=
| error | warning | foldedArea | break | quickFixes
| taskCompleted | taskFailed | terminalBell
| diffLineInserted | diffLineDeleted.

Definition fileName (s : t) : string :=
  match s with
  | error => "error.mp3"
  | warning => "warning.mp3"
  | foldedArea => "foldedAreas.mp3"
  | break => "break.mp3"
  | quickFixes => "quickFixes.mp3"
  | taskCompleted => "taskCompleted.mp3"
  | taskFailed => "taskFailed.mp3"
  | terminalBell => "terminalBell.mp3"
  | diffLineInserted => "diffLineInserted.mp3"
  | diffLineDeleted => "diffLineDeleted.mp3"
  end.

Definition eq_dec (x y : t) : {x = y} + {x <> y}.
Proof. decide equality. Defined.
End Sound.

Module AudioCue.
Inductive t : Type :=
| error | warning | foldedArea | break | inlineSuggestion
| terminalQuickFix | onDebugBreak | noInlayHints
| taskCompleted | taskFailed | terminalBell
| diffLineInserted | diffLineDeleted.

Definition sound (c : t) : Sound.t :=
  match c with
  | error => Sound.error
  | warning => Sound.warning
  | foldedArea => Sound.foldedArea
  | break => Sound.break
  | inlineSuggestion => Sound.quickFixes
  | terminalQuickFix => Sound.quickFixes
  | onDebugBreak => Sound.break
  | noInlayHints => Sound.error
  | taskCompleted => Sound.taskCompleted
  | taskFailed => Sound.taskFailed
  | terminalBell => Sound.terminalBell
  | diffLineInserted => Sound.diffLineInserted
  | diffLineDeleted => Sound.diffLineDeleted
  end.

(** The default (untranslated) display name. *)
Definition name (c : t) : string :=
  match c with
  | error => "Error on Line"
  | warning => "Warning on Line"
  | foldedArea => "Folded Area on Line"
  | break => "Breakpoint on Line"
  | inlineSuggestion => "Inline Suggestion on Line"
  | terminalQuickFix => "Terminal Quick Fix"
  | onDebugBreak => "Debugger Stopped on Breakpoint"
  | noInlayHints => "No Inlay Hints on Line"
  | taskCompleted => "Task Completed"
  | taskFailed => "Task Failed"
  | terminalBell => "Terminal Bell"
  | diffLineInserted => "Diff Line Inserted"
  | diffLineDeleted => "Diff Line Deleted"
  end.

Definition settingsKey (c : t) : string :=
  match c with
  | error => "audioCues.lineHasError"
  | warning => "audioCues.lineHasWarning"
  | foldedArea => "audioCues.lineHasFoldedArea"
  | break => "audioCues.lineHasBreakpoint"
  | inlineSuggestion => "audioCues.lineHasInlineSuggestion"
  | terminalQuickFix => "audioCues.terminalQuickFix"
  | onDebugBreak => "audioCues.onDebugBreak"
  | noInlayHints => "audioCues.noInlayHints"
  | taskCompleted => "audioCues.taskCompleted"
  | taskFailed => "audioCues.taskFailed"
  | terminalBell => "audioCues.terminalBell"
  | diffLineInserted => "audioCues.diffLineInserted"
  | diffLineDeleted => "audioCues.diffLineDeleted"
  end.

(** Registration order. *)
Definition allAudioCues : list t :=
  [ error; warning; foldedArea; break; inlineSuggestion; terminalQuickFix;
    onDebugBreak; noInlayHints; taskCompleted; taskFailed; terminalBell;
    diffLineInserted; diffLineDeleted ].

Definition eq_dec (x y : t) : {x = y} + {x <> y}.
Proof. decide equality. Defined.
End AudioCue.

(* ================================================================== *)
(** * The external subsystems read by the service *)
(* ================================================================== *)

(** [IConfigurationService]: the current value of every key. *)
Record IConfigurationService : Type := {
  getValue : string -> Js.Value
}.

(** [IAccessibilityService]: the current screen-reader state. *)
Record IAccessibilityService : Type := {
  isScreenReaderOptimized : bool
}.

(* ================================================================== *)
(** * Volume *)
(* ================================================================== *)

Definition getVolumeInPercent (configurationService : IConfigurationService) : float :=
  let volume := getValue configurationService "audioCues.volume" in
  if negb (String.eqb (Js.typeof volume) "number") then 50%float
  else Js.Math_max (Js.Math_min (Js.as_number volume) 100) 0.

(** The value assigned to [audio.volume] in [playSound]. *)
Definition audioVolume (configurationService : IConfigurationService) : float :=
  (getVolumeInPercent configurationService / 100)%float.

(** [clamp] as the specification words it: a value below the lower bound
    yields the lower bound, a value above the upper bound yields the upper
    bound, any other value is kept. *)
Definition clamp (v lo hi : float) : float :=
  if (v <=? lo)%float then lo
  else if (hi <=? v)%float then hi
  else v.

(* ================================================================== *)
(** * Enablement derivation *)
(* ================================================================== *)

(** The observables the service creates with [observableFromEvent]. *)
Inductive Observable : Type :=
| screenReaderAttached
| obsoleteAudioCuesEnabled
| settingObservable (cue : AudioCue.t).

Definition Observable_eq_dec (x y : Observable) : {x = y} + {x <> y}.
Proof. decide equality. apply AudioCue.eq_dec. Defined.

(** What the getters of the observables look at. *)
Record World : Type := {
  world_configuration : IConfigurationService;
  world_accessibility : IAccessibilityService
}.

(** The getter passed to [observableFromEvent] for each observable. *)
Definition observable_getter (w : World) (o : Observable) : Js.Value :=
  match o with
  | screenReaderAttached =>
      Js.Boolean (isScreenReaderOptimized (world_accessibility w))
  | obsoleteAudioCuesEnabled =>
      getValue (world_configuration w) "audioCues.enabled"
  | settingObservable cue =>
      getValue (world_configuration w) (AudioCue.settingsKey cue)
  end.

(** The configuration key whose changes pass the event filter of an
    observable ([None] for the accessibility event). *)
Definition observable_key (o : Observable) : option string :=
  match o with
  | screenReaderAttached => None
  | obsoleteAudioCuesEnabled => Some "audioCues.enabled"
  | settingObservable cue => Some (AudioCue.settingsKey cue)
  end.

(** Truthiness of a value in a condition. *)
Definition to_boolean (v : Js.Value) : bool :=
  match v with
  | Js.Undefined | Js.Null => false
  | Js.Boolean b => b
  | Js.Number x => negb (is_zero x || is_nan x)
  | Js.Str s => negb (String.eqb s "")
  | Js.Object => true
  end.

(** Computations run under a [reader]: they see the world and record, in
    order, every observable they read. *)
Definition Reader (A : Type) : Type := World -> A * list Observable.

Definition ret {A : Type} (a : A) : Reader A := fun _ => (a, []).

Definition bind {A B : Type} (m : Reader A) (k : A -> Reader B) : Reader B :=
  fun w =>
    let (a, l1) := m w in
    let (b, l2) := k a w in
    (b, l1 ++ l2).

Declare Scope reader_scope.
Delimit Scope reader_scope with reader.
Notation "x <- m ;; k" := (bind m (fun x => k))
  (at level 61, m at next level, right associativity) : reader_scope.

(** Modelled from the spec: [observable.read(reader)] of the absent
    observable library.  A read yields the latest external state (section
    4.1) and registers the observable as a dependency of the reader. *)
Definition read (o : Observable) : Reader Js.Value :=
  fun w => (observable_getter w o, [o]).

(** [a || b] and [a && b] with the right operand evaluated on demand. *)
Definition or_else (a : bool) (b : Reader bool) : Reader bool :=
  if a then ret true else b.

Definition and_then (a : bool) (b : Reader bool) : Reader bool :=
  if a then b else ret false.

Local Open Scope reader_scope.

(** The function given to [derived('audio cue enabled', ...)] for a cue. *)
Definition audio_cue_enabled (cue : AudioCue.t) : Reader bool :=
  setting <- read (settingObservable cue) ;;
  c1 <- or_else (Js.strict_eq_str setting "on")
          (and_then (Js.strict_eq_str setting "auto")
             (sr <- read screenReaderAttached ;; ret (to_boolean sr))) ;;
  if c1 then ret true
  else
    obsoleteSetting <- read obsoleteAudioCuesEnabled ;;
    c2 <- or_else (Js.strict_eq_str obsoleteSetting "on")
            (and_then (Js.strict_eq_str obsoleteSetting "auto")
               (sr <- read screenReaderAttached ;; ret (to_boolean sr))) ;;
    if c2 then ret true else ret false.

Local Close Scope reader_scope.

(** The three recognised values of a setting, and the enablement formula of
    the specification (section 4.2). *)
Inductive Setting : Type := On | Off | Auto.

Definition setting_value (s : Setting) : Js.Value :=
  match s with
  | On => Js.Str "on"
  | Off => Js.Str "off"
  | Auto => Js.Str "auto"
  end.

Definition tier_enabled (s : Setting) (screenReader : bool) : bool :=
  match s with
  | On => true
  | Auto => screenReader
  | Off => false
  end.

Definition enabled_formula (perCue legacy : Setting) (screenReader : bool) : bool :=
  tier_enabled perCue screenReader || tier_enabled legacy screenReader.

(** Modelled from the spec: the object returned by [derived] of the absent
    observable library (section 9): a memoized value, absent when the
    derivation is dirty, and the observables read by the last evaluation. *)
Record Derived : Type := {
  derived_cue : AudioCue.t;
  derived_value : option bool;
  derived_deps : list Observable
}.

(* ================================================================== *)
(** * The service state *)
(* ================================================================== *)

(** The promise returned by [audio.play()]; [NotCalled] as long as
    [play()] has not been called on the element. *)
Inductive PromiseState : Type :=
| NotCalled
| Pending
| Fulfilled
| Rejected (e : Js.Error).

(** An [Audio] element created by [playSound]. *)
Record Audio : Type := {
  audio_src : string;        (* the module path the element's URL denotes *)
  audio_volume : float;      (* the volume of the element *)
  audio_onended : option Sound.t;
                             (* the sound the ['ended'] listener deletes,
                                once the listener has been added *)
  audio_play : PromiseState; (* the promise returned by [audio.play()] *)
  audio_ended : bool;        (* ['ended'] has been dispatched *)
  audio_removed : bool       (* [audio.remove()] has been called *)
}.

(** How a block of code or an awaited promise completes. *)
Inductive Completion : Type :=
| Normal
| Throw (e : Js.Error).

(** The promise returned by an [async] function. *)
Inductive TaskState : Type :=
| Suspended                    (* at its [await] *)
| Settled (c : Completion).    (* resolved ([Normal]) or rejected *)

(** One activation of [playSound]. *)
Record PlaySoundCall : Type := {
  call_sound : Sound.t;
  call_audio : option nat;   (* the element it created; [None] if it returned at the guard *)
  call_timer : option nat;   (* the instant the timer of [raceTimeout] is due *)
  call_state : TaskState
}.

Record Service : Type := {
  configurationService : IConfigurationService;
  accessibilityService : IAccessibilityService;
  deriveds : list Derived;                  (* the derived observables, by reference *)
  isEnabledCache : Js.JMap AudioCue.t nat;  (* [Cache.map]: cue to reference *)
  playingSounds : Js.JSet Sound.t;
  audios : list Audio;
  calls : list PlaySoundCall;
  console : list (string * Js.Error);       (* [console.error] output *)
  now : nat                                 (* milliseconds *)
}.

Definition world (st : Service) : World :=
  {| world_configuration := configurationService st;
     world_accessibility := accessibilityService st |}.

(** The state right after construction. *)
Definition initial (cfg : IConfigurationService) (acc : IAccessibilityService) : Service :=
  {| configurationService := cfg; accessibilityService := acc;
     deriveds := []; isEnabledCache := [];
     playingSounds := []; audios := []; calls := []; console := []; now := 0 |}.

Definition set_configurationService (x : IConfigurationService) (st : Service) : Service :=
  {| configurationService := x; accessibilityService := accessibilityService st;
     deriveds := deriveds st; isEnabledCache := isEnabledCache st;
     playingSounds := playingSounds st; audios := audios st; calls := calls st;
     console := console st; now := now st |}.

Definition set_accessibilityService (x : IAccessibilityService) (st : Service) : Service :=
  {| configurationService := configurationService st; accessibilityService := x;
     deriveds := deriveds st; isEnabledCache := isEnabledCache st;
     playingSounds := playingSounds st; audios := audios st; calls := calls st;
     console := console st; now := now st |}.

Definition set_deriveds (x : list Derived) (st : Service) : Service :=
  {| configurationService := configurationService st;
     accessibilityService := accessibilityService st;
     deriveds := x; isEnabledCache := isEnabledCache st;
     playingSounds := playingSounds st; audios := audios st; calls := calls st;
     console := console st; now := now st |}.

Definition set_isEnabledCache (x : Js.JMap AudioCue.t nat) (st : Service) : Service :=
  {| configurationService := configurationService st;
     accessibilityService := accessibilityService st;
     deriveds := deriveds st; isEnabledCache := x;
     playingSounds := playingSounds st; audios := audios st; calls := calls st;
     console := console st; now := now st |}.

Definition set_playingSounds (x : Js.JSet Sound.t) (st : Service) : Service :=
  {| configurationService := configurationService st;
     accessibilityService := accessibilityService st;
     deriveds := deriveds st; isEnabledCache := isEnabledCache st;
     playingSounds := x; audios := audios st; calls := calls st;
     console := console st; now := now st |}.

Definition set_audios (x : list Audio) (st : Service) : Service :=
  {| configurationService := configurationService st;
     accessibilityService := accessibilityService st;
     deriveds := deriveds st; isEnabledCache := isEnabledCache st;
     playingSounds := playingSounds st; audios := x; calls := calls st;
     console := console st; now := now st |}.

Definition set_calls (x : list PlaySoundCall) (st : Service) : Service :=
  {| configurationService := configurationService st;
     accessibilityService := accessibilityService st;
     deriveds := deriveds st; isEnabledCache := isEnabledCache st;
     playingSounds := playingSounds st; audios := audios st; calls := x;
     console := console st; now := now st |}.

Definition set_console (x : list (string * Js.Error)) (st : Service) : Service :=
  {| configurationService := configurationService st;
     accessibilityService := accessibilityService st;
     deriveds := deriveds st; isEnabledCache := isEnabledCache st;
     playingSounds := playingSounds st; audios := audios st; calls := calls st;
     console := x; now := now st |}.

Definition set_now (x : nat) (st : Service) : Service :=
  {| configurationService := configurationService st;
     accessibilityService := accessibilityService st;
     deriveds := deriveds st; isEnabledCache := isEnabledCache st;
     playingSounds := playingSounds st; audios := audios st; calls := calls st;
     console := console st; now := x |}.

(** Replace the element at an index (nothing happens out of range). *)
Fixpoint update_nth {A : Type} (n : nat) (f : A -> A) (l : list A) : list A :=
  match l, n with
  | [], _ => []
  | x :: l', 0 => f x :: l'
  | x :: l', S n' => x :: update_nth n' f l'
  end.

(* ================================================================== *)
(** * The memoization cache and [isEnabled] *)
(* ================================================================== *)

Module Cache.
Section Generic.
Variables TArg TValue : Type.
Variable TArg_eq_dec : forall x y : TArg, {x = y} + {x <> y}.
(** The factory given to the constructor; it runs in the service. *)
Variable getValue : TArg -> Service -> TValue * Service.
(** Where the service keeps [this.map]. *)
Variable map_of : Service -> Js.JMap TArg TValue.
Variable store : Js.JMap TArg TValue -> Service -> Service.

Definition get (arg : TArg) (st : Service) : TValue * Service :=
  match Js.map_get TArg_eq_dec arg (map_of st) with
  | Some value => (value, st)
  | None =>
      let (value, st1) := getValue arg st in
      (value, store (Js.map_set TArg_eq_dec arg value (map_of st1)) st1)
  end.
End Generic.

Arguments get {TArg TValue} TArg_eq_dec getValue map_of store arg st.
End Cache.

(** The factory of [isEnabledCache]: it creates the setting observable of
    the cue and allocates the derived observable, initially not evaluated. *)
Definition isEnabledCache_getValue (cue : AudioCue.t) (st : Service) : nat * Service :=
  let ref := List.length (deriveds st) in
  (ref,
   set_deriveds
     (deriveds st ++
        [{| derived_cue := cue; derived_value := None; derived_deps := [] |}])
     st).

Definition isEnabled (cue : AudioCue.t) (st : Service) : nat * Service :=
  Cache.get AudioCue.eq_dec isEnabledCache_getValue isEnabledCache
    set_isEnabledCache cue st.

(** Modelled from the spec: [get()] of a derived observable of the absent
    observable library (sections 4.1 and 9): the memoized value when there
    is one, otherwise a recomputation whose result and dependencies are
    kept. *)
Definition observable_get (ref : nat) (st : Service) : bool * Service :=
  match nth_error (deriveds st) ref with
  | None => (false, st)
  | Some d =>
      match derived_value d with
      | Some b => (b, st)
      | None =>
          let (b, deps) := audio_cue_enabled (derived_cue d) (world st) in
          (b,
           set_deriveds
             (update_nth ref
                (fun _ => {| derived_cue := derived_cue d;
                             derived_value := Some b;
                             derived_deps := deps |})
                (deriveds st))
             st)
      end
  end.

(** [this.isEnabled(cue).get()] *)
Definition isEnabled_get (cue : AudioCue.t) (st : Service) : bool * Service :=
  let (ref, st1) := isEnabled cue st in
  observable_get ref st1.

(** Modelled from the spec: a configuration change (section 6).  The event
    carries the changed keys with their new values; it affects exactly those
    keys. *)
Definition ConfigurationChange : Type := list (string * Js.Value).

Definition affectsConfiguration (e : ConfigurationChange) (key : string) : bool :=
  existsb (fun kv => String.eqb (fst kv) key) e.

Definition apply_change (e : ConfigurationChange) (cfg : IConfigurationService)
  : IConfigurationService :=
  {| getValue := fun key =>
       match find (fun kv => String.eqb (fst kv) key) e with
       | Some kv => snd kv
       | None => getValue cfg key
       end |}.

(** [Event.filter(onDidChangeConfiguration, e => e.affectsConfiguration(key))] *)
Definition passes_filter (e : ConfigurationChange) (o : Observable) : bool :=
  match observable_key o with
  | Some key => affectsConfiguration e key
  | None => false
  end.

(** Modelled from the spec: a derivation is marked dirty by a change
    notification of an observable it read (section 9). *)
Definition invalidate (changed : Observable -> bool) (d : Derived) : Derived :=
  if existsb changed (derived_deps d)
  then {| derived_cue := derived_cue d;
          derived_value := None;
          derived_deps := derived_deps d |}
  else d.

Definition onDidChangeConfiguration (e : ConfigurationChange) (st : Service) : Service :=
  set_deriveds (map (invalidate (passes_filter e)) (deriveds st))
    (set_configurationService (apply_change e (configurationService st)) st).

Definition onDidChangeScreenReaderOptimized (b : bool) (st : Service) : Service :=
  set_deriveds
    (map (invalidate (fun o => if Observable_eq_dec o screenReaderAttached
                               then true else false))
       (deriveds st))
    (set_accessibilityService {| isScreenReaderOptimized := b |} st).

(* ================================================================== *)
(** * The playback controller *)
(* ================================================================== *)

(** The delay given to [raceTimeout], in milliseconds. *)
Definition playTimeout : nat := 1000.

(** Register an activation of [playSound]; its index identifies the promise
    it returned. *)
Definition new_call (c : PlaySoundCall) (st : Service) : nat * Service :=
  (List.length (calls st), set_calls (calls st ++ [c]) st).

(** The setter of [audio.volume] of the platform (the HTML standard; no
    code of the repository): a value between 0 and 1 is stored; any other
    value is refused with an exception, a [TypeError] when it is not
    finite (NaN, the infinities), an [IndexSizeError] otherwise. *)
Definition volume_accepted (v : float) : bool :=
  ((0 <=? v) && (v <=? 1))%float.

Definition volume_setter_error (v : float) : Js.Error :=
  if (is_nan v || is_infinity v)%bool
  then Js.MkError "TypeError"
  else Js.MkError "IndexSizeError".

(** The volume of an element on which no volume has been set. *)
Definition default_volume : float := 1%float.

(** [playSound] up to its [await]: the guard, the registration, the creation
    of the element, the assignment of its volume, the addition of its
    ['ended'] listener, the call of [audio.play()] and the start of the
    timer.  The assignment of the volume is outside the [try]: when the
    setter refuses the value, the function ends there and its promise is
    rejected with the exception, the sound being registered and the element
    created, without listener and without [play()]. *)
Definition playSound (sound : Sound.t) (allowManyInParallel : bool) (st : Service)
  : nat * Service :=
  if negb allowManyInParallel && Js.set_has Sound.eq_dec sound (playingSounds st)
  then
    new_call {| call_sound := sound; call_audio := None; call_timer := None;
                call_state := Settled Normal |} st
  else
    let st1 :=
      set_playingSounds (Js.set_add Sound.eq_dec sound (playingSounds st)) st in
    let url := ("vs/platform/audioCues/common/media/" ++ Sound.fileName sound)%string in
    let a := List.length (audios st1) in
    let volume := (getVolumeInPercent (configurationService st1) / 100)%float in
    if volume_accepted volume then
      let audio :=
        {| audio_src := url;
           audio_volume := volume;
           audio_onended := Some sound;
           audio_play := Pending;
           audio_ended := false;
           audio_removed := false |} in
      let st2 := set_audios (audios st1 ++ [audio]) st1 in
      new_call {| call_sound := sound; call_audio := Some a;
                  call_timer := Some (now st2 + playTimeout);
                  call_state := Suspended |} st2
    else
      let audio :=
        {| audio_src := url;
           audio_volume := default_volume;
           audio_onended := None;
           audio_play := NotCalled;
           audio_ended := false;
           audio_removed := false |} in
      let st2 := set_audios (audios st1 ++ [audio]) st1 in
      new_call {| call_sound := sound; call_audio := Some a;
                  call_timer := None;
                  call_state := Settled (Throw (volume_setter_error volume)) |}
        st2.

(** [audio.remove()] *)
Definition audio_remove (a : option nat) (st : Service) : Service :=
  match a with
  | None => st
  | Some i =>
      set_audios
        (update_nth i
           (fun x => {| audio_src := audio_src x; audio_volume := audio_volume x;
                        audio_onended := audio_onended x;
                        audio_play := audio_play x;
                        audio_ended := audio_ended x;
                        audio_removed := true |})
           (audios st))
        st
  end.

Definition settle_call (c : nat) (r : Completion) (st : Service) : Service :=
  set_calls
    (update_nth c
       (fun x => {| call_sound := call_sound x; call_audio := call_audio x;
                    call_timer := call_timer x; call_state := Settled r |})
       (calls st))
    st.

(** [playSound] from its [await] on: [r] is how the awaited race completed.
    The inner [try] logs and absorbs an exception, the [finally] removes the
    element, and the promise of the call settles with what is left. *)
Definition playSound_resume (c : nat) (r : Completion) (st : Service) : Service :=
  let (r1, st1) :=
    match r with
    | Normal => (Normal, st)
    | Throw e =>
        (Normal,
         set_console (console st ++ [("Error while playing sound", e)]) st)
    end in
  let a := match nth_error (calls st1) c with
           | Some x => call_audio x
           | None => None
           end in
  let st2 := audio_remove a st1 in
  settle_call c r1 st2.

(** The activation of [playSound] suspended on the race of an element. *)
Fixpoint find_awaiting (a : nat) (l : list PlaySoundCall) (i : nat) : option nat :=
  match l with
  | [] => None
  | x :: l' =>
      match call_audio x, call_state x with
      | Some a', Suspended => if Nat.eqb a a' then Some i else find_awaiting a l' (S i)
      | _, _ => find_awaiting a l' (S i)
      end
  end.

Definition set_audio_play (a : nat) (p : PromiseState) (st : Service) : Service :=
  set_audios
    (update_nth a
       (fun x => {| audio_src := audio_src x; audio_volume := audio_volume x;
                    audio_onended := audio_onended x;
                    audio_play := p;
                    audio_ended := audio_ended x;
                    audio_removed := audio_removed x |})
       (audios st))
    st.

(** Modelled from the spec: [raceTimeout] of the absent async library
    (section 4.4, step 4).  The race completes with the first of: the
    promise fulfilled, the promise rejected (the race throws its error), the
    timer due (the race completes normally and waiting is abandoned; the
    promise itself is left alone).  Whoever comes later is ignored. *)
Definition race_settles (a : nat) (r : Completion) (st : Service) : Service :=
  match find_awaiting a (calls st) 0 with
  | Some c => playSound_resume c r st
  | None => st
  end.

(** The dispatch of ['ended'] at an element: its listener, if it has one,
    deletes the sound from the registry. *)
Definition on_ended (a : nat) (st : Service) : Service :=
  match nth_error (audios st) a with
  | Some x =>
      match audio_onended x with
      | Some sound =>
          set_playingSounds
            (Js.set_delete Sound.eq_dec sound (playingSounds st)) st
      | None => st
      end
  | None => st
  end.

Definition set_audio_ended (a : nat) (st : Service) : Service :=
  set_audios
    (update_nth a
       (fun x => {| audio_src := audio_src x; audio_volume := audio_volume x;
                    audio_onended := audio_onended x;
                    audio_play := audio_play x;
                    audio_ended := true;
                    audio_removed := audio_removed x |})
       (audios st))
    st.

(* ================================================================== *)
(** * The facade *)
(* ================================================================== *)

(** [playAudioCue]: the activation of [playSound] it awaits, if any. *)
Definition playAudioCue (cue : AudioCue.t) (allowManyInParallel : bool) (st : Service)
  : option nat * Service :=
  let (enabled, st1) := isEnabled_get cue st in
  if enabled then
    let (c, st2) := playSound (AudioCue.sound cue) allowManyInParallel st1 in
    (Some c, st2)
  else (None, st1).

(** [cues.filter(cue => this.isEnabled(cue).get())] *)
Fixpoint filter_enabled (cues : list AudioCue.t) (st : Service)
  : list AudioCue.t * Service :=
  match cues with
  | [] => ([], st)
  | cue :: rest =>
      let (b, st1) := isEnabled_get cue st in
      let (l, st2) := filter_enabled rest st1 in
      (if b then cue :: l else l, st2)
  end.

(** [sounds.map(sound => this.playSound(sound))]: every activation runs up
    to its [await] before the next one starts. *)
Fixpoint playSounds (sounds : list Sound.t) (st : Service) : list nat * Service :=
  match sounds with
  | [] => ([], st)
  | sound :: rest =>
      let (c, st1) := playSound sound false st in
      let (l, st2) := playSounds rest st1 in
      (c :: l, st2)
  end.

(** [playAudioCues] up to its [await]: the activations of [playSound] whose
    promises it hands to [Promise.all]. *)
Definition playAudioCues (cues : list AudioCue.t) (st : Service) : list nat * Service :=
  let (enabled, st1) := filter_enabled cues st in
  let sounds := Js.set_of_list Sound.eq_dec (map AudioCue.sound enabled) in
  playSounds (Js.set_to_array sounds) st1.

Definition call_state_of (st : Service) (c : nat) : TaskState :=
  match nth_error (calls st) c with
  | Some x => call_state x
  | None => Suspended
  end.

(** The promise of [playAudioCue]: it awaits the activation it started. *)
Definition playAudioCue_state (st : Service) (child : option nat) : TaskState :=
  match child with
  | Some c => call_state_of st c
  | None => Settled Normal
  end.

(** [Promise.all]: rejected as soon as one member is, fulfilled when all
    members are, pending otherwise. *)
Fixpoint promise_all (st : Service) (children : list nat) : TaskState :=
  match children with
  | [] => Settled Normal
  | c :: rest =>
      match call_state_of st c, promise_all st rest with
      | Settled (Throw e), _ => Settled (Throw e)
      | _, Settled (Throw e) => Settled (Throw e)
      | Settled Normal, Settled Normal => Settled Normal
      | _, _ => Suspended
      end
  end.

(* ================================================================== *)
(** * Executions *)
(* ================================================================== *)

(** What can happen to a service: calls by its clients, and the moves of the
    audio sink, the timers, the clock and the two subsystems. *)
Inductive Event : Type :=
| Call_playSound (sound : Sound.t) (allowManyInParallel : bool)
| Call_playAudioCue (cue : AudioCue.t) (allowManyInParallel : bool)
| Call_playAudioCues (cues : list AudioCue.t)
| Call_isEnabled (cue : AudioCue.t)
| Call_get (ref : nat)
| PlayFulfilled (audio : nat)
| PlayRejected (audio : nat) (e : Js.Error)
| Ended (audio : nat)
| TimerFired (call : nat)
| Elapse (ms : nat)
| DidChangeConfiguration (e : ConfigurationChange)
| DidChangeScreenReaderOptimized (b : bool).

Definition play_pending (a : nat) (st : Service) : bool :=
  match nth_error (audios st) a with
  | Some x => match audio_play x with Pending => true | _ => false end
  | None => false
  end.

(** Playback can end once it has begun, and ends at most once. *)
Definition can_end (a : nat) (st : Service) : bool :=
  match nth_error (audios st) a with
  | Some x =>
      match audio_play x with
      | Fulfilled => negb (audio_ended x)
      | _ => false
      end
  | None => false
  end.

(** Modelled from the spec: the timer of [raceTimeout] of the absent async
    library (section 4.4, step 4): the timer of a suspended activation is
    due once the delay has passed. *)
Definition timer_due (c : nat) (st : Service) : bool :=
  match nth_error (calls st) c with
  | Some x =>
      match call_state x, call_timer x with
      | Suspended, Some d => Nat.leb d (now st)
      | _, _ => false
      end
  | None => false
  end.

(** Modelled from the spec: the scheduling of the timer of the absent
    async library.  The specification has the call return "at or shortly
    after" the delay (section 8); the clock of the model is idealised so
    that a timer fires when it is due: time does not pass beyond a timer
    that is due without the timer firing. *)
Definition may_elapse (ms : nat) (st : Service) : bool :=
  forallb
    (fun x =>
       match call_state x, call_timer x with
       | Suspended, Some d => Nat.leb (now st + ms) d
       | _, _ => true
       end)
    (calls st).

Definition step (ev : Event) (st : Service) : option Service :=
  match ev with
  | Call_playSound sound allowManyInParallel =>
      Some (snd (playSound sound allowManyInParallel st))
  | Call_playAudioCue cue allowManyInParallel =>
      Some (snd (playAudioCue cue allowManyInParallel st))
  | Call_playAudioCues cues =>
      Some (snd (playAudioCues cues st))
  | Call_isEnabled cue =>
      Some (snd (isEnabled cue st))
  | Call_get ref =>
      Some (snd (observable_get ref st))
  | PlayFulfilled a =>
      if play_pending a st
      then Some (race_settles a Normal (set_audio_play a Fulfilled st))
      else None
  | PlayRejected a e =>
      if play_pending a st
      then Some (race_settles a (Throw e) (set_audio_play a (Rejected e) st))
      else None
  | Ended a =>
      if can_end a st
      then Some (on_ended a (set_audio_ended a st))
      else None
  | TimerFired c =>
      if timer_due c st
      then Some (playSound_resume c Normal st)
      else None
  | Elapse ms =>
      if may_elapse ms st
      then Some (set_now (now st + ms) st)
      else None
  | DidChangeConfiguration e =>
      Some (onDidChangeConfiguration e st)
  | DidChangeScreenReaderOptimized b =>
      Some (onDidChangeScreenReaderOptimized b st)
  end.

Fixpoint run (evs : list Event) (st : Service) : option Service :=
  match evs with
  | [] => Some st
  | ev :: rest =>
      match step ev st with
      | Some st' => run rest st'
      | None => None
      end
  end.

Inductive reachable : Service -> Prop :=
| reachable_initial cfg acc : reachable (initial cfg acc)
| reachable_step st ev st' :
    reachable st -> step ev st = Some st' -> reachable st'.

(** A playback of the sound was started and has neither finished nor
    failed. *)
Definition playback_in_flight (sound : Sound.t) (st : Service) : bool :=
  existsb
    (fun x =>
       match audio_onended x with
       | Some s => if Sound.eq_dec s sound then true else false
       | None => false
       end
       && negb (audio_ended x)
       && match audio_play x with
          | Pending | Fulfilled => true
          | NotCalled | Rejected _ => false
          end)
    (audios st).

(** Comparison of two positive finite binary64 values by exponent, then by
    mantissa. *)
Definition cmp_pos (m : positive) (e : Z) (m' : positive) (e' : Z) : comparison :=
  match (e ?= e')%Z with
  | Eq => Pos.compare_cont Eq m m'
  | Lt => Lt
  | Gt => Gt
  end.

(** The observables the derivation of a cue reads, in order, as the
    specification describes the two tiers (section 4.2): the setting of the
    cue; the screen-reader state if that setting is [auto]; and, only if the
    first tier is false, the legacy setting and, if it is [auto], the
    screen-reader state. *)
Definition expected_reads (cue : AudioCue.t) (perCue legacy : Setting)
  (screenReader : bool) : list Observable :=
  [settingObservable cue]
  ++ (match perCue with Auto => [screenReaderAttached] | _ => [] end)
  ++ (if tier_enabled perCue screenReader then []
      else obsoleteAudioCuesEnabled
           :: match legacy with Auto => [screenReaderAttached] | _ => [] end).

(** The two tiers of the derivation written out on the values read: the
    result and the observables read, in order. *)
Definition second_tier (l : Js.Value) (r : bool) (pre : list Observable)
  : bool * list Observable :=
  if Js.strict_eq_str l "on" then (true, pre ++ [obsoleteAudioCuesEnabled])
  else if Js.strict_eq_str l "auto"
       then (r, pre ++ [obsoleteAudioCuesEnabled; screenReaderAttached])
       else (false, pre ++ [obsoleteAudioCuesEnabled]).

Definition two_tiers (cue : AudioCue.t) (s l : Js.Value) (r : bool)
  : bool * list Observable :=
  if Js.strict_eq_str s "on" then (true, [settingObservable cue])
  else if Js.strict_eq_str s "auto"
       then if r then (true, [settingObservable cue; screenReaderAttached])
            else second_tier l r [settingObservable cue; screenReaderAttached]
       else second_tier l r [settingObservable cue].

(** ** Well-formedness of the enablement state *)

(** The part of the state the enablement layer works on. *)
Definition enablement_view (st : Service) :=
  (configurationService st, accessibilityService st, deriveds st, isEnabledCache st).

(** The part of the state the playback controller works on. *)
Definition playback_view (st : Service) :=
  (playingSounds st, audios st, calls st, console st, now st).

(** A memoized value is what the derivation yields on the current state of
    the world. *)
Definition memo_valid (st : Service) : Prop :=
  forall ref d b,
    nth_error (deriveds st) ref = Some d ->
    derived_value d = Some b ->
    audio_cue_enabled (derived_cue d) (world st) = (b, derived_deps d).

(** A derivation depends only on the setting of its cue, the legacy setting
    and the screen-reader state. *)
Definition deps_valid (st : Service) : Prop :=
  forall ref d o,
    nth_error (deriveds st) ref = Some d ->
    In o (derived_deps d) ->
    o = settingObservable (derived_cue d)
    \/ o = screenReaderAttached
    \/ o = obsoleteAudioCuesEnabled.

(** The cache maps a cue to the derived observable created for it. *)
Definition cache_valid (st : Service) : Prop :=
  forall cue ref,
    Js.map_get AudioCue.eq_dec cue (isEnabledCache st) = Some ref ->
    exists d, nth_error (deriveds st) ref = Some d /\ derived_cue d = cue.

(** How often the factory of the cache has run for a cue: each run
    allocates one derived observable for it. *)
Definition factory_calls (cue : AudioCue.t) (st : Service) : nat :=
  count_occ AudioCue.eq_dec (map derived_cue (deriveds st)) cue.

Definition factory_once (st : Service) : Prop :=
  forall cue,
    factory_calls cue st =
      if Js.map_has AudioCue.eq_dec cue (isEnabledCache st) then 1 else 0.

Definition enablement_wf (st : Service) : Prop :=
  memo_valid st /\ deps_valid st /\ cache_valid st /\ factory_once st.

(** ** Example environment *)

(** A configuration in which the cue for errors is on [auto], the legacy
    setting is [off] and the volume is 150. *)
Definition example_configuration : IConfigurationService :=
  {| getValue := fun key =>
       if String.eqb key "audioCues.lineHasError" then Js.Str "auto"
       else if String.eqb key "audioCues.enabled" then Js.Str "off"
       else if String.eqb key "audioCues.volume" then Js.Number 150
       else Js.Undefined |}.

Definition example_accessibility : IAccessibilityService :=
  {| isScreenReaderOptimized := true |}.

Definition example_service : Service :=
  initial example_configuration example_accessibility.

(** ** Well-formedness of the playback state *)

(** The path of the media file of a sound, as [playSound] builds it. *)
Definition media_url (sound : Sound.t) : string :=
  ("vs/platform/audioCues/common/media/" ++ Sound.fileName sound)%string.

(** A suspended activation awaits a pending promise with its timer not
    overdue; a rejected one stopped at the assignment of the volume: it has
    no timer, and its element has no listener and [play()] was not called
    on it. *)
Definition call_ok (st : Service) (x : PlaySoundCall) : Prop :=
  match call_state x with
  | Suspended =>
      exists a y d,
        call_audio x = Some a /\ call_timer x = Some d /\ now st <= d
        /\ nth_error (audios st) a = Some y /\ audio_play y = Pending
  | Settled Normal => True
  | Settled (Throw e) =>
      call_timer x = None
      /\ exists a y,
           call_audio x = Some a /\ nth_error (audios st) a = Some y
           /\ audio_play y = NotCalled /\ audio_onended y = None
  end.

Definition calls_ok (st : Service) : Prop :=
  forall c x, nth_error (calls st) c = Some x -> call_ok st x.

(** Every activation has an element of its own. *)
Definition audios_owned (st : Service) : Prop :=
  (forall c x a, nth_error (calls st) c = Some x -> call_audio x = Some a ->
                 a < List.length (audios st))
  /\ (forall c c' x x' a,
        nth_error (calls st) c = Some x -> nth_error (calls st) c' = Some x' ->
        call_audio x = Some a -> call_audio x' = Some a -> c = c').

(** A sound in the registry has an element, created for its media file,
    whose playback has not ended: one that has the listener for the sound,
    or one left without listener and without [play()]. *)
Definition registry_backed (st : Service) : Prop :=
  forall sound,
    In sound (playingSounds st) ->
    exists a y,
      nth_error (audios st) a = Some y
      /\ audio_src y = media_url sound
      /\ audio_ended y = false
      /\ (audio_onended y = Some sound
          \/ (audio_onended y = None /\ audio_play y = NotCalled)).

Definition playback_wf (st : Service) : Prop :=
  NoDup (playingSounds st) /\ calls_ok st /\ audios_owned st /\ registry_backed st.

(** What [audio.remove()], a settled promise and the dispatch of ['ended']
    do to an element, and what settling does to an activation. *)
Definition mark_removed (x : Audio) : Audio :=
  {| audio_src := audio_src x; audio_volume := audio_volume x;
     audio_onended := audio_onended x; audio_play := audio_play x;
     audio_ended := audio_ended x; audio_removed := true |}.

Definition mark_play (p : PromiseState) (x : Audio) : Audio :=
  {| audio_src := audio_src x; audio_volume := audio_volume x;
     audio_onended := audio_onended x; audio_play := p;
     audio_ended := audio_ended x; audio_removed := audio_removed x |}.

Definition mark_ended (x : Audio) : Audio :=
  {| audio_src := audio_src x; audio_volume := audio_volume x;
     audio_onended := audio_onended x; audio_play := audio_play x;
     audio_ended := true; audio_removed := audio_removed x |}.

Definition mark_settled (r : Completion) (x : PlaySoundCall) : PlaySoundCall :=
  {| call_sound := call_sound x; call_audio := call_audio x;
     call_timer := call_timer x; call_state := Settled r |}.

(** The element of an activation. *)
Definition audio_of_call (st : Service) (c : nat) : option nat :=
  match nth_error (calls st) c with
  | Some x => call_audio x
  | None => None
  end.

Definition remove_at (o : option nat) (l : list Audio) : list Audio :=
  match o with
  | Some i => update_nth i mark_removed l
  | None => l
  end.

(** ** The registry invariant as the specification states it *)

(** A sound is in the registry exactly when a playback of it was started
    and has neither finished nor failed. *)
Definition registry_tracks_playbacks : Prop :=
  forall st sound,
    reachable st ->
    (Js.set_has Sound.eq_dec sound (playingSounds st) = true
     <-> playback_in_flight sound st = true).

(** Once every playback of a sound has finished or has gone through the
    cleanup of its activation, the sound is no longer in the registry. *)
Definition registry_released_on_cleanup : Prop :=
  forall st sound,
    reachable st ->
    (forall x, In x (audios st) -> audio_onended x = Some sound ->
               audio_ended x = true \/ audio_removed x = true) ->
    Js.set_has Sound.eq_dec sound (playingSounds st) = false.

(** Two overlapping playbacks of one sound, the first of which completes. *)
Definition overlapping_trace : list Event :=
  [ Call_playSound Sound.error false;
    Call_playSound Sound.error true;
    PlayFulfilled 0;
    Ended 0 ].

(** A playback that does not begin within the timeout. *)
Definition stalled_trace : list Event :=
  [ Call_playSound Sound.error false;
    Elapse 1000;
    TimerFired 0 ].


(** ** Batch playback as the specification states it *)

(** [playAudioCues] starts a playback of exactly the distinct sounds of the
    enabled cues of its argument. *)
Definition playAudioCues_starts_every_enabled_sound : Prop :=
  forall st cues,
    reachable st ->
    exists new,
      audios (snd (playAudioCues cues st)) = audios st ++ new
      /\ map audio_onended new
         = map Some
             (Js.set_of_list Sound.eq_dec
                (map AudioCue.sound
                   (filter (fun cue => fst (isEnabled_get cue st)) cues))).

(** The example service while the sound of the error cue is playing. *)
Definition busy_service : Service :=
  snd (playSound Sound.error false example_service).

(** The example service one timeout after a playback was requested. *)
Definition stalled_service : Service :=
  set_now 1000 (snd (playSound Sound.error false example_service)).

(** ** What no event undoes *)

(** An activation keeps its sound, its element and its timer, and stays
    settled once it is. *)
Definition call_persists (x x' : PlaySoundCall) : Prop :=
  call_sound x' = call_sound x /\ call_audio x' = call_audio x
  /\ call_timer x' = call_timer x
  /\ (forall r, call_state x = Settled r -> call_state x' = Settled r).

(** An element keeps its source, its volume and its listener; its promise
    stays as it settled; its flags are not reset. *)
Definition audio_persists (y y' : Audio) : Prop :=
  audio_src y' = audio_src y /\ audio_volume y' = audio_volume y
  /\ audio_onended y' = audio_onended y
  /\ (audio_play y <> Pending -> audio_play y' = audio_play y)
  /\ (audio_ended y = true -> audio_ended y' = true)
  /\ (audio_removed y = true -> audio_removed y' = true).

Definition persists (st st' : Service) : Prop :=
  (forall c x, nth_error (calls st) c = Some x ->
     exists x', nth_error (calls st') c = Some x' /\ call_persists x x')
  /\ (forall a y, nth_error (audios st) a = Some y ->
        exists y', nth_error (audios st') a = Some y' /\ audio_persists y y')
  /\ (exists l, console st' = console st ++ l)
  /\ now st <= now st'.

(** The element of an activation has been removed exactly when the
    activation has resolved: not while it is suspended, and not when it was
    rejected, which happens before the [try]. *)
Definition cleanup_matches_settlement (st : Service) : Prop :=
  forall c x a,
    nth_error (calls st) c = Some x -> call_audio x = Some a ->
    exists y,
      nth_error (audios st) a = Some y
      /\ audio_removed y = match call_state x with
                           | Suspended => false
                           | Settled Normal => true
                           | Settled (Throw _) => false
                           end.

(** The element and the activation that a call of [playSound] passing the
    guard leaves behind, by whether the setter accepts the volume. *)
Definition new_element (sound : Sound.t) (volume : float) : Audio :=
  if volume_accepted volume
  then {| audio_src := media_url sound; audio_volume := volume;
          audio_onended := Some sound; audio_play := Pending;
          audio_ended := false; audio_removed := false |}
  else {| audio_src := media_url sound; audio_volume := default_volume;
          audio_onended := None; audio_play := NotCalled;
          audio_ended := false; audio_removed := false |}.

Definition new_activation (sound : Sound.t) (a : nat) (time : nat) (volume : float)
  : PlaySoundCall :=
  if volume_accepted volume
  then {| call_sound := sound; call_audio := Some a;
          call_timer := Some (time + playTimeout); call_state := Suspended |}
  else {| call_sound := sound; call_audio := Some a;
          call_timer := None;
          call_state := Settled (Throw (volume_setter_error volume)) |}.

(** ** A configuration whose volume is NaN *)

Definition nan_configuration : IConfigurationService :=
  {| getValue := fun key =>
       if String.eqb key "audioCues.volume" then Js.Number nan
       else Js.Undefined |}.

Definition nan_service : Service :=
  initial nan_configuration example_accessibility.

(** The claim on a NaN volume as it is stated: the playback that
    [playSound] starts has its volume set to NaN. *)
Definition nan_volume_reaches_playback : Prop :=
  forall st sound,
    getValue (configurationService st) "audioCues.volume" = Js.Number nan ->
    exists x,
      audios (snd (playSound sound true st)) = audios st ++ [x]
      /\ audio_volume x = nan
      /\ audio_play x = Pending.

(* ================================================================== *)
(** * Properties *)
(* ================================================================== *)

(** ** Volume *)

Section ClampFacts.
Open Scope float_scope.

Lemma is_nan_finite v s m e : Prim2SF v = S754_finite s m e -> is_nan v = false.
Proof.
  intros E. unfold is_nan. rewrite eqb_spec, E. unfold SFeqb, SFcompare.
  rewrite Z.compare_refl, Pos.compare_cont_refl. destruct s; reflexivity.
Qed.

Lemma Math_min_lt a b :
  is_nan a = false -> is_nan b = false -> (a <? b) = true -> Js.Math_min a b = a.
Proof. intros Ha Hb H. unfold Js.Math_min. now rewrite Ha, Hb, H. Qed.

Lemma Math_min_gt a b :
  is_nan a = false -> is_nan b = false -> (a <? b) = false -> (b <? a) = true ->
  Js.Math_min a b = b.
Proof. intros Ha Hb H H'. unfold Js.Math_min. now rewrite Ha, Hb, H, H'. Qed.

Lemma Math_max_lt a b :
  is_nan a = false -> is_nan b = false -> (a <? b) = true -> Js.Math_max a b = b.
Proof. intros Ha Hb H. unfold Js.Math_max. now rewrite Ha, Hb, H. Qed.

Lemma Math_max_gt a b :
  is_nan a = false -> is_nan b = false -> (a <? b) = false -> (b <? a) = true ->
  Js.Math_max a b = a.
Proof. intros Ha Hb H H'. unfold Js.Math_max. now rewrite Ha, Hb, H, H'. Qed.

Lemma SFcompare_pos m e m' e' :
  SFcompare (S754_finite false m e) (S754_finite false m' e') = Some (cmp_pos m e m' e').
Proof. reflexivity. Qed.

Lemma cmp_pos_antisym m e m' e' : cmp_pos m' e' m e = CompOpp (cmp_pos m e m' e').
Proof.
  unfold cmp_pos. rewrite (Z.compare_antisym e e').
  pose proof (Pos.compare_cont_antisym m m' Eq) as A. cbn [CompOpp] in A.
  rewrite <- A. destruct (e ?= e')%Z; reflexivity.
Qed.

Lemma cmp_pos_eq m e m' e' : cmp_pos m e m' e' = Eq -> m = m' /\ e = e'.
Proof.
  unfold cmp_pos. destruct (e ?= e')%Z eqn:Ce; try discriminate.
  intros C. apply Z.compare_eq in Ce. apply Pos.compare_eq in C. now split.
Qed.

Lemma clamp_code_finite_pos v m e :
  Prim2SF v = S754_finite false m e ->
  Js.Math_max (Js.Math_min v 100) 0 = clamp v 0 100.
Proof.
  intros E.
  pose proof (is_nan_finite _ _ _ _ E) as Hn.
  assert (Hn100 : is_nan 100 = false) by reflexivity.
  assert (Hn0 : is_nan 0 = false) by reflexivity.
  assert (H0 : Prim2SF 0 = S754_zero false) by reflexivity.
  assert (L2 : (v <? 0) = false) by (rewrite ltb_spec, E, H0; reflexivity).
  assert (L2' : (0 <? v) = true) by (rewrite ltb_spec, E, H0; reflexivity).
  assert (L3 : (v <=? 0) = false) by (rewrite leb_spec, E, H0; reflexivity).
  assert (H100 : exists m' e', Prim2SF 100 = S754_finite false m' e')
    by (do 2 eexists; reflexivity).
  destruct H100 as (m' & e' & H100).
  unfold clamp. rewrite L3.
  assert (L4 : (v <? 100) = match cmp_pos m e m' e' with Lt => true | _ => false end)
    by (rewrite ltb_spec, E, H100; unfold SFltb; now rewrite SFcompare_pos).
  assert (L5 : (100 <? v) = match cmp_pos m e m' e' with Gt => true | _ => false end).
  { rewrite ltb_spec, E, H100. unfold SFltb. rewrite SFcompare_pos, cmp_pos_antisym.
    destruct (cmp_pos m e m' e'); reflexivity. }
  assert (L6 : (100 <=? v) = match cmp_pos m e m' e' with Lt => false | _ => true end).
  { rewrite leb_spec, E, H100. unfold SFleb. rewrite SFcompare_pos, cmp_pos_antisym.
    destruct (cmp_pos m e m' e'); reflexivity. }
  destruct (cmp_pos m e m' e') eqn:C.
  - apply cmp_pos_eq in C. destruct C; subst.
    assert (v = 100) as -> by (apply Prim2SF_inj; congruence).
    reflexivity.
  - rewrite L6, (Math_min_lt _ _ Hn Hn100 L4).
    now rewrite (Math_max_gt _ _ Hn Hn0 L2 L2').
  - rewrite L6, (Math_min_gt _ _ Hn Hn100 L4 L5). reflexivity.
Qed.

(** The nested [Math.max(Math.min(volume, 100), 0)] is the clamp of the
    specification on every number, NaN and the infinities included. *)
Lemma clamp_code v : Js.Math_max (Js.Math_min v 100) 0 = clamp v 0 100.
Proof.
  destruct (Prim2SF v) as [s|s| |s m e] eqn:E.
  - assert (v = if s then -0 else 0) as ->
      by (apply Prim2SF_inj; rewrite E; destruct s; reflexivity).
    destruct s; reflexivity.
  - assert (v = if s then neg_infinity else infinity) as ->
      by (apply Prim2SF_inj; rewrite E; destruct s; reflexivity).
    destruct s; reflexivity.
  - assert (v = nan) as -> by (apply Prim2SF_inj; rewrite E; reflexivity).
    reflexivity.
  - destruct s; [| exact (clamp_code_finite_pos _ _ _ E)].
    pose proof (is_nan_finite _ _ _ _ E) as Hn.
    assert (Hn100 : is_nan 100 = false) by reflexivity.
    assert (Hn0 : is_nan 0 = false) by reflexivity.
    assert (L1 : (v <? 100) = true) by (rewrite ltb_spec, E; reflexivity).
    assert (L2 : (v <? 0) = true) by (rewrite ltb_spec, E; reflexivity).
    assert (L3 : (v <=? 0) = true) by (rewrite leb_spec, E; reflexivity).
    rewrite (Math_min_lt _ _ Hn Hn100 L1), (Math_max_lt _ _ Hn Hn0 L2).
    unfold clamp. now rewrite L3.
Qed.

End ClampFacts.

Section Enablement.

Lemma audio_cue_enabled_two_tiers (cue : AudioCue.t) (w : World) :
  audio_cue_enabled cue w =
    two_tiers cue
      (getValue (world_configuration w) (AudioCue.settingsKey cue))
      (getValue (world_configuration w) "audioCues.enabled")
      (isScreenReaderOptimized (world_accessibility w)).
Proof.
  destruct w as [cfg [r]].
  unfold audio_cue_enabled, two_tiers, second_tier, bind, read, or_else, and_then, ret.
  cbn [observable_getter world_configuration world_accessibility
       isScreenReaderOptimized to_boolean].
  destruct (Js.strict_eq_str (getValue cfg (AudioCue.settingsKey cue)) "on");
    [reflexivity|].
  destruct (Js.strict_eq_str (getValue cfg (AudioCue.settingsKey cue)) "auto");
    [destruct r; [reflexivity|] |];
    cbn [observable_getter world_configuration world_accessibility
         isScreenReaderOptimized to_boolean];
    (destruct (Js.strict_eq_str (getValue cfg "audioCues.enabled") "on");
     [reflexivity|]);
    (destruct (Js.strict_eq_str (getValue cfg "audioCues.enabled") "auto");
     [|reflexivity]);
    cbn [observable_getter world_configuration world_accessibility
         isScreenReaderOptimized to_boolean];
    try destruct r; reflexivity.
Qed.

Lemma audio_cue_enabled_spec (cue : AudioCue.t) (w : World) (perCue legacy : Setting) :
  getValue (world_configuration w) (AudioCue.settingsKey cue) = setting_value perCue ->
  getValue (world_configuration w) "audioCues.enabled" = setting_value legacy ->
  audio_cue_enabled cue w =
    (enabled_formula perCue legacy (isScreenReaderOptimized (world_accessibility w)),
     expected_reads cue perCue legacy (isScreenReaderOptimized (world_accessibility w))).
Proof.
  intros H1 H2. rewrite audio_cue_enabled_two_tiers, H1, H2.
  destruct perCue, legacy, (isScreenReaderOptimized (world_accessibility w));
    reflexivity.
Qed.

(** The result of the derivation depends only on the observables it read. *)
Lemma audio_cue_enabled_stable (cue : AudioCue.t) (w w' : World) :
  (forall o, In o (snd (audio_cue_enabled cue w)) ->
             observable_getter w' o = observable_getter w o) ->
  audio_cue_enabled cue w' = audio_cue_enabled cue w.
Proof.
  rewrite !audio_cue_enabled_two_tiers.
  destruct w as [cfg [r]], w' as [cfg' [r']].
  cbn [world_configuration world_accessibility isScreenReaderOptimized].
  intros H.
  assert (Hs : getValue cfg' (AudioCue.settingsKey cue) =
               getValue cfg (AudioCue.settingsKey cue)).
  { apply (H (settingObservable cue)).
    unfold two_tiers, second_tier.
    repeat match goal with
           | |- context [if ?b then _ else _] => destruct b
           end; simpl; auto. }
  rewrite Hs.
  assert (Hl : In obsoleteAudioCuesEnabled
                 (snd (two_tiers cue (getValue cfg (AudioCue.settingsKey cue))
                         (getValue cfg "audioCues.enabled") r)) ->
               getValue cfg' "audioCues.enabled" = getValue cfg "audioCues.enabled")
    by (intros I; exact (H _ I)).
  assert (Hr : In screenReaderAttached
                 (snd (two_tiers cue (getValue cfg (AudioCue.settingsKey cue))
                         (getValue cfg "audioCues.enabled") r)) ->
               r' = r).
  { intros I. specialize (H _ I). simpl in H. congruence. }
  clear H Hs. revert Hl Hr.
  generalize (getValue cfg (AudioCue.settingsKey cue)) as s.
  generalize (getValue cfg "audioCues.enabled") as l.
  generalize (getValue cfg' "audioCues.enabled") as l'.
  intros l' l s. unfold two_tiers, second_tier.
  destruct (Js.strict_eq_str s "on"); [reflexivity|].
  destruct (Js.strict_eq_str s "auto").
  - destruct r.
    + intros _ Hr. rewrite Hr by (simpl; auto). reflexivity.
    + destruct (Js.strict_eq_str l "on") eqn:E3;
        [| destruct (Js.strict_eq_str l "auto") eqn:E4];
        intros Hl Hr; rewrite Hl, Hr by (simpl; auto); rewrite E3, ?E4; reflexivity.
  - destruct (Js.strict_eq_str l "on") eqn:E3;
      [| destruct (Js.strict_eq_str l "auto") eqn:E4];
      intros Hl Hr; rewrite Hl by (simpl; auto); rewrite E3, ?E4; try reflexivity.
    rewrite Hr by (simpl; auto). reflexivity.
Qed.
End Enablement.

(** ** Lists, sets and maps *)

Section Collections.

Lemma nth_error_update_nth {A : Type} (f : A -> A) (l : list A) (n m : nat) :
  nth_error (update_nth n f l) m =
    if Nat.eqb n m then option_map f (nth_error l m) else nth_error l m.
Proof.
  revert n m. induction l as [|x l IH]; intros n m.
  - destruct n, m; simpl; try reflexivity; destruct (Nat.eqb n m); reflexivity.
  - destruct n, m; simpl; try reflexivity. apply IH.
Qed.

Lemma length_update_nth {A : Type} (f : A -> A) (l : list A) (n : nat) :
  List.length (update_nth n f l) = List.length l.
Proof.
  revert n. induction l as [|x l IH]; intros [|n]; simpl; auto.
Qed.

Lemma map_update_nth {A B : Type} (g : A -> B) (f : A -> A) (l : list A) (n : nat) :
  (forall x, nth_error l n = Some x -> g (f x) = g x) ->
  map g (update_nth n f l) = map g l.
Proof.
  revert n. induction l as [|x l IH]; intros [|n] H; simpl; auto.
  - now rewrite H.
  - rewrite IH; auto.
Qed.

Lemma map_get_set_same {K V : Type} (dec : forall x y : K, {x = y} + {x <> y})
  (k : K) (v : V) (m : Js.JMap K V) :
  Js.map_get dec k (Js.map_set dec k v m) = Some v.
Proof.
  induction m as [|[k' v'] m IH]; simpl.
  - destruct (dec k k); congruence.
  - destruct (dec k k') as [E|N]; simpl.
    + destruct (dec k k'); congruence.
    + destruct (dec k k'); congruence.
Qed.

Lemma map_get_set_other {K V : Type} (dec : forall x y : K, {x = y} + {x <> y})
  (k k' : K) (v : V) (m : Js.JMap K V) :
  k <> k' -> Js.map_get dec k' (Js.map_set dec k v m) = Js.map_get dec k' m.
Proof.
  intros N. induction m as [|[k0 v0] m IH]; simpl.
  - destruct (dec k' k); congruence.
  - destruct (dec k k0) as [E|N0]; simpl.
    + subst. destruct (dec k' k0); congruence.
    + destruct (dec k' k0); congruence.
Qed.

End Collections.

(** ** The enablement state *)

Section EnablementState.

Lemma isEnabled_hit cue st ref :
  Js.map_get AudioCue.eq_dec cue (isEnabledCache st) = Some ref ->
  isEnabled cue st = (ref, st).
Proof. intros H. unfold isEnabled, Cache.get. now rewrite H. Qed.

Lemma isEnabled_miss cue st :
  Js.map_get AudioCue.eq_dec cue (isEnabledCache st) = None ->
  isEnabled cue st =
    (List.length (deriveds st),
     set_isEnabledCache
       (Js.map_set AudioCue.eq_dec cue (List.length (deriveds st)) (isEnabledCache st))
       (set_deriveds
          (deriveds st ++
             [{| derived_cue := cue; derived_value := None; derived_deps := [] |}])
          st)).
Proof. intros H. unfold isEnabled, Cache.get. now rewrite H. Qed.

Lemma enablement_wf_ext st st' :
  enablement_view st' = enablement_view st -> enablement_wf st -> enablement_wf st'.
Proof.
  unfold enablement_view. intros E. inversion E as [[E1 E2 E3 E4]].
  unfold enablement_wf, memo_valid, deps_valid, cache_valid, factory_once,
    factory_calls, world.
  rewrite E1, E2, E3, E4. auto.
Qed.

Lemma enablement_wf_initial cfg acc : enablement_wf (initial cfg acc).
Proof.
  repeat split; red; simpl; intros.
  - destruct ref; discriminate.
  - destruct ref; discriminate.
  - discriminate.
Qed.

Lemma enablement_wf_isEnabled cue st :
  enablement_wf st -> enablement_wf (snd (isEnabled cue st)).
Proof.
  intros (Hm & Hd & Hc & Hf).
  destruct (Js.map_get AudioCue.eq_dec cue (isEnabledCache st)) as [ref|] eqn:G.
  - rewrite (isEnabled_hit _ _ _ G). simpl. repeat split; assumption.
  - rewrite (isEnabled_miss _ _ G). simpl.
    repeat split; red; simpl.
    + intros ref d b Hn Hv.
      destruct (Nat.lt_ge_cases ref (List.length (deriveds st))) as [L|L].
      * rewrite nth_error_app1 in Hn by assumption. exact (Hm _ _ _ Hn Hv).
      * rewrite nth_error_app2 in Hn by assumption.
        destruct (ref - List.length (deriveds st)) as [|k]; simpl in Hn.
        -- inversion Hn; subst. discriminate.
        -- destruct k; discriminate.
    + intros ref d o Hn Ho.
      destruct (Nat.lt_ge_cases ref (List.length (deriveds st))) as [L|L].
      * rewrite nth_error_app1 in Hn by assumption. exact (Hd _ _ _ Hn Ho).
      * rewrite nth_error_app2 in Hn by assumption.
        destruct (ref - List.length (deriveds st)) as [|k]; simpl in Hn.
        -- inversion Hn; subst. destruct Ho.
        -- destruct k; discriminate.
    + intros cue' ref Hg.
      destruct (AudioCue.eq_dec cue cue') as [E|N].
      * subst cue'. rewrite map_get_set_same in Hg. inversion Hg; subst.
        eexists. split.
        -- rewrite nth_error_app2 by lia. rewrite Nat.sub_diag. reflexivity.
        -- reflexivity.
      * rewrite map_get_set_other in Hg by assumption.
        destruct (Hc _ _ Hg) as (d & Hn & Hcue).
        exists d. split; [|assumption].
        rewrite nth_error_app1; [assumption|]. apply nth_error_Some. congruence.
    + intros cue'. unfold factory_calls. simpl.
      rewrite map_app, count_occ_app. simpl.
      specialize (Hf cue'). unfold factory_calls in Hf. rewrite Hf.
      unfold Js.map_has.
      destruct (AudioCue.eq_dec cue cue') as [E|N].
      * subst cue'. rewrite map_get_set_same, G. reflexivity.
      * rewrite map_get_set_other by assumption.
        destruct (Js.map_get AudioCue.eq_dec cue' (isEnabledCache st)); lia.
Qed.

End EnablementState.

Section DerivedGet.

Lemma observable_get_value st ref d :
  enablement_wf st ->
  nth_error (deriveds st) ref = Some d ->
  fst (observable_get ref st) = fst (audio_cue_enabled (derived_cue d) (world st)).
Proof.
  intros (Hm & _) Hn. unfold observable_get. rewrite Hn.
  destruct (derived_value d) as [b|] eqn:V.
  - rewrite (Hm _ _ _ Hn V). reflexivity.
  - destruct (audio_cue_enabled (derived_cue d) (world st)); reflexivity.
Qed.

Lemma enablement_wf_observable_get ref st :
  enablement_wf st -> enablement_wf (snd (observable_get ref st)).
Proof.
  intros W. pose proof W as (Hm & Hd & Hc & Hf).
  unfold observable_get.
  destruct (nth_error (deriveds st) ref) as [d|] eqn:Hn; [|exact W].
  destruct (derived_value d) as [b|] eqn:V; [exact W|].
  destruct (audio_cue_enabled (derived_cue d) (world st)) as [b deps] eqn:C.
  simpl. repeat split; red; simpl.
  - intros ref' d' b' Hn' V'. rewrite nth_error_update_nth in Hn'.
    destruct (Nat.eqb ref ref') eqn:E.
    + apply Nat.eqb_eq in E. subst ref'. rewrite Hn in Hn'. simpl in Hn'.
      inversion Hn'; subst d'. simpl in *. inversion V'; subst. exact C.
    + exact (Hm _ _ _ Hn' V').
  - intros ref' d' o Hn' Ho. rewrite nth_error_update_nth in Hn'.
    destruct (Nat.eqb ref ref') eqn:E.
    + apply Nat.eqb_eq in E. subst ref'. rewrite Hn in Hn'. simpl in Hn'.
      inversion Hn'; subst d'. simpl in *.
      rewrite audio_cue_enabled_two_tiers in C.
      unfold two_tiers, second_tier in C.
      repeat match type of C with
             | context [if ?c then _ else _] => destruct c
             end; inversion C; subst; simpl in Ho; intuition (subst; auto).
    + exact (Hd _ _ _ Hn' Ho).
  - intros cue r Hg. destruct (Hc _ _ Hg) as (d0 & Hn0 & Hcue).
    rewrite nth_error_update_nth.
    destruct (Nat.eqb ref r) eqn:E.
    + apply Nat.eqb_eq in E. subst r. rewrite Hn0. simpl. eexists; split; eauto.
      simpl. congruence.
    + eauto.
  - intros cue. unfold factory_calls. simpl.
    rewrite map_update_nth; [exact (Hf cue)|].
    intros x Hx. rewrite Hn in Hx. inversion Hx; subst. reflexivity.
Qed.
End DerivedGet.

Section Invalidation.

Lemma invalidate_cue changed d : derived_cue (invalidate changed d) = derived_cue d.
Proof. unfold invalidate. destruct (existsb changed (derived_deps d)); reflexivity. Qed.

Lemma invalidate_deps changed d : derived_deps (invalidate changed d) = derived_deps d.
Proof. unfold invalidate. destruct (existsb changed (derived_deps d)); reflexivity. Qed.

Lemma invalidate_value changed d b :
  derived_value (invalidate changed d) = Some b ->
  derived_value d = Some b /\ forall o, In o (derived_deps d) -> changed o = false.
Proof.
  unfold invalidate. destruct (existsb changed (derived_deps d)) eqn:E; simpl.
  - discriminate.
  - intros H. split; [assumption|]. intros o Ho.
    destruct (changed o) eqn:Co; [|reflexivity].
    assert (existsb changed (derived_deps d) = true)
      by (apply existsb_exists; eauto).
    congruence.
Qed.

Lemma enablement_wf_invalidate changed st st' :
  enablement_wf st ->
  deriveds st' = map (invalidate changed) (deriveds st) ->
  isEnabledCache st' = isEnabledCache st ->
  (forall o, changed o = false ->
             observable_getter (world st') o = observable_getter (world st) o) ->
  enablement_wf st'.
Proof.
  intros (Hm & Hd & Hc & Hf) ED EC EW.
  repeat split; red.
  - intros ref d' b Hn V. rewrite ED, nth_error_map in Hn.
    destruct (nth_error (deriveds st) ref) as [d|] eqn:Hn0; [|discriminate].
    simpl in Hn. inversion Hn; subst d'. clear Hn.
    apply invalidate_value in V. destruct V as (V & Hun).
    rewrite invalidate_cue, invalidate_deps.
    rewrite <- (Hm _ _ _ Hn0 V).
    apply audio_cue_enabled_stable.
    intros o Ho. apply EW, Hun.
    rewrite (Hm _ _ _ Hn0 V) in Ho. exact Ho.
  - intros ref d' o Hn Ho. rewrite ED, nth_error_map in Hn.
    destruct (nth_error (deriveds st) ref) as [d|] eqn:Hn0; [|discriminate].
    simpl in Hn. inversion Hn; subst d'. clear Hn.
    rewrite invalidate_cue. rewrite invalidate_deps in Ho. eauto.
  - intros cue ref Hg. rewrite EC in Hg. destruct (Hc _ _ Hg) as (d & Hn & Hcue).
    exists (invalidate changed d). split.
    + rewrite ED, nth_error_map, Hn. reflexivity.
    + now rewrite invalidate_cue.
  - intros cue. unfold factory_calls. rewrite ED, EC, map_map.
    rewrite (map_ext _ derived_cue (invalidate_cue changed)). exact (Hf cue).
Qed.

Lemma apply_change_unaffected e cfg key :
  affectsConfiguration e key = false ->
  getValue (apply_change e cfg) key = getValue cfg key.
Proof.
  unfold affectsConfiguration, apply_change. simpl. intros H.
  destruct (find (fun kv => String.eqb (fst kv) key) e) as [kv|] eqn:F; [|reflexivity].
  apply find_some in F. destruct F as (I & E).
  assert (existsb (fun kv => String.eqb (fst kv) key) e = true)
    by (apply existsb_exists; eauto).
  congruence.
Qed.

Lemma enablement_wf_onDidChangeConfiguration e st :
  enablement_wf st -> enablement_wf (onDidChangeConfiguration e st).
Proof.
  intros W. apply (enablement_wf_invalidate (passes_filter e) st); auto.
  intros o Ho. destruct o; unfold passes_filter in Ho; simpl in Ho; auto;
    unfold observable_getter, world; cbn [world_configuration world_accessibility];
    unfold onDidChangeConfiguration; simpl configurationService;
    now apply apply_change_unaffected.
Qed.

Lemma enablement_wf_onDidChangeScreenReaderOptimized b st :
  enablement_wf st -> enablement_wf (onDidChangeScreenReaderOptimized b st).
Proof.
  intros W. unfold onDidChangeScreenReaderOptimized.
  eapply (enablement_wf_invalidate _ st); eauto; try reflexivity.
  intros o Ho. destruct o; simpl in *; auto. discriminate.
Qed.

End Invalidation.

(** ** Frames: each layer leaves the other's state alone *)

Section Frames.

Lemma playSound_enablement_view sound allow st :
  enablement_view (snd (playSound sound allow st)) = enablement_view st.
Proof.
  unfold playSound.
  destruct (negb allow && Js.set_has Sound.eq_dec sound (playingSounds st));
    [|destruct (volume_accepted _)]; reflexivity.
Qed.

Lemma playSounds_enablement_view sounds st :
  enablement_view (snd (playSounds sounds st)) = enablement_view st.
Proof.
  revert st. induction sounds as [|s l IH]; intros st; simpl; [reflexivity|].
  destruct (playSound s false st) as [c st1] eqn:E1.
  destruct (playSounds l st1) as [cs st2] eqn:E2. simpl.
  change st2 with (snd (cs, st2)). rewrite <- E2, IH.
  change st1 with (snd (c, st1)). rewrite <- E1.
  apply playSound_enablement_view.
Qed.

Lemma playSound_resume_enablement_view c r st :
  enablement_view (playSound_resume c r st) = enablement_view st.
Proof.
  unfold playSound_resume. destruct r; simpl.
  - destruct (nth_error (calls st) c) as [x|]; [destruct (call_audio x)|]; reflexivity.
  - destruct (nth_error (calls st) c) as [x|]; [destruct (call_audio x)|]; reflexivity.
Qed.

Lemma race_settles_enablement_view a r st :
  enablement_view (race_settles a r st) = enablement_view st.
Proof.
  unfold race_settles. destruct (find_awaiting a (calls st) 0); [|reflexivity].
  apply playSound_resume_enablement_view.
Qed.

Lemma on_ended_enablement_view a st :
  enablement_view (on_ended a st) = enablement_view st.
Proof.
  unfold on_ended.
  destruct (nth_error (audios st) a) as [x|]; [destruct (audio_onended x)|];
    reflexivity.
Qed.

Lemma isEnabled_playback_view cue st :
  playback_view (snd (isEnabled cue st)) = playback_view st.
Proof.
  destruct (Js.map_get AudioCue.eq_dec cue (isEnabledCache st)) as [ref|] eqn:G.
  - now rewrite (isEnabled_hit _ _ _ G).
  - now rewrite (isEnabled_miss _ _ G).
Qed.

Lemma observable_get_playback_view ref st :
  playback_view (snd (observable_get ref st)) = playback_view st.
Proof.
  unfold observable_get. destruct (nth_error (deriveds st) ref) as [d|]; [|reflexivity].
  destruct (derived_value d); [reflexivity|].
  destruct (audio_cue_enabled (derived_cue d) (world st)); reflexivity.
Qed.

Lemma isEnabled_get_playback_view cue st :
  playback_view (snd (isEnabled_get cue st)) = playback_view st.
Proof.
  unfold isEnabled_get. destruct (isEnabled cue st) as [ref st1] eqn:E.
  rewrite observable_get_playback_view.
  change st1 with (snd (ref, st1)). rewrite <- E. apply isEnabled_playback_view.
Qed.

Lemma filter_enabled_playback_view cues st :
  playback_view (snd (filter_enabled cues st)) = playback_view st.
Proof.
  revert st. induction cues as [|c l IH]; intros st; simpl; [reflexivity|].
  destruct (isEnabled_get c st) as [b st1] eqn:E1.
  destruct (filter_enabled l st1) as [r st2] eqn:E2. simpl.
  change st2 with (snd (r, st2)). rewrite <- E2, IH.
  change st1 with (snd (b, st1)). rewrite <- E1.
  apply isEnabled_get_playback_view.
Qed.

Lemma isEnabled_world cue st : world (snd (isEnabled cue st)) = world st.
Proof.
  destruct (Js.map_get AudioCue.eq_dec cue (isEnabledCache st)) as [ref|] eqn:G.
  - now rewrite (isEnabled_hit _ _ _ G).
  - now rewrite (isEnabled_miss _ _ G).
Qed.

Lemma observable_get_world ref st : world (snd (observable_get ref st)) = world st.
Proof.
  unfold observable_get. destruct (nth_error (deriveds st) ref) as [d|]; [|reflexivity].
  destruct (derived_value d); [reflexivity|].
  destruct (audio_cue_enabled (derived_cue d) (world st)); reflexivity.
Qed.

Lemma isEnabled_get_world cue st : world (snd (isEnabled_get cue st)) = world st.
Proof.
  unfold isEnabled_get. destruct (isEnabled cue st) as [ref st1] eqn:E.
  rewrite observable_get_world.
  change st1 with (snd (ref, st1)). rewrite <- E. apply isEnabled_world.
Qed.

End Frames.

Section EnablementReachable.

Lemma isEnabled_cached cue st :
  Js.map_get AudioCue.eq_dec cue (isEnabledCache (snd (isEnabled cue st)))
  = Some (fst (isEnabled cue st)).
Proof.
  destruct (Js.map_get AudioCue.eq_dec cue (isEnabledCache st)) as [ref|] eqn:G.
  - now rewrite (isEnabled_hit _ _ _ G).
  - rewrite (isEnabled_miss _ _ G). simpl. apply map_get_set_same.
Qed.

Lemma enablement_wf_isEnabled_get cue st :
  enablement_wf st -> enablement_wf (snd (isEnabled_get cue st)).
Proof.
  intros W. unfold isEnabled_get. destruct (isEnabled cue st) as [ref st1] eqn:E.
  apply enablement_wf_observable_get.
  change st1 with (snd (ref, st1)). rewrite <- E. now apply enablement_wf_isEnabled.
Qed.

(** On a well-formed state [isEnabled(cue).get()] is the derivation of the
    cue evaluated on the current state of the world. *)
Lemma isEnabled_get_value cue st :
  enablement_wf st ->
  fst (isEnabled_get cue st) = fst (audio_cue_enabled cue (world st)).
Proof.
  intros W. unfold isEnabled_get.
  pose proof (enablement_wf_isEnabled cue st W) as W1.
  pose proof (isEnabled_cached cue st) as G.
  pose proof (isEnabled_world cue st) as EW.
  destruct (isEnabled cue st) as [ref st1]. simpl in *.
  destruct W1 as (Hm & Hd & Hc & Hf).
  destruct (Hc _ _ G) as (d & Hn & Hcue).
  rewrite (observable_get_value st1 ref d); [|repeat split; assumption|assumption].
  now rewrite Hcue, EW.
Qed.

Lemma enablement_wf_filter_enabled cues st :
  enablement_wf st -> enablement_wf (snd (filter_enabled cues st)).
Proof.
  revert st. induction cues as [|c l IH]; intros st W; simpl; [assumption|].
  pose proof (enablement_wf_isEnabled_get c st W) as W1.
  destruct (isEnabled_get c st) as [b st1].
  specialize (IH st1 W1).
  destruct (filter_enabled l st1) as [r st2]. exact IH.
Qed.

Lemma filter_enabled_world cues st : world (snd (filter_enabled cues st)) = world st.
Proof.
  revert st. induction cues as [|c l IH]; intros st; simpl; [reflexivity|].
  pose proof (isEnabled_get_world c st) as E1.
  destruct (isEnabled_get c st) as [b st1].
  specialize (IH st1).
  destruct (filter_enabled l st1) as [r st2]. simpl in *. congruence.
Qed.

Lemma filter_enabled_value cues st :
  enablement_wf st ->
  fst (filter_enabled cues st)
  = filter (fun cue => fst (audio_cue_enabled cue (world st))) cues.
Proof.
  revert st. induction cues as [|c l IH]; intros st W; simpl; [reflexivity|].
  pose proof (enablement_wf_isEnabled_get c st W) as W1.
  pose proof (isEnabled_get_value c st W) as V.
  pose proof (isEnabled_get_world c st) as E1.
  destruct (isEnabled_get c st) as [b st1]. simpl in *.
  specialize (IH st1 W1). rewrite E1 in IH.
  destruct (filter_enabled l st1) as [r st2]. simpl in *.
  rewrite <- V, IH. reflexivity.
Qed.

Lemma enablement_wf_step ev st st' :
  enablement_wf st -> step ev st = Some st' -> enablement_wf st'.
Proof.
  intros W S. destruct ev; simpl in S.
  - inversion S; subst.
    eapply enablement_wf_ext; [apply playSound_enablement_view|assumption].
  - inversion S; subst. unfold playAudioCue.
    pose proof (enablement_wf_isEnabled_get cue st W) as W1.
    destruct (isEnabled_get cue st) as [b st1]. simpl in W1.
    destruct b; [|exact W1].
    pose proof (playSound_enablement_view (AudioCue.sound cue) allowManyInParallel st1) as F.
    destruct (playSound (AudioCue.sound cue) allowManyInParallel st1) as [c st2].
    simpl in *. eapply enablement_wf_ext; eauto.
  - inversion S; subst. unfold playAudioCues.
    pose proof (enablement_wf_filter_enabled cues st W) as W1.
    destruct (filter_enabled cues st) as [en st1]. simpl in W1.
    eapply enablement_wf_ext; [apply playSounds_enablement_view|assumption].
  - inversion S; subst. now apply enablement_wf_isEnabled.
  - inversion S; subst. now apply enablement_wf_observable_get.
  - destruct (play_pending audio st); inversion S; subst.
    eapply enablement_wf_ext; [apply race_settles_enablement_view|].
    eapply enablement_wf_ext; [|exact W]. reflexivity.
  - destruct (play_pending audio st); inversion S; subst.
    eapply enablement_wf_ext; [apply race_settles_enablement_view|].
    eapply enablement_wf_ext; [|exact W]. reflexivity.
  - destruct (can_end audio st); inversion S; subst.
    eapply enablement_wf_ext; [apply on_ended_enablement_view|].
    eapply enablement_wf_ext; [|exact W]. reflexivity.
  - destruct (timer_due call st); inversion S; subst.
    eapply enablement_wf_ext; [apply playSound_resume_enablement_view|assumption].
  - destruct (may_elapse ms st); inversion S; subst.
    eapply enablement_wf_ext; [|exact W]. reflexivity.
  - inversion S; subst. now apply enablement_wf_onDidChangeConfiguration.
  - inversion S; subst. now apply enablement_wf_onDidChangeScreenReaderOptimized.
Qed.

Lemma reachable_enablement_wf st : reachable st -> enablement_wf st.
Proof.
  induction 1 as [cfg acc | st ev st' R IH S].
  - apply enablement_wf_initial.
  - eapply enablement_wf_step; eauto.
Qed.

End EnablementReachable.

(** ** The cache, for any factory *)

Section CacheGeneric.
Variables TArg TValue : Type.
Variable TArg_eq_dec : forall x y : TArg, {x = y} + {x <> y}.
Variable getValue : TArg -> Service -> TValue * Service.
Variable map_of : Service -> Js.JMap TArg TValue.
Variable store : Js.JMap TArg TValue -> Service -> Service.
Hypothesis map_of_store : forall m st, map_of (store m st) = m.

(** After a first [get] the value is stored under the key. *)
Lemma Cache_get_stores (arg : TArg) (st : Service) :
  Js.map_get TArg_eq_dec arg
    (map_of (snd (Cache.get TArg_eq_dec getValue map_of store arg st)))
  = Some (fst (Cache.get TArg_eq_dec getValue map_of store arg st)).
Proof.
  unfold Cache.get.
  destruct (Js.map_get TArg_eq_dec arg (map_of st)) as [v|] eqn:G; simpl.
  - exact G.
  - destruct (getValue arg st) as [v st1]. simpl.
    rewrite map_of_store. apply map_get_set_same.
Qed.

(** A second [get] returns the stored value and runs nothing. *)
Lemma Cache_get_again (arg : TArg) (st : Service) :
  let r := Cache.get TArg_eq_dec getValue map_of store arg st in
  Cache.get TArg_eq_dec getValue map_of store arg (snd r) = (fst r, snd r).
Proof.
  intros r. pose proof (Cache_get_stores arg st) as G. fold r in G.
  unfold Cache.get at 1. now rewrite G.
Qed.

(** A [get] for one key keeps what is stored under the others, provided
    the factory does not touch the map. *)
Lemma Cache_get_keeps (arg arg' : TArg) (v : TValue) (st : Service) :
  (forall a s, map_of (snd (getValue a s)) = map_of s) ->
  Js.map_get TArg_eq_dec arg' (map_of st) = Some v ->
  Js.map_get TArg_eq_dec arg'
    (map_of (snd (Cache.get TArg_eq_dec getValue map_of store arg st)))
  = Some v.
Proof.
  intros F G. unfold Cache.get.
  destruct (Js.map_get TArg_eq_dec arg (map_of st)) as [w|] eqn:G'; simpl.
  - exact G.
  - pose proof (F arg st) as Fa. destruct (getValue arg st) as [w st1]. simpl in *.
    rewrite map_of_store, Fa. rewrite map_get_set_other; [exact G|]. congruence.
Qed.

End CacheGeneric.

Section CacheFacts.

Lemma run_reachable evs st st' : reachable st -> run evs st = Some st' -> reachable st'.
Proof.
  revert st. induction evs as [|ev evs IH]; intros st R H; simpl in H.
  - inversion H; subst; assumption.
  - destruct (step ev st) as [st1|] eqn:S; [|discriminate].
    eapply IH; [|exact H]. eapply reachable_step; eauto.
Qed.

Lemma settingsKey_injective c c' :
  String.eqb (AudioCue.settingsKey c) (AudioCue.settingsKey c') = true -> c = c'.
Proof. destruct c, c'; simpl; intros H; try reflexivity; discriminate. Qed.

Lemma settingsKey_not_legacy c :
  String.eqb (AudioCue.settingsKey c) "audioCues.enabled" = false.
Proof. destruct c; reflexivity. Qed.

Lemma cache_entry_isEnabled cue r c st :
  Js.map_get AudioCue.eq_dec cue (isEnabledCache st) = Some r ->
  Js.map_get AudioCue.eq_dec cue (isEnabledCache (snd (isEnabled c st))) = Some r.
Proof.
  intros G.
  destruct (Js.map_get AudioCue.eq_dec c (isEnabledCache st)) as [ref|] eqn:G'.
  - now rewrite (isEnabled_hit _ _ _ G').
  - rewrite (isEnabled_miss _ _ G'). simpl.
    rewrite map_get_set_other; [assumption|]. congruence.
Qed.

Lemma observable_get_cache ref st :
  isEnabledCache (snd (observable_get ref st)) = isEnabledCache st.
Proof.
  unfold observable_get. destruct (nth_error (deriveds st) ref) as [d|]; [|reflexivity].
  destruct (derived_value d); [reflexivity|].
  destruct (audio_cue_enabled (derived_cue d) (world st)); reflexivity.
Qed.

Lemma cache_entry_isEnabled_get cue r c st :
  Js.map_get AudioCue.eq_dec cue (isEnabledCache st) = Some r ->
  Js.map_get AudioCue.eq_dec cue (isEnabledCache (snd (isEnabled_get c st))) = Some r.
Proof.
  intros G. unfold isEnabled_get.
  pose proof (cache_entry_isEnabled cue r c st G) as G1.
  destruct (isEnabled c st) as [ref st1]. simpl in G1.
  now rewrite observable_get_cache.
Qed.

Lemma cache_entry_filter_enabled cue r cues st :
  Js.map_get AudioCue.eq_dec cue (isEnabledCache st) = Some r ->
  Js.map_get AudioCue.eq_dec cue (isEnabledCache (snd (filter_enabled cues st))) = Some r.
Proof.
  revert st. induction cues as [|c l IH]; intros st G; simpl; [assumption|].
  pose proof (cache_entry_isEnabled_get cue r c st G) as G1.
  destruct (isEnabled_get c st) as [b st1]. simpl in G1.
  specialize (IH st1 G1). destruct (filter_enabled l st1) as [en st2]. exact IH.
Qed.

Lemma enablement_view_cache st st' :
  enablement_view st' = enablement_view st -> isEnabledCache st' = isEnabledCache st.
Proof. unfold enablement_view. intros E. now inversion E. Qed.

(** The cache never evicts: an entry survives every event. *)
Lemma cache_entry_step cue r ev st st' :
  Js.map_get AudioCue.eq_dec cue (isEnabledCache st) = Some r ->
  step ev st = Some st' ->
  Js.map_get AudioCue.eq_dec cue (isEnabledCache st') = Some r.
Proof.
  intros G S. destruct ev; simpl in S.
  - inversion S; subst.
    now rewrite (enablement_view_cache _ _ (playSound_enablement_view _ _ _)).
  - inversion S; subst. unfold playAudioCue.
    pose proof (cache_entry_isEnabled_get cue r cue0 st G) as G1.
    destruct (isEnabled_get cue0 st) as [b st1]. simpl in G1.
    destruct b; [|exact G1].
    pose proof (playSound_enablement_view (AudioCue.sound cue0) allowManyInParallel st1) as F.
    destruct (playSound (AudioCue.sound cue0) allowManyInParallel st1) as [c st2].
    simpl in *. now rewrite (enablement_view_cache _ _ F).
  - inversion S; subst. unfold playAudioCues.
    pose proof (cache_entry_filter_enabled cue r cues st G) as G1.
    destruct (filter_enabled cues st) as [en st1]. simpl in G1.
    now rewrite (enablement_view_cache _ _ (playSounds_enablement_view _ _)).
  - inversion S; subst. now apply cache_entry_isEnabled.
  - inversion S; subst. now rewrite observable_get_cache.
  - destruct (play_pending audio st); inversion S; subst.
    now rewrite (enablement_view_cache _ _ (race_settles_enablement_view _ _ _)).
  - destruct (play_pending audio st); inversion S; subst.
    now rewrite (enablement_view_cache _ _ (race_settles_enablement_view _ _ _)).
  - destruct (can_end audio st); inversion S; subst.
    now rewrite (enablement_view_cache _ _ (on_ended_enablement_view _ _)).
  - destruct (timer_due call st); inversion S; subst.
    now rewrite (enablement_view_cache _ _ (playSound_resume_enablement_view _ _ _)).
  - destruct (may_elapse ms st); inversion S; subst. exact G.
  - inversion S; subst. exact G.
  - inversion S; subst. exact G.
Qed.

Lemma cache_entry_run cue r evs st st' :
  Js.map_get AudioCue.eq_dec cue (isEnabledCache st) = Some r ->
  run evs st = Some st' ->
  Js.map_get AudioCue.eq_dec cue (isEnabledCache st') = Some r.
Proof.
  revert st. induction evs as [|ev evs IH]; intros st G H; simpl in H.
  - inversion H; subst; assumption.
  - destruct (step ev st) as [st1|] eqn:S; [|discriminate].
    eapply IH; [|exact H]. eapply cache_entry_step; eauto.
Qed.

Lemma factory_calls_cached cue r st :
  enablement_wf st ->
  Js.map_get AudioCue.eq_dec cue (isEnabledCache st) = Some r ->
  factory_calls cue st = 1.
Proof.
  intros (_ & _ & _ & Hf) G. rewrite Hf. unfold Js.map_has. now rewrite G.
Qed.

(** A change of the setting of one cue does not pass the event filters of
    the observables another cue's derivation reads. *)
Lemma unrelated_change_keeps_derived cue other v d :
  other <> cue ->
  derived_cue d = cue ->
  (forall o, In o (derived_deps d) ->
     o = settingObservable cue \/ o = screenReaderAttached \/ o = obsoleteAudioCuesEnabled) ->
  invalidate (passes_filter [(AudioCue.settingsKey other, v)]) d = d.
Proof.
  intros N Hc Hd. unfold invalidate.
  destruct (existsb (passes_filter [(AudioCue.settingsKey other, v)]) (derived_deps d)) eqn:E;
    [|reflexivity].
  apply existsb_exists in E. destruct E as (o & Ho & P).
  destruct (Hd o Ho) as [-> | [-> | ->]]; unfold passes_filter in P; simpl in P.
  - rewrite orb_false_r in P. apply settingsKey_injective in P. contradiction.
  - discriminate.
  - rewrite settingsKey_not_legacy in P. discriminate.
Qed.

End CacheFacts.

(** C1: for every cue and every combination of per-cue setting, legacy
    setting (each on, off or auto) and screen-reader state, [isEnabled(cue)]
    yields true exactly when the per-cue setting is on, or is auto with a
    screen reader attached, or the legacy setting is on, or is auto with a
    screen reader attached.  This holds in every reachable state, so the
    value always reflects the current settings and the current screen-reader
    state; the legacy setting is read only when the per-cue tier is false. *)
Theorem isEnabled_matches_formula
  (cue : AudioCue.t) (perCue legacy : Setting) (st : Service)
  (R : reachable st)
  (HperCue : getValue (configurationService st) (AudioCue.settingsKey cue)
             = setting_value perCue)
  (Hlegacy : getValue (configurationService st) "audioCues.enabled"
             = setting_value legacy) :
  let screenReader := isScreenReaderOptimized (accessibilityService st) in
  fst (isEnabled_get cue st) = enabled_formula perCue legacy screenReader
  /\ audio_cue_enabled cue (world st)
     = (enabled_formula perCue legacy screenReader,
        expected_reads cue perCue legacy screenReader)
  /\ (In obsoleteAudioCuesEnabled (expected_reads cue perCue legacy screenReader)
      <-> tier_enabled perCue screenReader = false)
  /\ (enabled_formula perCue legacy screenReader = true
      <-> (perCue = On \/ (perCue = Auto /\ screenReader = true))
          \/ (legacy = On \/ (legacy = Auto /\ screenReader = true))).
Proof.
  intros screenReader.
  assert (C : audio_cue_enabled cue (world st)
              = (enabled_formula perCue legacy screenReader,
                 expected_reads cue perCue legacy screenReader))
    by (apply audio_cue_enabled_spec; assumption).
  split; [|split; [exact C|split]].
  - rewrite isEnabled_get_value by (apply reachable_enablement_wf; assumption).
    now rewrite C.
  - unfold expected_reads.
    destruct perCue, legacy, screenReader; simpl; split; intros H;
      try reflexivity; try discriminate; auto;
      repeat (destruct H as [H|H]; try discriminate); try contradiction.
  - unfold enabled_formula.
    destruct perCue, legacy, screenReader; simpl; split; intros H;
      try reflexivity; try discriminate; auto;
      repeat match goal with
             | H : _ \/ _ |- _ => destruct H
             | H : _ /\ _ |- _ => destruct H
             end; try discriminate; auto.
Qed.

Lemma isEnabled_matches_formula_witness :
  fst (isEnabled_get AudioCue.error example_service) = true.
Proof.
  exact (proj1 (isEnabled_matches_formula AudioCue.error Auto Off example_service
                  (reachable_initial _ _) eq_refl eq_refl)).
Defined.

(** C5: calling [isEnabled(cue)] twice returns the same derived observable:
    the second call finds the stored reference and changes nothing, the
    factory has run exactly once for the cue and never runs again for it in
    any continuation, the entry is never evicted, references of different
    cues differ, and a change of another cue's setting leaves both the entry
    and the derived observable of the cue, memoized value included, as they
    were. *)
Theorem isEnabled_is_memoized (cue : AudioCue.t) (st : Service) (R : reachable st) :
  let r1 := fst (isEnabled cue st) in
  let st1 := snd (isEnabled cue st) in
  isEnabled cue st1 = (r1, st1)
  /\ factory_calls cue st1 = 1
  /\ (exists d, nth_error (deriveds st1) r1 = Some d /\ derived_cue d = cue)
  /\ (forall evs st2, run evs st1 = Some st2 ->
        isEnabled cue st2 = (r1, st2) /\ factory_calls cue st2 = 1)
  /\ (forall other, other <> cue -> fst (isEnabled other st1) <> r1)
  /\ (forall other v, other <> cue ->
        let st2 := onDidChangeConfiguration [(AudioCue.settingsKey other, v)] st1 in
        Js.map_get AudioCue.eq_dec cue (isEnabledCache st2) = Some r1
        /\ nth_error (deriveds st2) r1 = nth_error (deriveds st1) r1).
Proof.
  intros r1 st1.
  assert (R1 : reachable st1)
    by (apply (reachable_step st (Call_isEnabled cue)); [assumption|reflexivity]).
  pose proof (reachable_enablement_wf _ R1) as W1.
  pose proof (isEnabled_cached cue st) as G. fold r1 st1 in G.
  pose proof W1 as (Hm & Hd & Hc & Hf).
  destruct (Hc _ _ G) as (d & Hn & Hcue).
  repeat split.
  - now apply isEnabled_hit.
  - eapply factory_calls_cached; eauto.
  - eauto.
  - apply isEnabled_hit. eapply cache_entry_run; eauto.
  - eapply factory_calls_cached.
    + apply reachable_enablement_wf. eapply run_reachable; eauto.
    + eapply cache_entry_run; eauto.
  - intros other N E.
    pose proof (enablement_wf_isEnabled other st1 W1) as (_ & _ & Hc2 & _).
    pose proof (isEnabled_cached other st1) as G2. rewrite E in G2.
    pose proof (cache_entry_isEnabled cue r1 other st1 G) as G3.
    destruct (Hc2 _ _ G2) as (d2 & Hn2 & Hcue2).
    destruct (Hc2 _ _ G3) as (d3 & Hn3 & Hcue3).
    congruence.
  - exact G.
  - simpl. rewrite nth_error_map, Hn. simpl. f_equal.
    apply unrelated_change_keeps_derived with (cue := cue); auto.
    intros o Ho. rewrite <- Hcue. eapply Hd; eauto.
Qed.

Lemma isEnabled_is_memoized_witness :
  isEnabled AudioCue.error (snd (isEnabled AudioCue.error example_service))
  = (0, snd (isEnabled AudioCue.error example_service)).
Proof.
  exact (proj1 (isEnabled_is_memoized AudioCue.error example_service
                  (reachable_initial _ _))).
Defined.

Section PlaySoundShape.

Lemma playSound_blocked sound allow st :
  negb allow && Js.set_has Sound.eq_dec sound (playingSounds st) = true ->
  playSound sound allow st =
    new_call {| call_sound := sound; call_audio := None; call_timer := None;
                call_state := Settled Normal |} st.
Proof. intros H. unfold playSound. now rewrite H. Qed.

(** A call that passes the guard registers the sound and leaves one element
    and one activation. *)
Lemma playSound_passed sound allow st :
  negb allow && Js.set_has Sound.eq_dec sound (playingSounds st) = false ->
  playSound sound allow st =
    (List.length (calls st),
     set_calls
       (calls st ++
          [new_activation sound (List.length (audios st)) (now st)
             (audioVolume (configurationService st))])
       (set_audios
          (audios st ++ [new_element sound (audioVolume (configurationService st))])
          (set_playingSounds
             (Js.set_add Sound.eq_dec sound (playingSounds st)) st))).
Proof.
  intros H. unfold playSound, new_element, new_activation, audioVolume.
  rewrite H. simpl.
  destruct (volume_accepted _); reflexivity.
Qed.

Lemma playSound_started sound allow st :
  negb allow && Js.set_has Sound.eq_dec sound (playingSounds st) = false ->
  volume_accepted (audioVolume (configurationService st)) = true ->
  playSound sound allow st =
    (List.length (calls st),
     set_calls
       (calls st ++
          [{| call_sound := sound; call_audio := Some (List.length (audios st));
              call_timer := Some (now st + playTimeout);
              call_state := Suspended |}])
       (set_audios
          (audios st ++
             [{| audio_src := media_url sound;
                 audio_volume := audioVolume (configurationService st);
                 audio_onended := Some sound;
                 audio_play := Pending;
                 audio_ended := false;
                 audio_removed := false |}])
          (set_playingSounds
             (Js.set_add Sound.eq_dec sound (playingSounds st)) st))).
Proof.
  intros H V. rewrite (playSound_passed _ _ _ H).
  unfold new_element, new_activation. now rewrite V.
Qed.

Lemma playSound_refused sound allow st :
  negb allow && Js.set_has Sound.eq_dec sound (playingSounds st) = false ->
  volume_accepted (audioVolume (configurationService st)) = false ->
  playSound sound allow st =
    (List.length (calls st),
     set_calls
       (calls st ++
          [{| call_sound := sound; call_audio := Some (List.length (audios st));
              call_timer := None;
              call_state :=
                Settled (Throw (volume_setter_error
                                  (audioVolume (configurationService st)))) |}])
       (set_audios
          (audios st ++
             [{| audio_src := media_url sound;
                 audio_volume := default_volume;
                 audio_onended := None;
                 audio_play := NotCalled;
                 audio_ended := false;
                 audio_removed := false |}])
          (set_playingSounds
             (Js.set_add Sound.eq_dec sound (playingSounds st)) st))).
Proof.
  intros H V. rewrite (playSound_passed _ _ _ H).
  unfold new_element, new_activation. now rewrite V.
Qed.

End PlaySoundShape.

(** ** The playback state *)

Section SetFacts.
Variable T : Type.
Variable dec : forall x y : T, {x = y} + {x <> y}.

Lemma set_has_In (x : T) (s : Js.JSet T) : Js.set_has dec x s = true <-> In x s.
Proof. unfold Js.set_has. destruct (in_dec dec x s); split; auto; discriminate. Qed.

Lemma set_has_not_In (x : T) (s : Js.JSet T) : Js.set_has dec x s = false <-> ~ In x s.
Proof.
  unfold Js.set_has. destruct (in_dec dec x s); split; auto; try discriminate.
  contradiction.
Qed.

Lemma set_add_In (x y : T) (s : Js.JSet T) :
  In y (Js.set_add dec x s) <-> y = x \/ In y s.
Proof.
  unfold Js.set_add. destruct (Js.set_has dec x s) eqn:H.
  - apply set_has_In in H. split; [auto|]. intros [->|]; auto.
  - rewrite in_app_iff. simpl. intuition.
Qed.

Lemma set_add_NoDup (x : T) (s : Js.JSet T) : NoDup s -> NoDup (Js.set_add dec x s).
Proof.
  intros N. unfold Js.set_add. destruct (Js.set_has dec x s) eqn:H; [assumption|].
  apply set_has_not_In in H.
  apply NoDup_app; [assumption|repeat constructor; auto|].
  intros y Hy [<-|[]]. contradiction.
Qed.

Lemma set_add_member (x : T) (s : Js.JSet T) :
  Js.set_has dec x s = true -> Js.set_add dec x s = s.
Proof. intros H. unfold Js.set_add. now rewrite H. Qed.

Lemma set_delete_In (x y : T) (s : Js.JSet T) :
  In y (Js.set_delete dec x s) <-> y <> x /\ In y s.
Proof.
  unfold Js.set_delete. rewrite filter_In.
  destruct (dec x y); intuition congruence.
Qed.

Lemma set_delete_NoDup (x : T) (s : Js.JSet T) : NoDup s -> NoDup (Js.set_delete dec x s).
Proof. apply NoDup_filter. Qed.

Lemma set_of_list_spec (l : list T) :
  NoDup (Js.set_of_list dec l) /\ forall x, In x (Js.set_of_list dec l) <-> In x l.
Proof.
  unfold Js.set_of_list.
  assert (G : forall acc, NoDup acc ->
            NoDup (fold_left (fun s x => Js.set_add dec x s) l acc)
            /\ forall x, In x (fold_left (fun s x => Js.set_add dec x s) l acc)
                         <-> In x acc \/ In x l).
  { induction l as [|a l IH]; intros acc N; simpl.
    - split; [assumption|]. intuition.
    - destruct (IH (Js.set_add dec a acc) (set_add_NoDup a acc N)) as (N' & I').
      split; [assumption|]. intros x. rewrite I', set_add_In. intuition. }
  destruct (G [] (NoDup_nil T)) as (N & I). split; [assumption|].
  intros x. rewrite I. simpl. intuition.
Qed.

Lemma NoDup_count_occ_one (x : T) (s : list T) :
  NoDup s -> In x s -> count_occ dec s x = 1.
Proof.
  intros N I. pose proof (proj1 (NoDup_count_occ dec s) N x) as L.
  pose proof (proj1 (count_occ_In dec s x) I). lia.
Qed.

End SetFacts.

Section SnocFacts.

Lemma nth_error_snoc_inv {A : Type} (l : list A) (x y : A) (n : nat) :
  nth_error (l ++ [x]) n = Some y ->
  (n < List.length l /\ nth_error l n = Some y) \/ (n = List.length l /\ y = x).
Proof.
  intros H. destruct (Nat.lt_ge_cases n (List.length l)) as [L|L].
  - left. rewrite nth_error_app1 in H by assumption. auto.
  - right. rewrite nth_error_app2 in H by assumption.
    destruct (n - List.length l) as [|k] eqn:E; simpl in H.
    + inversion H. split; [lia|reflexivity].
    + destruct k; discriminate.
Qed.

Lemma nth_error_snoc_old {A : Type} (l : list A) (x y : A) (n : nat) :
  nth_error l n = Some y -> nth_error (l ++ [x]) n = Some y.
Proof.
  intros H. rewrite nth_error_app1; [assumption|]. apply nth_error_Some. congruence.
Qed.

Lemma nth_error_snoc_new {A : Type} (l : list A) (x : A) :
  nth_error (l ++ [x]) (List.length l) = Some x.
Proof. rewrite nth_error_app2 by lia. now rewrite Nat.sub_diag. Qed.

End SnocFacts.



(** Against C9 as stated: with a NaN volume the element that [playSound]
    creates keeps its default volume and [play()] is not called on it. *)
Lemma nan_volume_is_not_set : ~ nan_volume_reaches_playback.
Proof.
  intros H. destruct (H nan_service Sound.error eq_refl) as (x & E & V & P).
  vm_compute in E. inversion E; subst x. discriminate.
Qed.

(** C9, amended: when the configured volume is the number NaN,
    [getVolumeInPercent] passes the type check and returns NaN, and NaN is
    what [playSound] hands to the setter of the volume; the setter refuses
    it with a [TypeError], so that the volume of the element is neither
    NaN, nor the default of 50 percent, nor a clamped value: it stays what
    it was when the element was created, and [play()] is not called. *)
Theorem volume_nan_is_refused (cfg : IConfigurationService)
  (H : getValue cfg "audioCues.volume" = Js.Number nan) :
  Js.typeof (getValue cfg "audioCues.volume") = "number"
  /\ getVolumeInPercent cfg = nan
  /\ clamp nan 0 100 = nan
  /\ audioVolume cfg = nan
  /\ audioVolume cfg <> (50 / 100)%float
  /\ volume_accepted (audioVolume cfg) = false
  /\ volume_setter_error (audioVolume cfg) = Js.MkError "TypeError"
  /\ (forall st sound allow,
        configurationService st = cfg ->
        negb allow && Js.set_has Sound.eq_dec sound (playingSounds st) = false ->
        exists x,
          audios (snd (playSound sound allow st)) = audios st ++ [x]
          /\ audio_volume x = default_volume
          /\ audio_play x = NotCalled).
Proof.
  assert (V : getVolumeInPercent cfg = nan)
    by (unfold getVolumeInPercent; rewrite H; reflexivity).
  assert (A : audioVolume cfg = nan)
    by (unfold audioVolume; rewrite V; reflexivity).
  rewrite H, V, A. repeat split.
  - intros E. apply (f_equal is_nan) in E. vm_compute in E. discriminate.
  - intros st sound allow Hc G.
    rewrite (playSound_refused _ _ _ G) by (rewrite Hc, A; reflexivity).
    simpl. eexists. split; [reflexivity|]. split; reflexivity.
Qed.

Lemma volume_nan_is_refused_witness :
  exists x,
    audios (snd (playSound Sound.error false nan_service)) = [] ++ [x]
    /\ audio_volume x = default_volume
    /\ audio_play x = NotCalled.
Proof.
  exact (proj2 (proj2 (proj2 (proj2 (proj2 (proj2 (proj2
           (volume_nan_is_refused nan_configuration eq_refl)))))))
           nan_service Sound.error false eq_refl eq_refl).
Defined.

Section PlaybackStart.

Lemma playback_wf_ext st st' :
  playback_view st' = playback_view st -> playback_wf st -> playback_wf st'.
Proof.
  unfold playback_view. intros E. inversion E as [[E1 E2 E3 E4 E5]].
  unfold playback_wf, calls_ok, call_ok, audios_owned, registry_backed.
  rewrite E1, E2, E3, E5. auto.
Qed.

Lemma playback_wf_initial cfg acc : playback_wf (initial cfg acc).
Proof.
  split; [apply NoDup_nil|split; [|split; [split|]]]; try red; simpl; intros.
  - destruct c; discriminate.
  - destruct c; discriminate.
  - destruct c; discriminate.
  - contradiction.
Qed.

Lemma call_ok_mono st st' x :
  now st' = now st ->
  (forall a y, nth_error (audios st) a = Some y ->
               exists y', nth_error (audios st') a = Some y'
                          /\ (audio_play y = Pending -> audio_play y' = Pending)
                          /\ (audio_play y = NotCalled -> audio_play y' = NotCalled)
                          /\ audio_onended y' = audio_onended y) ->
  call_ok st x -> call_ok st' x.
Proof.
  intros En Ha. unfold call_ok. destruct (call_state x) as [|[|e]]; [|auto|].
  - intros (a & y & d & H1 & H2 & H3 & H4 & H5).
    destruct (Ha _ _ H4) as (y' & H4' & H5' & _).
    exists a, y', d. rewrite En. repeat split; auto.
  - intros (T & a & y & H1 & H2 & H3 & H4).
    destruct (Ha _ _ H2) as (y' & H2' & _ & H3' & H4').
    split; [assumption|]. exists a, y'. rewrite H4'. repeat split; auto.
Qed.

Lemma call_ok_snoc st st' x z :
  now st' = now st -> audios st' = audios st ++ [z] ->
  call_ok st x -> call_ok st' x.
Proof.
  intros En Ea. apply call_ok_mono; [assumption|].
  intros a y Hn. exists y. rewrite Ea.
  split; [now apply nth_error_snoc_old|auto].
Qed.

Lemma call_ok_new_activation st sound volume z :
  call_ok
    (set_audios (audios st ++ [new_element sound volume]) z)
    (new_activation sound (List.length (audios st)) (now z) volume).
Proof.
  unfold call_ok, new_activation, new_element.
  destruct (volume_accepted volume); simpl.
  - do 3 eexists. repeat split; [|apply nth_error_snoc_new|reflexivity].
    unfold playTimeout. lia.
  - split; [reflexivity|]. do 2 eexists.
    repeat split; [apply nth_error_snoc_new|reflexivity|reflexivity].
Qed.

Lemma new_activation_audio sound a time volume :
  call_audio (new_activation sound a time volume) = Some a.
Proof. unfold new_activation. now destruct (volume_accepted volume). Qed.

Lemma new_activation_sound sound a time volume :
  call_sound (new_activation sound a time volume) = sound.
Proof. unfold new_activation. now destruct (volume_accepted volume). Qed.

Lemma new_element_src sound volume :
  audio_src (new_element sound volume) = media_url sound.
Proof. unfold new_element. now destruct (volume_accepted volume). Qed.

Lemma new_element_fresh sound volume :
  audio_ended (new_element sound volume) = false
  /\ audio_removed (new_element sound volume) = false.
Proof. unfold new_element. now destruct (volume_accepted volume). Qed.

Lemma new_element_listener sound volume :
  audio_onended (new_element sound volume) = Some sound
  \/ (audio_onended (new_element sound volume) = None
      /\ audio_play (new_element sound volume) = NotCalled).
Proof. unfold new_element. destruct (volume_accepted volume); simpl; auto. Qed.

Lemma playback_wf_playSound sound allow st :
  playback_wf st -> playback_wf (snd (playSound sound allow st)).
Proof.
  intros (N & Hc & (Ho1 & Ho2) & Hr).
  destruct (negb allow && Js.set_has Sound.eq_dec sound (playingSounds st)) eqn:G.
  - rewrite (playSound_blocked _ _ _ G). simpl.
    split; [exact N|split; [|split; [split|]]]; simpl.
    + intros c x Hn. apply nth_error_snoc_inv in Hn.
      destruct Hn as [(_ & Hn)|(_ & ->)].
      * apply (call_ok_mono st); eauto.
      * exact I.
    + intros c x a Hn Ha. apply nth_error_snoc_inv in Hn.
      destruct Hn as [(_ & Hn)|(_ & ->)]; [eauto|discriminate].
    + intros c c' x x' a Hn Hn' Ha Ha'.
      apply nth_error_snoc_inv in Hn, Hn'.
      destruct Hn as [(_ & Hn)|(_ & ->)]; [|discriminate].
      destruct Hn' as [(_ & Hn')|(_ & ->)]; [|discriminate].
      eauto.
    + exact Hr.
  - rewrite (playSound_passed _ _ _ G). simpl.
    split; [|split; [|split; [split|]]]; simpl.
    + now apply set_add_NoDup.
    + intros c x Hn. apply nth_error_snoc_inv in Hn.
      destruct Hn as [(_ & Hn)|(_ & ->)].
      * eapply (call_ok_snoc st); [reflexivity|reflexivity|]. eauto.
      * apply (call_ok_new_activation st sound _
                 (set_playingSounds
                    (Js.set_add Sound.eq_dec sound (playingSounds st)) st)).
    + intros c x a Hn Ha. rewrite length_app. simpl.
      apply nth_error_snoc_inv in Hn.
      destruct Hn as [(_ & Hn)|(_ & ->)].
      * specialize (Ho1 _ _ _ Hn Ha). lia.
      * rewrite new_activation_audio in Ha. inversion Ha. lia.
    + intros c c' x x' a Hn Hn' Ha Ha'.
      apply nth_error_snoc_inv in Hn, Hn'.
      destruct Hn as [(L & Hn)|(L & ->)], Hn' as [(L' & Hn')|(L' & ->)].
      * eauto.
      * rewrite new_activation_audio in Ha'. inversion Ha'; subst a.
        specialize (Ho1 _ _ _ Hn Ha). lia.
      * rewrite new_activation_audio in Ha. inversion Ha; subst a.
        specialize (Ho1 _ _ _ Hn' Ha'). lia.
      * congruence.
    + intros s Hs. apply set_add_In in Hs. destruct Hs as [->|Hs].
      * do 2 eexists. split; [apply nth_error_snoc_new|].
        split; [apply new_element_src|].
        split; [apply new_element_fresh|apply new_element_listener].
      * destruct (Hr _ Hs) as (a & y & Hn & H1).
        exists a, y. split; [now apply nth_error_snoc_old|auto].
Qed.

End PlaybackStart.
Section PlaybackModify.

Lemma nth_update_field {A B : Type} (g : A -> B) (f : A -> A) (l : list A) (i a : nat) :
  (forall x, g (f x) = g x) ->
  option_map g (nth_error (update_nth i f l) a) = option_map g (nth_error l a).
Proof.
  intros H. rewrite nth_error_update_nth.
  destruct (Nat.eqb i a); [|reflexivity].
  destruct (nth_error l a); simpl; [now rewrite H|reflexivity].
Qed.

Lemma option_map_Some {A B : Type} (g : A -> B) (o o' : option A) (y : A) :
  option_map g o' = option_map g o -> o = Some y ->
  exists y', o' = Some y' /\ g y' = g y.
Proof.
  intros E ->. destruct o' as [y'|]; simpl in E; [|discriminate].
  exists y'. split; congruence.
Qed.

(** A change of the state that keeps the registry, the clock, the source,
    the listener and the ended flag of every element and the element of
    every activation, that calls [play()] on no element, that leaves
    suspended only activations that were suspended, with their promises
    still pending, and that rejects no activation. *)
Lemma playback_wf_modify st st' :
  playback_wf st ->
  playingSounds st' = playingSounds st ->
  now st' = now st ->
  (forall a, option_map audio_src (nth_error (audios st') a)
             = option_map audio_src (nth_error (audios st) a)) ->
  (forall a, option_map audio_onended (nth_error (audios st') a)
             = option_map audio_onended (nth_error (audios st) a)) ->
  (forall a, option_map audio_ended (nth_error (audios st') a)
             = option_map audio_ended (nth_error (audios st) a)) ->
  (forall a y y', nth_error (audios st) a = Some y ->
                  nth_error (audios st') a = Some y' ->
                  audio_play y = NotCalled -> audio_play y' = NotCalled) ->
  map call_audio (calls st') = map call_audio (calls st) ->
  (forall c x', nth_error (calls st') c = Some x' -> call_state x' = Suspended ->
     exists x, nth_error (calls st) c = Some x /\ call_state x = Suspended
               /\ call_timer x' = call_timer x
               /\ forall a y, call_audio x = Some a ->
                    nth_error (audios st) a = Some y -> audio_play y = Pending ->
                    exists y', nth_error (audios st') a = Some y'
                               /\ audio_play y' = Pending) ->
  (forall c x' e, nth_error (calls st') c = Some x' ->
                  call_state x' = Settled (Throw e) ->
     exists x, nth_error (calls st) c = Some x
               /\ call_state x = Settled (Throw e)
               /\ call_timer x' = call_timer x) ->
  playback_wf st'.
Proof.
  intros (N & Hc & (Ho1 & Ho2) & Hr) Ep En Es Eo Ee Enc Ea Hs Hn.
  assert (Len : List.length (audios st') = List.length (audios st)).
  { apply Nat.le_antisymm.
    - destruct (Nat.le_gt_cases (List.length (audios st')) (List.length (audios st)))
        as [L|L]; [assumption|].
      pose proof (Eo (List.length (audios st))) as E.
      rewrite (proj2 (nth_error_None (audios st) _)) in E by lia.
      destruct (nth_error (audios st') (List.length (audios st))) eqn:F;
        [discriminate|]. apply nth_error_None in F. lia.
    - destruct (Nat.le_gt_cases (List.length (audios st)) (List.length (audios st')))
        as [L|L]; [assumption|].
      pose proof (Eo (List.length (audios st'))) as E.
      rewrite (proj2 (nth_error_None (audios st') _)) in E by lia.
      destruct (nth_error (audios st) (List.length (audios st'))) eqn:F;
        [discriminate|]. apply nth_error_None in F. lia. }
  assert (Back : forall c x', nth_error (calls st') c = Some x' ->
            exists x, nth_error (calls st) c = Some x /\ call_audio x = call_audio x').
  { intros c x' H.
    assert (M : nth_error (map call_audio (calls st')) c = Some (call_audio x'))
      by (rewrite nth_error_map, H; reflexivity).
    rewrite Ea, nth_error_map in M.
    destruct (nth_error (calls st) c) as [x|]; [|discriminate].
    simpl in M. inversion M. eauto. }
  split; [now rewrite Ep|split; [|split; [split|]]].
  - intros c x' H. red. destruct (call_state x') as [|[|e]] eqn:S.
    + destruct (Hs _ _ H S) as (x & Hx & Sx & Tx & Px).
      pose proof (Hc _ _ Hx) as Ok. red in Ok. rewrite Sx in Ok.
      destruct Ok as (a & y & d & H1 & H2 & H3 & H4 & H5).
      destruct (Px _ _ H1 H4 H5) as (y' & H4' & H5').
      destruct (Back _ _ H) as (x0 & Hx0 & A0).
      assert (x0 = x) by congruence. subst x0.
      exists a, y', d. rewrite En. repeat split; auto; congruence.
    + exact I.
    + destruct (Hn _ _ _ H S) as (x & Hx & Sx & Tx).
      pose proof (Hc _ _ Hx) as Ok. red in Ok. rewrite Sx in Ok.
      destruct Ok as (T & a & y & H1 & H2 & H3 & H4).
      destruct (Back _ _ H) as (x0 & Hx0 & A0).
      assert (x0 = x) by congruence. subst x0.
      destruct (option_map_Some audio_onended _ _ y (Eo a) H2) as (y' & Hy' & O').
      split; [congruence|]. exists a, y'.
      repeat split; [congruence|assumption|eauto|congruence].
  - intros c x' a H A. destruct (Back _ _ H) as (x & Hx & Ax).
    rewrite Len. apply (Ho1 c x a Hx). congruence.
  - intros c c' x1 x2 a H1 H2 A1 A2.
    destruct (Back _ _ H1) as (y1 & Hy1 & B1).
    destruct (Back _ _ H2) as (y2 & Hy2 & B2).
    apply (Ho2 c c' y1 y2 a Hy1 Hy2); congruence.
  - intros s Hin. rewrite Ep in Hin.
    destruct (Hr _ Hin) as (a & y & Hy & Src & E & D).
    destruct (option_map_Some audio_onended _ _ y (Eo a) Hy) as (y' & Hy' & O').
    destruct (option_map_Some audio_ended _ _ y (Ee a) Hy) as (y'' & Hy'' & E').
    destruct (option_map_Some audio_src _ _ y (Es a) Hy) as (y3 & Hy3 & S').
    assert (y'' = y') by congruence. subst y''.
    assert (y3 = y') by congruence. subst y3.
    exists a, y'. split; [assumption|]. split; [congruence|]. split; [congruence|].
    destruct D as [D|(D1 & D2)]; [left; congruence|right].
    split; [congruence|eauto].
Qed.

End PlaybackModify.
Section Resume.

Lemma playSound_resume_playingSounds c r st :
  playingSounds (playSound_resume c r st) = playingSounds st.
Proof.
  unfold playSound_resume. destruct r; simpl;
    (destruct (nth_error (calls st) c) as [x|]; [destruct (call_audio x)|]);
    reflexivity.
Qed.

Lemma playSound_resume_now c r st : now (playSound_resume c r st) = now st.
Proof.
  unfold playSound_resume. destruct r; simpl;
    (destruct (nth_error (calls st) c) as [x|]; [destruct (call_audio x)|]);
    reflexivity.
Qed.

Lemma playSound_resume_calls c r st :
  calls (playSound_resume c r st) = update_nth c (mark_settled Normal) (calls st).
Proof.
  unfold playSound_resume. destruct r; simpl;
    (destruct (nth_error (calls st) c) as [x|]; [destruct (call_audio x)|]);
    reflexivity.
Qed.

Lemma playSound_resume_audios c r st :
  audios (playSound_resume c r st) = remove_at (audio_of_call st c) (audios st).
Proof.
  unfold playSound_resume, audio_of_call. destruct r; simpl;
    (destruct (nth_error (calls st) c) as [x|]; [destruct (call_audio x)|]);
    reflexivity.
Qed.

Lemma playSound_resume_console c r st :
  console (playSound_resume c r st)
  = match r with
    | Normal => console st
    | Throw e => console st ++ [("Error while playing sound", e)]
    end.
Proof.
  unfold playSound_resume. destruct r; simpl;
    (destruct (nth_error (calls st) c) as [x|]; [destruct (call_audio x)|]);
    reflexivity.
Qed.

Lemma nth_remove_at_field {B : Type} (g : Audio -> B) o l a :
  (forall x, g (mark_removed x) = g x) ->
  option_map g (nth_error (remove_at o l) a) = option_map g (nth_error l a).
Proof.
  intros H. destruct o; simpl; [|reflexivity]. now apply nth_update_field.
Qed.

Lemma nth_remove_at_pending o l a y :
  nth_error l a = Some y -> audio_play y = Pending ->
  exists y', nth_error (remove_at o l) a = Some y' /\ audio_play y' = Pending.
Proof.
  intros Hy Hp.
  destruct (option_map_Some audio_play _ _ y
              (nth_remove_at_field audio_play o l a (fun _ => eq_refl)) Hy)
    as (y' & Hy' & P).
  exists y'. split; congruence.
Qed.

Lemma nth_remove_at_play o l a y y' :
  nth_error l a = Some y -> nth_error (remove_at o l) a = Some y' ->
  audio_play y' = audio_play y.
Proof.
  intros Hy Hy'.
  pose proof (nth_remove_at_field audio_play o l a (fun _ => eq_refl)) as E.
  rewrite Hy, Hy' in E. simpl in E. congruence.
Qed.

Lemma playback_wf_resume c r st :
  playback_wf st -> playback_wf (playSound_resume c r st).
Proof.
  intros W. apply (playback_wf_modify st); auto.
  - apply playSound_resume_playingSounds.
  - apply playSound_resume_now.
  - intros a. rewrite playSound_resume_audios. now apply nth_remove_at_field.
  - intros a. rewrite playSound_resume_audios. now apply nth_remove_at_field.
  - intros a. rewrite playSound_resume_audios. now apply nth_remove_at_field.
  - intros a y y' Hy Hy' P. rewrite playSound_resume_audios in Hy'.
    rewrite (nth_remove_at_play _ _ _ _ _ Hy Hy'). exact P.
  - rewrite playSound_resume_calls. now apply map_update_nth.
  - intros c' x' Hn Hs. rewrite playSound_resume_calls, nth_error_update_nth in Hn.
    destruct (Nat.eqb c c').
    + destruct (nth_error (calls st) c'); simpl in Hn; [|discriminate].
      inversion Hn; subst. discriminate.
    + exists x'. repeat split; auto.
      intros a y _ Hy Hp. rewrite playSound_resume_audios.
      now apply nth_remove_at_pending with (y := y).
  - intros c' x' e Hn Hs. rewrite playSound_resume_calls, nth_error_update_nth in Hn.
    destruct (Nat.eqb c c').
    + destruct (nth_error (calls st) c'); simpl in Hn; [|discriminate].
      inversion Hn; subst. discriminate.
    + exists x'. auto.
Qed.

Lemma find_awaiting_Some a l i c :
  find_awaiting a l i = Some c ->
  exists x, i <= c /\ nth_error l (c - i) = Some x
            /\ call_audio x = Some a /\ call_state x = Suspended.
Proof.
  revert i. induction l as [|x l IH]; intros i H; simpl in H; [discriminate|].
  assert (Rec : find_awaiting a l (S i) = Some c ->
                exists x0, i <= c /\ nth_error (x :: l) (c - i) = Some x0
                           /\ call_audio x0 = Some a /\ call_state x0 = Suspended).
  { intros H'. destruct (IH _ H') as (x0 & L & Hn & A & S0).
    exists x0. repeat split; auto; [lia|].
    replace (c - i) with (S (c - S i)) by lia. exact Hn. }
  destruct (call_audio x) as [a'|] eqn:A; [|auto].
  destruct (call_state x) eqn:S0; [|auto].
  destruct (Nat.eqb a a') eqn:E; [|auto].
  apply Nat.eqb_eq in E. subst a'. inversion H; subst c.
  exists x. rewrite Nat.sub_diag. simpl. auto.
Qed.

Lemma find_awaiting_None a l i :
  find_awaiting a l i = None ->
  forall n x, nth_error l n = Some x -> call_audio x = Some a ->
              call_state x <> Suspended.
Proof.
  revert i. induction l as [|x l IH]; intros i H n y Hn A S0; simpl in H.
  - destruct n; discriminate.
  - destruct n as [|n]; simpl in Hn.
    + inversion Hn; subst y. rewrite A, S0, Nat.eqb_refl in H. discriminate.
    + assert (find_awaiting a l (S i) = None).
      { destruct (call_audio x) as [a'|]; [|assumption].
        destruct (call_state x); [|assumption].
        destruct (Nat.eqb a a'); [discriminate|assumption]. }
      eapply IH; eauto.
Qed.

End Resume.

Section RaceAndEnd.

Lemma race_settles_cases a r st :
  (exists c x, find_awaiting a (calls st) 0 = Some c
               /\ nth_error (calls st) c = Some x
               /\ call_audio x = Some a /\ call_state x = Suspended
               /\ race_settles a r st = playSound_resume c r st)
  \/ (find_awaiting a (calls st) 0 = None /\ race_settles a r st = st).
Proof.
  unfold race_settles. destruct (find_awaiting a (calls st) 0) as [c|] eqn:F.
  - left. destruct (find_awaiting_Some _ _ _ _ F) as (x & _ & Hn & A & S0).
    rewrite Nat.sub_0_r in Hn. exists c, x. auto.
  - right. auto.
Qed.

Lemma play_pending_spec a st :
  play_pending a st = true ->
  exists y, nth_error (audios st) a = Some y /\ audio_play y = Pending.
Proof.
  unfold play_pending. destruct (nth_error (audios st) a) as [y|]; [|discriminate].
  destruct (audio_play y) eqn:P; try discriminate. eauto.
Qed.

Lemma playback_wf_race a p r st :
  play_pending a st = true ->
  playback_wf st -> playback_wf (race_settles a r (set_audio_play a p st)).
Proof.
  intros PP W. pose proof W as (N & Hc & (Ho1 & Ho2) & Hr).
  destruct (play_pending_spec _ _ PP) as (ya & Hya & Pa).
  set (st0 := set_audio_play a p st).
  assert (Other : forall c' x' a' y,
            nth_error (calls st) c' = Some x' -> call_audio x' = Some a' ->
            a' <> a -> nth_error (audios st) a' = Some y -> audio_play y = Pending ->
            forall o, exists y',
              nth_error (remove_at o (audios st0)) a' = Some y'
              /\ audio_play y' = Pending).
  { intros c' x' a' y _ _ Na Hy Hp o.
    apply nth_remove_at_pending with (y := y); [|assumption].
    simpl. rewrite nth_error_update_nth.
    destruct (Nat.eqb a a') eqn:E; [|assumption].
    apply Nat.eqb_eq in E. congruence. }
  assert (Idle : forall a' y y' o,
            nth_error (audios st) a' = Some y ->
            nth_error (remove_at o (audios st0)) a' = Some y' ->
            audio_play y = NotCalled -> audio_play y' = NotCalled).
  { intros a' y y' o Hy Hy' P.
    assert (Q : nth_error (audios st0) a' = Some y).
    { simpl. rewrite nth_error_update_nth.
      destruct (Nat.eqb a a') eqn:E; [|assumption].
      apply Nat.eqb_eq in E. subst a'. congruence. }
    rewrite (nth_remove_at_play _ _ _ _ _ Q Hy'). exact P. }
  destruct (race_settles_cases a r st0) as
    [(c & x & F & Hn & A & S0 & ->)|(F & ->)].
  - apply (playback_wf_modify st); auto.
    + now rewrite playSound_resume_playingSounds.
    + now rewrite playSound_resume_now.
    + intros i. rewrite playSound_resume_audios, nth_remove_at_field by reflexivity.
      simpl. now apply nth_update_field.
    + intros i. rewrite playSound_resume_audios, nth_remove_at_field by reflexivity.
      simpl. now apply nth_update_field.
    + intros i. rewrite playSound_resume_audios, nth_remove_at_field by reflexivity.
      simpl. now apply nth_update_field.
    + intros a' y y' Hy Hy' P. rewrite playSound_resume_audios in Hy'.
      exact (Idle _ _ _ _ Hy Hy' P).
    + rewrite playSound_resume_calls. now apply map_update_nth.
    + intros c' x' Hn' Hs'.
      rewrite playSound_resume_calls, nth_error_update_nth in Hn'.
      destruct (Nat.eqb c c') eqn:E.
      * destruct (nth_error (calls st0) c'); simpl in Hn'; [|discriminate].
        inversion Hn'; subst. discriminate.
      * exists x'. repeat split; auto.
        intros a' y A' Hy Hp. rewrite playSound_resume_audios.
        apply (Other c' x' a' y); auto.
        intros ->. apply Nat.eqb_neq in E. apply E.
        exact (Ho2 c c' x x' a Hn Hn' A A').
    + intros c' x' e Hn' Hs'.
      rewrite playSound_resume_calls, nth_error_update_nth in Hn'.
      destruct (Nat.eqb c c').
      * destruct (nth_error (calls st0) c'); simpl in Hn'; [|discriminate].
        inversion Hn'; subst. discriminate.
      * exists x'. auto.
  - apply (playback_wf_modify st); auto.
    + intros i. simpl. now apply nth_update_field.
    + intros i. simpl. now apply nth_update_field.
    + intros i. simpl. now apply nth_update_field.
    + intros a' y y' Hy Hy' P.
      exact (Idle a' y y' (@None nat) Hy Hy' P).
    + intros c' x' Hn' Hs'. exists x'. repeat split; auto.
      intros a' y A' Hy Hp.
      destruct (Other c' x' a' y Hn' A') with (o := @None nat) as (y' & Hy' & Hp');
        auto.
      * intros ->. exact (find_awaiting_None _ _ _ F _ _ Hn' A' Hs').
      * eauto.
    + intros c' x' e Hn' Hs'. exists x'. auto.
Qed.

Lemma can_end_spec a st :
  can_end a st = true ->
  exists y, nth_error (audios st) a = Some y
            /\ audio_play y = Fulfilled /\ audio_ended y = false.
Proof.
  unfold can_end. destruct (nth_error (audios st) a) as [y|]; [|discriminate].
  destruct (audio_play y) eqn:P; try discriminate.
  destruct (audio_ended y) eqn:E; [discriminate|]. intros _. eauto.
Qed.

Lemma ended_playingSounds a y st :
  nth_error (audios st) a = Some y ->
  playingSounds (on_ended a (set_audio_ended a st))
  = match audio_onended y with
    | Some sound => Js.set_delete Sound.eq_dec sound (playingSounds st)
    | None => playingSounds st
    end.
Proof.
  intros Hy. unfold on_ended. simpl.
  rewrite nth_error_update_nth, Nat.eqb_refl, Hy. simpl.
  destruct (audio_onended y); reflexivity.
Qed.

Lemma ended_playingSounds_listener a y sound st :
  nth_error (audios st) a = Some y -> audio_onended y = Some sound ->
  playingSounds (on_ended a (set_audio_ended a st))
  = Js.set_delete Sound.eq_dec sound (playingSounds st).
Proof. intros Hy O. rewrite (ended_playingSounds a y st Hy). now rewrite O. Qed.

Lemma ended_audios a st :
  audios (on_ended a (set_audio_ended a st)) = update_nth a mark_ended (audios st).
Proof.
  unfold on_ended. simpl.
  destruct (nth_error (update_nth a _ (audios st)) a) as [x|]; [|reflexivity].
  destruct (audio_onended x); reflexivity.
Qed.

Lemma ended_calls a st : calls (on_ended a (set_audio_ended a st)) = calls st.
Proof.
  unfold on_ended. simpl.
  destruct (nth_error (update_nth a _ (audios st)) a) as [x|]; [|reflexivity].
  destruct (audio_onended x); reflexivity.
Qed.

Lemma ended_now a st : now (on_ended a (set_audio_ended a st)) = now st.
Proof.
  unfold on_ended. simpl.
  destruct (nth_error (update_nth a _ (audios st)) a) as [x|]; [|reflexivity].
  destruct (audio_onended x); reflexivity.
Qed.

Lemma ended_console a st : console (on_ended a (set_audio_ended a st)) = console st.
Proof.
  unfold on_ended. simpl.
  destruct (nth_error (update_nth a _ (audios st)) a) as [x|]; [|reflexivity].
  destruct (audio_onended x); reflexivity.
Qed.

Lemma playback_wf_ended a st :
  can_end a st = true ->
  playback_wf st -> playback_wf (on_ended a (set_audio_ended a st)).
Proof.
  intros C (N & Hc & (Ho1 & Ho2) & Hr).
  destruct (can_end_spec _ _ C) as (y & Hy & Hp & He).
  split; [|split; [|split; [split|]]].
  - rewrite (ended_playingSounds _ _ _ Hy).
    destruct (audio_onended y); [now apply set_delete_NoDup|assumption].
  - intros c x Hn. rewrite ended_calls in Hn.
    apply (call_ok_mono st); [apply ended_now| |exact (Hc _ _ Hn)].
    intros a' y' Hy'. rewrite ended_audios, nth_error_update_nth.
    destruct (Nat.eqb a a'); rewrite Hy'; simpl; eexists;
      (split; [reflexivity|simpl; auto]).
  - intros c x a' Hn A. rewrite ended_calls in Hn.
    rewrite ended_audios, length_update_nth. eauto.
  - intros c c' x x' a' Hn Hn'. rewrite ended_calls in Hn, Hn'. eauto.
  - intros s Hs. rewrite (ended_playingSounds _ _ _ Hy) in Hs.
    assert (Hs' : In s (playingSounds st)
                  /\ audio_onended y <> Some s).
    { destruct (audio_onended y) as [s0|].
      - apply set_delete_In in Hs. destruct Hs as (Ns & Hs).
        split; [assumption|congruence].
      - split; [assumption|discriminate]. }
    destruct Hs' as (Hin & Ns).
    destruct (Hr _ Hin) as (a' & y' & Hy' & Src & E & D).
    exists a', y'. rewrite ended_audios, nth_error_update_nth.
    destruct (Nat.eqb a a') eqn:Q; [|auto].
    apply Nat.eqb_eq in Q. subst a'.
    assert (y' = y) by congruence. subst y'.
    destruct D as [D|(_ & D)]; congruence.
Qed.

Lemma playback_wf_elapse ms st :
  may_elapse ms st = true -> playback_wf st -> playback_wf (set_now (now st + ms) st).
Proof.
  intros M (N & Hc & Ho & Hr).
  split; [exact N|split; [|split; [exact Ho|exact Hr]]].
  intros c x Hn. simpl in Hn. specialize (Hc _ _ Hn). red in Hc |- *.
  destruct (call_state x) as [|[|e]] eqn:S0; [|exact Hc|exact Hc].
  destruct Hc as (a & y & d & H1 & H2 & H3 & H4 & H5).
  exists a, y, d. repeat split; auto. simpl.
  unfold may_elapse in M. rewrite forallb_forall in M.
  specialize (M x (nth_error_In _ _ Hn)). rewrite S0, H2 in M.
  now apply Nat.leb_le in M.
Qed.

End RaceAndEnd.

Section PlaybackReachable.

Lemma playback_wf_playSounds sounds st :
  playback_wf st -> playback_wf (snd (playSounds sounds st)).
Proof.
  revert st. induction sounds as [|s l IH]; intros st W; simpl; [assumption|].
  pose proof (playback_wf_playSound s false st W) as W1.
  destruct (playSound s false st) as [c st1]. simpl in W1.
  specialize (IH st1 W1). destruct (playSounds l st1) as [cs st2]. exact IH.
Qed.

Lemma playback_wf_step ev st st' :
  playback_wf st -> step ev st = Some st' -> playback_wf st'.
Proof.
  intros W S. destruct ev; simpl in S.
  - inversion S; subst. now apply playback_wf_playSound.
  - inversion S; subst. unfold playAudioCue.
    pose proof (isEnabled_get_playback_view cue st) as F.
    destruct (isEnabled_get cue st) as [b st1]. simpl in F.
    pose proof (playback_wf_ext _ _ F W) as W1.
    destruct b; [|exact W1].
    pose proof (playback_wf_playSound (AudioCue.sound cue) allowManyInParallel st1 W1) as W2.
    destruct (playSound (AudioCue.sound cue) allowManyInParallel st1). exact W2.
  - inversion S; subst. unfold playAudioCues.
    pose proof (filter_enabled_playback_view cues st) as F.
    destruct (filter_enabled cues st) as [en st1]. simpl in F.
    apply playback_wf_playSounds. exact (playback_wf_ext _ _ F W).
  - inversion S; subst.
    exact (playback_wf_ext _ _ (isEnabled_playback_view cue st) W).
  - inversion S; subst.
    exact (playback_wf_ext _ _ (observable_get_playback_view ref st) W).
  - destruct (play_pending audio st) eqn:P; inversion S; subst.
    now apply playback_wf_race.
  - destruct (play_pending audio st) eqn:P; inversion S; subst.
    now apply playback_wf_race.
  - destruct (can_end audio st) eqn:C; inversion S; subst. now apply playback_wf_ended.
  - destruct (timer_due call st); inversion S; subst. now apply playback_wf_resume.
  - destruct (may_elapse ms st) eqn:M; inversion S; subst. now apply playback_wf_elapse.
  - inversion S; subst. eapply playback_wf_ext; [|exact W]. reflexivity.
  - inversion S; subst. eapply playback_wf_ext; [|exact W]. reflexivity.
Qed.

Lemma reachable_playback_wf st : reachable st -> playback_wf st.
Proof.
  induction 1 as [cfg acc | st ev st' R IH S].
  - apply playback_wf_initial.
  - eapply playback_wf_step; eauto.
Qed.

End PlaybackReachable.

Section RegistryFacts.

Lemma set_has_delete_same (x : Sound.t) (s : Js.JSet Sound.t) :
  Js.set_has Sound.eq_dec x (Js.set_delete Sound.eq_dec x s) = false.
Proof.
  apply set_has_not_In. intros H. apply set_delete_In in H. destruct H. congruence.
Qed.

Lemma step_Ended_inv a st st' :
  step (Ended a) st = Some st' ->
  can_end a st = true /\ st' = on_ended a (set_audio_ended a st).
Proof. simpl. destruct (can_end a st); intros H; inversion H; auto. Qed.

Lemma step_TimerFired_inv c st st' :
  step (TimerFired c) st = Some st' ->
  timer_due c st = true /\ st' = playSound_resume c Normal st.
Proof. simpl. destruct (timer_due c st); intros H; inversion H; auto. Qed.

Lemma race_settles_playingSounds a r st :
  playingSounds (race_settles a r st) = playingSounds st.
Proof.
  unfold race_settles. destruct (find_awaiting a (calls st) 0); [|reflexivity].
  apply playSound_resume_playingSounds.
Qed.

End RegistryFacts.

(** C2: when [playSound(S)] is called without [allowManyInParallel] while S
    is in the registry, the call returns at once with a resolved promise:
    no element is created, nothing is logged, nothing but the record of the
    call changes, and the registry still holds S exactly once. *)
Theorem playSound_duplicate_is_noop (sound : Sound.t) (st : Service)
  (R : reachable st)
  (M : Js.set_has Sound.eq_dec sound (playingSounds st) = true) :
  let c := fst (playSound sound false st) in
  let st' := snd (playSound sound false st) in
  call_state_of st' c = Settled Normal
  /\ audios st' = audios st
  /\ playingSounds st' = playingSounds st
  /\ console st' = console st
  /\ now st' = now st
  /\ enablement_view st' = enablement_view st
  /\ calls st' = calls st ++ [{| call_sound := sound; call_audio := None;
                                 call_timer := None;
                                 call_state := Settled Normal |}]
  /\ count_occ Sound.eq_dec (playingSounds st') sound = 1.
Proof.
  intros c st'. subst c st'.
  rewrite (playSound_blocked sound false st) by (simpl; exact M).
  simpl. repeat split.
  - unfold call_state_of. simpl. now rewrite nth_error_snoc_new.
  - apply NoDup_count_occ_one.
    + apply (reachable_playback_wf _ R).
    + now apply set_has_In in M.
Qed.

Lemma playSound_duplicate_is_noop_witness :
  audios (snd (playSound Sound.error false
                 (snd (playSound Sound.error false example_service))))
  = audios (snd (playSound Sound.error false example_service)).
Proof.
  exact (proj1 (proj2 (playSound_duplicate_is_noop Sound.error
           (snd (playSound Sound.error false example_service))
           (reachable_step example_service (Call_playSound Sound.error false) _
              (reachable_initial _ _) eq_refl)
           eq_refl))).
Defined.

(** C10: the registry is a set, so when [playSound(S, true)] is called
    while S is playing the registry is unchanged and holds S once, although
    a second element is created for S, on which, when its volume is
    accepted, [play()] is called; the completion event of an earlier
    playback of S then removes the entry, and the registry no longer
    reports S although the second playback, when it was started, is still
    in flight. *)
Theorem concurrent_playback_shares_entry (sound : Sound.t) (st : Service)
  (R : reachable st)
  (M : Js.set_has Sound.eq_dec sound (playingSounds st) = true) :
  let st1 := snd (playSound sound true st) in
  playingSounds st1 = playingSounds st
  /\ count_occ Sound.eq_dec (playingSounds st1) sound = 1
  /\ (exists x, audios st1 = audios st ++ [x]
                /\ audio_src x = media_url sound
                /\ audio_ended x = false
                /\ (volume_accepted (audioVolume (configurationService st)) = true ->
                    audio_onended x = Some sound /\ audio_play x = Pending))
  /\ (forall a y st2,
        nth_error (audios st) a = Some y -> audio_onended y = Some sound ->
        step (Ended a) st1 = Some st2 ->
        Js.set_has Sound.eq_dec sound (playingSounds st2) = false
        /\ (volume_accepted (audioVolume (configurationService st)) = true ->
            playback_in_flight sound st2 = true)).
Proof.
  intros st1. subst st1.
  rewrite (playSound_passed sound true st) by reflexivity. simpl.
  rewrite (set_add_member _ Sound.eq_dec sound _ M).
  split; [reflexivity|split; [|split]].
  - apply NoDup_count_occ_one.
    + apply (reachable_playback_wf _ R).
    + now apply set_has_In in M.
  - eexists. split; [reflexivity|].
    split; [apply new_element_src|]. split; [apply new_element_fresh|].
    intros V. unfold new_element. rewrite V. simpl. auto.
  - intros a y st2 Hy Hs S.
    apply step_Ended_inv in S. destruct S as (C & ->).
    assert (La : a < List.length (audios st))
      by (apply nth_error_Some; congruence).
    split.
    + rewrite (ended_playingSounds_listener a y sound).
      * simpl. apply set_has_delete_same.
      * simpl. now apply nth_error_snoc_old.
      * exact Hs.
    + intros V. unfold playback_in_flight. rewrite ended_audios. simpl.
      apply existsb_exists. eexists. split.
      * apply (nth_error_In _ (List.length (audios st))).
        rewrite nth_error_update_nth.
        replace (Nat.eqb a (List.length (audios st))) with false
          by (symmetry; apply Nat.eqb_neq; lia).
        apply nth_error_snoc_new.
      * unfold new_element. rewrite V. simpl.
        destruct (Sound.eq_dec sound sound); [reflexivity|congruence].
Qed.

Lemma concurrent_playback_shares_entry_witness :
  playingSounds (snd (playSound Sound.error true
                        (snd (playSound Sound.error false example_service))))
  = playingSounds (snd (playSound Sound.error false example_service)).
Proof.
  exact (proj1 (concurrent_playback_shares_entry Sound.error
           (snd (playSound Sound.error false example_service))
           (reachable_step example_service (Call_playSound Sound.error false) _
              (reachable_initial _ _) eq_refl)
           eq_refl)).
Defined.

(** The state a trace leads to from the example service. *)
Lemma run_example_reachable evs st :
  run evs example_service = Some st -> reachable st.
Proof. apply run_reachable, reachable_initial. Qed.

(** Against C3 as stated: after two overlapping playbacks of a sound, the
    completion of the first leaves the registry without the sound while the
    second is in flight; and after the timeout cleanup of a stalled
    playback the sound is still in the registry. *)
Lemma registry_claim_fails :
  ~ registry_tracks_playbacks /\ ~ registry_released_on_cleanup.
Proof.
  split.
  - intros H.
    destruct (run overlapping_trace example_service) as [st|] eqn:E;
      [|vm_compute in E; discriminate].
    pose proof (H st Sound.error (run_example_reachable _ _ E)) as [_ B].
    vm_compute in E. inversion E; subst st. clear E.
    assert (F : false = true) by (apply B; reflexivity).
    discriminate.
  - intros H.
    destruct (run stalled_trace example_service) as [st|] eqn:E;
      [|vm_compute in E; discriminate].
    pose proof (H st Sound.error (run_example_reachable _ _ E)) as B.
    vm_compute in E. inversion E; subst st. clear E.
    assert (F : true = false).
    { apply B. intros x [<-|[]] _. right. reflexivity. }
    discriminate.
Qed.

(** C3, amended: in every execution the registry holds no sound twice; a
    sound in it has an element, created for its media file by a call of
    [playSound] that passed the guard, whose completion event has not
    fired; a call of [playSound] that passes the guard puts its sound in
    the registry at once and creates that element, before playback starts;
    the completion event of an element removes the sound of its listener;
    and neither the timeout of the race, nor the fulfilment of the promise
    of [play()], nor the passing of time touches the registry. *)
Theorem registry_follows_completion (st : Service) (R : reachable st) :
  NoDup (playingSounds st)
  /\ (forall sound,
        Js.set_has Sound.eq_dec sound (playingSounds st) = true ->
        exists a y, nth_error (audios st) a = Some y
                    /\ audio_src y = media_url sound
                    /\ audio_ended y = false
                    /\ (audio_onended y = Some sound
                        \/ (audio_onended y = None /\ audio_play y = NotCalled)))
  /\ (forall sound allow,
        negb allow && Js.set_has Sound.eq_dec sound (playingSounds st) = false ->
        let st' := snd (playSound sound allow st) in
        Js.set_has Sound.eq_dec sound (playingSounds st') = true
        /\ exists x, audios st' = audios st ++ [x]
                     /\ audio_src x = media_url sound
                     /\ audio_ended x = false
                     /\ (audio_play x = Pending \/ audio_play x = NotCalled)
                     /\ (volume_accepted (audioVolume (configurationService st))
                         = true ->
                         audio_onended x = Some sound /\ audio_play x = Pending))
  /\ (forall a y sound st',
        nth_error (audios st) a = Some y ->
        audio_onended y = Some sound ->
        step (Ended a) st = Some st' ->
        playingSounds st'
        = Js.set_delete Sound.eq_dec sound (playingSounds st)
        /\ Js.set_has Sound.eq_dec sound (playingSounds st') = false)
  /\ (forall c st', step (TimerFired c) st = Some st' ->
                    playingSounds st' = playingSounds st)
  /\ (forall a st', step (PlayFulfilled a) st = Some st' ->
                    playingSounds st' = playingSounds st)
  /\ (forall ms st', step (Elapse ms) st = Some st' ->
                     playingSounds st' = playingSounds st).
Proof.
  pose proof (reachable_playback_wf _ R) as (N & Hc & Ho & Hr).
  split; [exact N|split; [|split; [|split; [|split; [|split]]]]].
  - intros sound M. apply Hr. now apply set_has_In in M.
  - intros sound allow G st'. subst st'.
    rewrite (playSound_passed _ _ _ G). simpl. split.
    + apply set_has_In, set_add_In. auto.
    + eexists. split; [reflexivity|].
      split; [apply new_element_src|]. split; [apply new_element_fresh|].
      unfold new_element.
      destruct (volume_accepted (audioVolume (configurationService st)));
        simpl; split; auto; discriminate.
  - intros a y sound st' Hy O S. apply step_Ended_inv in S. destruct S as (C & ->).
    rewrite (ended_playingSounds_listener a y sound st Hy O).
    split; [reflexivity|]. apply set_has_delete_same.
  - intros c st' S. apply step_TimerFired_inv in S. destruct S as (_ & ->).
    apply playSound_resume_playingSounds.
  - intros a st' S. simpl in S.
    destruct (play_pending a st); inversion S; subst.
    now rewrite race_settles_playingSounds.
  - intros ms st' S. simpl in S.
    destruct (may_elapse ms st); inversion S; subst. reflexivity.
Qed.

Lemma registry_follows_completion_witness :
  NoDup (playingSounds (snd (playSound Sound.error false example_service))).
Proof.
  exact (proj1 (registry_follows_completion
           (snd (playSound Sound.error false example_service))
           (reachable_step example_service (Call_playSound Sound.error false) _
              (reachable_initial _ _) eq_refl))).
Defined.

Section Settling.

Lemma find_awaiting_unique st c x a :
  playback_wf st ->
  nth_error (calls st) c = Some x -> call_state x = Suspended ->
  call_audio x = Some a ->
  find_awaiting a (calls st) 0 = Some c.
Proof.
  intros (_ & _ & (_ & Ho2) & _) Hn S0 A.
  destruct (find_awaiting a (calls st) 0) as [c'|] eqn:F.
  - destruct (find_awaiting_Some _ _ _ _ F) as (x' & _ & Hn' & A' & _).
    rewrite Nat.sub_0_r in Hn'. f_equal. exact (Ho2 _ _ _ _ _ Hn' Hn A' A).
  - exfalso. exact (find_awaiting_None _ _ _ F _ _ Hn A S0).
Qed.

Lemma suspended_pending st c x a :
  playback_wf st ->
  nth_error (calls st) c = Some x -> call_state x = Suspended ->
  call_audio x = Some a ->
  play_pending a st = true.
Proof.
  intros (_ & Hc & _) Hn S0 A. specialize (Hc _ _ Hn). red in Hc. rewrite S0 in Hc.
  destruct Hc as (a' & y & d & H1 & _ & _ & H4 & H5).
  assert (a' = a) by congruence. subst a'.
  unfold play_pending. now rewrite H4, H5.
Qed.

Lemma call_state_of_resume c r st x :
  nth_error (calls st) c = Some x ->
  call_state_of (playSound_resume c r st) c = Settled Normal.
Proof.
  intros Hn. unfold call_state_of.
  rewrite playSound_resume_calls, nth_error_update_nth, Nat.eqb_refl, Hn.
  reflexivity.
Qed.

Lemma volume_nan_refused cfg :
  getValue cfg "audioCues.volume" = Js.Number nan ->
  volume_accepted (audioVolume cfg) = false
  /\ volume_setter_error (audioVolume cfg) = Js.MkError "TypeError".
Proof.
  intros H. unfold audioVolume, getVolumeInPercent. rewrite H. split; reflexivity.
Qed.

(** How a call of [playSound] leaves its activation. *)
Lemma playSound_outcome sound allow st :
  call_state_of (snd (playSound sound allow st)) (fst (playSound sound allow st))
  = if negb allow && Js.set_has Sound.eq_dec sound (playingSounds st)
    then Settled Normal
    else if volume_accepted (audioVolume (configurationService st))
         then Suspended
         else Settled (Throw (volume_setter_error
                                (audioVolume (configurationService st)))).
Proof.
  destruct (negb allow && Js.set_has Sound.eq_dec sound (playingSounds st)) eqn:G.
  - rewrite (playSound_blocked _ _ _ G). unfold call_state_of. simpl.
    now rewrite nth_error_snoc_new.
  - rewrite (playSound_passed _ _ _ G). unfold call_state_of. simpl.
    rewrite nth_error_snoc_new. unfold new_activation.
    destruct (volume_accepted (audioVolume (configurationService st))); reflexivity.
Qed.

End Settling.

(** C7, on the code: an activation of [playSound] is rejected when, and
    only when, the setter of the volume refuses the configured value, which
    happens before the [try].  In every execution each activation is
    suspended, resolved, or was rejected there, without timer and without
    [play()]; for a suspended one, whatever the playback does, its promise
    resolves: a rejection of [play()] with any error is logged with
    [console.error] and absorbed, a fulfilment resolves it silently; a call
    returns resolved when it is stopped by the guard, suspended when the
    volume is accepted, and rejected otherwise.  With a NaN volume a call
    that passes the guard is rejected with a [TypeError], nothing is
    logged, the sound stays in the registry, and the promises of
    [playAudioCue] and [playAudioCues] that await it are rejected too. *)
Theorem playSound_rejects_at_refused_volume (st : Service) (R : reachable st) :
  (forall c x, nth_error (calls st) c = Some x ->
               call_state x = Suspended \/ call_state x = Settled Normal
               \/ exists e a y,
                    call_state x = Settled (Throw e) /\ call_timer x = None
                    /\ call_audio x = Some a /\ nth_error (audios st) a = Some y
                    /\ audio_play y = NotCalled /\ audio_onended y = None)
  /\ (forall c x a,
        nth_error (calls st) c = Some x -> call_state x = Suspended ->
        call_audio x = Some a ->
        (forall e, exists st',
            step (PlayRejected a e) st = Some st'
            /\ call_state_of st' c = Settled Normal
            /\ console st' = console st ++ [("Error while playing sound", e)])
        /\ (exists st',
              step (PlayFulfilled a) st = Some st'
              /\ call_state_of st' c = Settled Normal
              /\ console st' = console st))
  /\ (forall sound allow,
        let c := fst (playSound sound allow st) in
        let st' := snd (playSound sound allow st) in
        call_state_of st' c
        = if negb allow && Js.set_has Sound.eq_dec sound (playingSounds st)
          then Settled Normal
          else if volume_accepted (audioVolume (configurationService st))
               then Suspended
               else Settled (Throw (volume_setter_error
                                      (audioVolume (configurationService st)))))
  /\ (forall sound allow,
        getValue (configurationService st) "audioCues.volume" = Js.Number nan ->
        negb allow && Js.set_has Sound.eq_dec sound (playingSounds st) = false ->
        let c := fst (playSound sound allow st) in
        let st' := snd (playSound sound allow st) in
        call_state_of st' c = Settled (Throw (Js.MkError "TypeError"))
        /\ console st' = console st
        /\ Js.set_has Sound.eq_dec sound (playingSounds st') = true
        /\ playAudioCue_state st' (Some c) = Settled (Throw (Js.MkError "TypeError"))
        /\ promise_all st' [c] = Settled (Throw (Js.MkError "TypeError"))).
Proof.
  pose proof (reachable_playback_wf _ R) as W.
  pose proof W as (N & Hc & Ho & Hr).
  split; [|split; [|split]].
  - intros c x Hn. specialize (Hc _ _ Hn). red in Hc.
    destruct (call_state x) as [|[|e]]; [auto|auto|]. right. right.
    destruct Hc as (T & a & y & H1 & H2 & H3 & H4).
    exists e, a, y. repeat split; auto.
  - intros c x a Hn S0 A.
    pose proof (suspended_pending _ _ _ _ W Hn S0 A) as P.
    pose proof (find_awaiting_unique _ _ _ _ W Hn S0 A) as F.
    split.
    + intros e. eexists. simpl. rewrite P. split; [reflexivity|].
      unfold race_settles. simpl calls. rewrite F. split.
      * apply call_state_of_resume with (x := x). exact Hn.
      * rewrite playSound_resume_console. reflexivity.
    + eexists. simpl. rewrite P. split; [reflexivity|].
      unfold race_settles. simpl calls. rewrite F. split.
      * apply call_state_of_resume with (x := x). exact Hn.
      * rewrite playSound_resume_console. reflexivity.
  - intros sound allow c st'. subst c st'. apply playSound_outcome.
  - intros sound allow V G c st'.
    destruct (volume_nan_refused _ V) as (V1 & V2).
    assert (E : call_state_of st' c = Settled (Throw (Js.MkError "TypeError"))).
    { subst c st'. rewrite playSound_outcome, G, V1, V2. reflexivity. }
    split; [exact E|]. split; [|split; [|split]].
    + subst st'. rewrite (playSound_refused _ _ _ G V1). reflexivity.
    + subst st'. rewrite (playSound_refused _ _ _ G V1). simpl.
      apply set_has_In, set_add_In. auto.
    + exact E.
    + simpl. rewrite E. reflexivity.
Qed.

Lemma playSound_rejects_at_refused_volume_witness :
  call_state_of (snd (playSound Sound.error false nan_service)) 0
  = Settled (Throw (Js.MkError "TypeError"))
  /\ console (snd (playSound Sound.error false nan_service)) = []
  /\ Js.set_has Sound.eq_dec Sound.error
       (playingSounds (snd (playSound Sound.error false nan_service))) = true
  /\ playAudioCue_state (snd (playSound Sound.error false nan_service)) (Some 0)
     = Settled (Throw (Js.MkError "TypeError"))
  /\ promise_all (snd (playSound Sound.error false nan_service)) [0]
     = Settled (Throw (Js.MkError "TypeError")).
Proof.
  exact (proj2 (proj2 (proj2
           (playSound_rejects_at_refused_volume nan_service
              (reachable_initial nan_configuration example_accessibility))))
           Sound.error false eq_refl eq_refl).
Defined.

Section Timers.






End Timers.


Section Batch.

Lemma playSound_now sound allow st : now (snd (playSound sound allow st)) = now st.
Proof.
  unfold playSound.
  destruct (negb allow && Js.set_has Sound.eq_dec sound (playingSounds st));
    [|destruct (volume_accepted _)]; reflexivity.
Qed.

Lemma playSound_configurationService sound allow st :
  configurationService (snd (playSound sound allow st)) = configurationService st.
Proof.
  pose proof (playSound_enablement_view sound allow st) as E.
  unfold enablement_view in E. now inversion E.
Qed.

(** What one call of [playSound] adds to the state. *)
Lemma playSound_effect sound st :
  let b := Js.set_has Sound.eq_dec sound (playingSounds st) in
  exists x newa,
    fst (playSound sound false st) = List.length (calls st)
    /\ calls (snd (playSound sound false st)) = calls st ++ [x]
    /\ call_sound x = sound
    /\ audios (snd (playSound sound false st)) = audios st ++ newa
    /\ map audio_src newa = (if b then [] else [media_url sound])
    /\ Forall (fun y => audio_ended y = false) newa
    /\ (volume_accepted (audioVolume (configurationService st)) = true ->
        map audio_onended newa = (if b then [] else [Some sound])
        /\ Forall (fun y => audio_play y = Pending) newa)
    /\ playingSounds (snd (playSound sound false st))
       = Js.set_add Sound.eq_dec sound (playingSounds st).
Proof.
  intros b. subst b.
  destruct (Js.set_has Sound.eq_dec sound (playingSounds st)) eqn:G.
  - rewrite (playSound_blocked sound false st) by (simpl; exact G). simpl.
    eexists. exists []. rewrite app_nil_r.
    repeat split; auto. now rewrite set_add_member.
  - rewrite (playSound_passed sound false st) by (simpl; exact G). simpl.
    eexists. eexists. split; [reflexivity|]. split; [reflexivity|].
    split; [apply new_activation_sound|]. split; [reflexivity|].
    split; [simpl; now rewrite new_element_src|].
    split; [repeat constructor; apply new_element_fresh|].
    split; [|reflexivity].
    intros V. unfold new_element. rewrite V. simpl.
    split; [reflexivity|repeat constructor].
Qed.

Lemma playSounds_effect sounds st :
  NoDup sounds ->
  exists newc newa,
    fst (playSounds sounds st) = seq (List.length (calls st)) (List.length sounds)
    /\ calls (snd (playSounds sounds st)) = calls st ++ newc
    /\ map call_sound newc = sounds
    /\ audios (snd (playSounds sounds st)) = audios st ++ newa
    /\ map audio_src newa
       = map media_url
           (filter (fun s => negb (Js.set_has Sound.eq_dec s (playingSounds st)))
              sounds)
    /\ Forall (fun y => audio_ended y = false) newa
    /\ (volume_accepted (audioVolume (configurationService st)) = true ->
        map audio_onended newa
        = map Some
            (filter (fun s => negb (Js.set_has Sound.eq_dec s (playingSounds st)))
               sounds)
        /\ Forall (fun y => audio_play y = Pending) newa)
    /\ (forall s, In s (playingSounds (snd (playSounds sounds st)))
                  <-> In s (playingSounds st) \/ In s sounds)
    /\ now (snd (playSounds sounds st)) = now st.
Proof.
  revert st. induction sounds as [|s l IH]; intros st N.
  - exists [], []. simpl. rewrite !app_nil_r. repeat split; auto. tauto.
  - inversion N as [|? ? Ns Nl]; subst.
    destruct (playSound_effect s st)
      as (x & na & E1 & E2 & E3 & E4 & E5 & E6 & E6' & E7).
    pose proof (playSound_now s false st) as En.
    pose proof (playSound_configurationService s false st) as Ec.
    simpl. destruct (playSound s false st) as [c st1]. simpl in *.
    destruct (IH st1 Nl) as (nc & na' & F1 & F2 & F3 & F4 & F5 & F6 & F6' & F7 & F8).
    destruct (playSounds l st1) as [cs st2]. simpl in *.
    assert (X : filter (fun s0 => negb (Js.set_has Sound.eq_dec s0
                                 (Js.set_add Sound.eq_dec s (playingSounds st)))) l
                = filter (fun s0 => negb (Js.set_has Sound.eq_dec s0 (playingSounds st))) l).
    { apply filter_ext_in. intros s0 I. f_equal.
      destruct (Js.set_has Sound.eq_dec s0 (playingSounds st)) eqn:H0.
      - apply set_has_In. apply set_add_In. right. now apply set_has_In in H0.
      - apply set_has_not_In. intros H1. apply set_add_In in H1.
        destruct H1 as [->|H1]; [contradiction|].
        apply set_has_not_In in H0. contradiction. }
    exists (x :: nc), (na ++ na').
    split; [|split; [|split; [|split; [|split; [|split; [|split; [|split]]]]]]].
    + rewrite E1, F1, E2, length_app. simpl.
      now replace (List.length (calls st) + 1) with (S (List.length (calls st))) by lia.
    + rewrite F2, E2, <- app_assoc. reflexivity.
    + simpl. now rewrite E3, F3.
    + rewrite F4, E4, <- app_assoc. reflexivity.
    + rewrite map_app, E5, F5, E7, X.
      destruct (Js.set_has Sound.eq_dec s (playingSounds st)); reflexivity.
    + apply Forall_app. split; assumption.
    + intros V. destruct (E6' V) as (O1 & P1).
      rewrite Ec in F6'. destruct (F6' V) as (O2 & P2). split.
      * rewrite map_app, O1, O2, E7, X.
        destruct (Js.set_has Sound.eq_dec s (playingSounds st)); reflexivity.
      * apply Forall_app. split; assumption.
    + intros s0. split.
      * intros H. apply F7 in H. rewrite E7 in H.
        destruct H as [H|H]; [|auto]. apply set_add_In in H.
        destruct H as [->|H]; auto.
      * intros H. apply F7. rewrite E7.
        destruct H as [H|[<-|H]]; [left|left|right]; auto;
          apply set_add_In; auto.
    + congruence.
Qed.

Lemma promise_all_fulfilled st children :
  (promise_all st children = Settled Normal
   <-> forall c, In c children -> call_state_of st c = Settled Normal).
Proof.
  induction children as [|c l IH]; simpl.
  - split; [intros _ c []|reflexivity].
  - split.
    + intros P.
      assert (call_state_of st c = Settled Normal /\ promise_all st l = Settled Normal)
        as (S0 & P').
      { destruct (call_state_of st c) as [|[|e]];
          destruct (promise_all st l) as [|[|e']];
          try discriminate; auto. }
      intros c' [<-|I]; [assumption|]. now apply (proj1 IH).
    + intros H.
      rewrite (H c (or_introl eq_refl)).
      rewrite (proj2 IH) by (intros c' I; apply H; now right).
      reflexivity.
Qed.

End Batch.

Lemma busy_service_reachable : reachable busy_service.
Proof.
  apply (reachable_step example_service (Call_playSound Sound.error false));
    [apply reachable_initial|reflexivity].
Qed.

Lemma stalled_service_reachable : reachable stalled_service.
Proof.
  apply (reachable_step busy_service (Elapse 1000));
    [apply busy_service_reachable|reflexivity].
Qed.

(** Against C4 as stated: while the sound of the error cue is playing,
    [playAudioCues] on that enabled cue starts no playback at all. *)
Lemma playAudioCues_skips_playing_sound :
  ~ playAudioCues_starts_every_enabled_sound.
Proof.
  intros H.
  destruct (H busy_service [AudioCue.error] busy_service_reachable)
    as (new & E1 & E2).
  vm_compute in E1. inversion E1; subst new.
  vm_compute in E2. discriminate.
Qed.

(** C4, amended: [playAudioCues] keeps the cues that are enabled when it is
    called, takes their sounds without repetition in order of first
    occurrence, and calls [playSound] once for each of these sounds, all
    before any of them is awaited and at one instant.  Each call creates an
    element for its sound unless the sound is already in the registry, and
    calls [play()] on it when the volume is accepted, so the playbacks
    started are at most those of the distinct sounds of enabled cues that
    were not playing, once each, and every such sound is in the registry
    afterwards.  The promise of [playAudioCues] resolves exactly when all
    these calls have resolved. *)
Theorem playAudioCues_plays_distinct_sounds
  (cues : list AudioCue.t) (st : Service) (R : reachable st) :
  let enabled := filter (fun cue => fst (isEnabled_get cue st)) cues in
  let sounds := Js.set_of_list Sound.eq_dec (map AudioCue.sound enabled) in
  let fresh :=
    filter (fun s => negb (Js.set_has Sound.eq_dec s (playingSounds st))) sounds in
  let children := fst (playAudioCues cues st) in
  let st' := snd (playAudioCues cues st) in
  NoDup sounds
  /\ (forall s, In s sounds <->
                exists cue, In cue cues /\ fst (isEnabled_get cue st) = true
                            /\ AudioCue.sound cue = s)
  /\ children = seq (List.length (calls st)) (List.length sounds)
  /\ (exists newc newa,
        calls st' = calls st ++ newc
        /\ map call_sound newc = sounds
        /\ audios st' = audios st ++ newa
        /\ map audio_src newa = map media_url fresh
        /\ Forall (fun y => audio_ended y = false) newa
        /\ (volume_accepted (audioVolume (configurationService st)) = true ->
            map audio_onended newa = map Some fresh
            /\ Forall (fun y => audio_play y = Pending) newa))
  /\ (forall s, In s sounds ->
                Js.set_has Sound.eq_dec s (playingSounds st') = true)
  /\ now st' = now st
  /\ (forall st'',
        promise_all st'' children = Settled Normal
        <-> forall c, In c children -> call_state_of st'' c = Settled Normal).
Proof.
  intros enabled sounds fresh children st'.
  pose proof (reachable_enablement_wf _ R) as WA.
  assert (En : fst (filter_enabled cues st) = enabled).
  { rewrite filter_enabled_value by assumption. apply filter_ext.
    intros cue. symmetry. now apply isEnabled_get_value. }
  destruct (set_of_list_spec _ Sound.eq_dec (map AudioCue.sound enabled)) as (N & I).
  fold sounds in N, I.
  pose proof (filter_enabled_playback_view cues st) as F.
  unfold playback_view in F. inversion F as [[F1 F2 F3 F4 F5]]. clear F.
  assert (Fc : configurationService (snd (filter_enabled cues st))
               = configurationService st).
  { pose proof (filter_enabled_world cues st) as Hw. unfold world in Hw.
    now inversion Hw. }
  assert (P : playAudioCues cues st
              = playSounds sounds (snd (filter_enabled cues st))).
  { unfold playAudioCues. destruct (filter_enabled cues st) as [en st1].
    simpl in En. subst en. reflexivity. }
  subst children st' fresh. rewrite P in *.
  destruct (playSounds_effect sounds (snd (filter_enabled cues st)) N)
    as (nc & na & E1 & E2 & E3 & E4 & E5 & E6 & E6' & E7 & E8).
  rewrite F1, F2, F3, F5, Fc in *.
  split; [exact N|split; [|split; [exact E1|split; [|split; [|split]]]]].
  - intros s. rewrite I, in_map_iff. unfold enabled. split.
    + intros (cue & Hs & Hin). apply filter_In in Hin. exists cue. tauto.
    + intros (cue & Hin & He & Hs). exists cue. split; [assumption|].
      apply filter_In. tauto.
  - exists nc, na. repeat split; auto; apply E6'; assumption.
  - intros s Hs. apply set_has_In. apply E7. now right.
  - exact E8.
  - intros st''. apply promise_all_fulfilled.
Qed.

Lemma playAudioCues_plays_distinct_sounds_witness :
  fst (playAudioCues [AudioCue.error; AudioCue.noInlayHints; AudioCue.error]
         example_service)
  = seq 0 (List.length
             (Js.set_of_list Sound.eq_dec
                (map AudioCue.sound
                   (filter (fun cue => fst (isEnabled_get cue example_service))
                      [AudioCue.error; AudioCue.noInlayHints; AudioCue.error])))).
Proof.
  exact (proj1 (proj2 (proj2 (playAudioCues_plays_distinct_sounds
           [AudioCue.error; AudioCue.noInlayHints; AudioCue.error]
           example_service (reachable_initial _ _))))).
Defined.

(** ** The model on concrete executions *)

(** Two calls in a row: one element, one entry, the second call resolved. *)
Example two_calls_one_playback :
  option_map (fun st => (playingSounds st, List.length (audios st),
                         map call_state (calls st)))
    (run [Call_playSound Sound.error false; Call_playSound Sound.error false]
       example_service)
  = Some ([Sound.error], 1, [Suspended; Settled Normal]).
Proof. reflexivity. Qed.

(** A playback that begins and completes releases the entry. *)
Example completed_playback_releases_entry :
  option_map (fun st => (playingSounds st, map call_state (calls st), console st))
    (run [Call_playSound Sound.error false; PlayFulfilled 0; Ended 0]
       example_service)
  = Some ([], [Settled Normal], []).
Proof. reflexivity. Qed.

(** A rejected [play()]: the error is logged and the call resolves. *)
Example rejected_playback_is_logged :
  option_map (fun st => (map call_state (calls st), console st))
    (run [Call_playSound Sound.error false; PlayRejected 0 (Js.MkError "decode")]
       example_service)
  = Some ([Settled Normal],
          [("Error while playing sound", Js.MkError "decode")]).
Proof. reflexivity. Qed.

(** The configured volume of 150 is clamped to 100 percent. *)
Example example_volume :
  option_map (fun st => map audio_volume (audios st))
    (run [Call_playSound Sound.error false] example_service)
  = Some [1%float].
Proof. reflexivity. Qed.

(** Of three cues, two enabled ones share a sound: one playback. *)
Example batch_shares_sound :
  option_map (fun st => map audio_onended (audios st))
    (run [DidChangeConfiguration [("audioCues.noInlayHints", Js.Str "on")];
          Call_playAudioCues
            [AudioCue.error; AudioCue.warning; AudioCue.noInlayHints]]
       example_service)
  = Some [Some Sound.error].
Proof. reflexivity. Qed.

(** The derivation follows the screen reader: with the cue on [auto] and
    the legacy setting [off], detaching the screen reader disables the
    cue. *)
Example enablement_follows_screen_reader :
  fst (isEnabled_get AudioCue.error example_service) = true
  /\ option_map (fun st => fst (isEnabled_get AudioCue.error st))
       (run [Call_playAudioCue AudioCue.error false;
             DidChangeScreenReaderOptimized false]
          example_service)
     = Some false.
Proof. split; reflexivity. Qed.


(** A NaN volume: the call is rejected before [play()], nothing is logged
    and the sound stays in the registry. *)
Example refused_volume_rejects :
  option_map (fun st => (playingSounds st, map call_state (calls st),
                         map audio_play (audios st), console st))
    (run [Call_playSound Sound.error false] nan_service)
  = Some ([Sound.error], [Settled (Throw (Js.MkError "TypeError"))],
          [NotCalled], []).
Proof. reflexivity. Qed.
(** * Further properties of the code *)

(** ** The volume *)

Section VolumeRange.
Open Scope float_scope.

Lemma clamp_range v :
  v = nan \/ ((0 <=? clamp v 0 100) = true /\ (clamp v 0 100 <=? 100) = true).
Proof.
  unfold clamp.
  destruct (v <=? 0) eqn:L0; [right; split; reflexivity|].
  destruct (100 <=? v) eqn:L100; [right; split; reflexivity|].
  destruct (Prim2SF v) as [s|s| |s m e] eqn:E.
  - rewrite leb_spec, E in L0. destruct s; discriminate.
  - destruct s.
    + rewrite leb_spec, E in L0. discriminate.
    + rewrite leb_spec, E in L100. discriminate.
  - left. apply Prim2SF_inj. rewrite E. reflexivity.
  - destruct s.
    + rewrite leb_spec, E in L0. discriminate.
    + right. split.
      * rewrite leb_spec, E. reflexivity.
      * assert (H100 : exists m' e', Prim2SF 100 = S754_finite false m' e')
          by (do 2 eexists; reflexivity).
        destruct H100 as (m' & e' & H100).
        rewrite leb_spec, E, H100 in *. unfold SFleb in *.
        rewrite SFcompare_pos in *. rewrite (cmp_pos_antisym m e m' e') in L100.
        destruct (cmp_pos m e m' e'); simpl in *; congruence.
Qed.

End VolumeRange.

(** X1: whatever the configuration holds, the volume in percent is a
    number between 0 and 100, except when the configured value is the
    number NaN, which is returned as it is. *)
Theorem getVolumeInPercent_range (cfg : IConfigurationService) :
  (getValue cfg "audioCues.volume" = Js.Number nan /\ getVolumeInPercent cfg = nan)
  \/ ((0 <=? getVolumeInPercent cfg)%float = true
      /\ (getVolumeInPercent cfg <=? 100)%float = true).
Proof.
  unfold getVolumeInPercent.
  destruct (getValue cfg "audioCues.volume") as [| |b|v|s|]; simpl;
    try (right; split; reflexivity).
  rewrite clamp_code. destruct (clamp_range v) as [->|H]; [left|right; exact H].
  split; reflexivity.
Qed.
(** ** The enablement derivation on arbitrary setting values *)

Section TierFacts.

Lemma strict_eq_str_true v lit : Js.strict_eq_str v lit = true <-> v = Js.Str lit.
Proof.
  destruct v; simpl; split; intros H; try discriminate.
  - apply String.eqb_eq in H. now subst.
  - inversion H. apply String.eqb_refl.
Qed.

Lemma strict_eq_str_false v lit : v <> Js.Str lit -> Js.strict_eq_str v lit = false.
Proof.
  intros N. destruct (Js.strict_eq_str v lit) eqn:E; [|reflexivity].
  apply strict_eq_str_true in E. contradiction.
Qed.

End TierFacts.

(** X2: while the legacy setting is ['on'] every cue is enabled, whatever
    its own setting holds (['off'] included) and whether or not a screen
    reader is attached. *)
Theorem legacy_on_enables_every_cue (cue : AudioCue.t) (w : World)
  (H : getValue (world_configuration w) "audioCues.enabled" = Js.Str "on") :
  fst (audio_cue_enabled cue w) = true.
Proof.
  rewrite audio_cue_enabled_two_tiers, H. unfold two_tiers, second_tier.
  destruct (Js.strict_eq_str _ "on"); [reflexivity|].
  destruct (Js.strict_eq_str _ "auto");
    [destruct (isScreenReaderOptimized _)|]; reflexivity.
Qed.

Lemma legacy_on_enables_every_cue_witness :
  fst (audio_cue_enabled AudioCue.warning
         {| world_configuration :=
              {| getValue := fun key =>
                   if String.eqb key "audioCues.enabled" then Js.Str "on"
                   else Js.Str "off" |};
            world_accessibility := {| isScreenReaderOptimized := false |} |})
  = true.
Proof. apply legacy_on_enables_every_cue. reflexivity. Defined.

(** X3: attaching a screen reader never disables a cue: a cue that is
    enabled without a screen reader is enabled with one, under the same
    configuration. *)
Theorem screen_reader_never_disables (cue : AudioCue.t) (cfg : IConfigurationService)
  (H : fst (audio_cue_enabled cue
              {| world_configuration := cfg;
                 world_accessibility := {| isScreenReaderOptimized := false |} |})
       = true) :
  fst (audio_cue_enabled cue
         {| world_configuration := cfg;
            world_accessibility := {| isScreenReaderOptimized := true |} |})
  = true.
Proof.
  rewrite audio_cue_enabled_two_tiers in *. simpl in *.
  unfold two_tiers, second_tier in *.
  destruct (Js.strict_eq_str (getValue cfg (AudioCue.settingsKey cue)) "on");
    [reflexivity|].
  destruct (Js.strict_eq_str (getValue cfg (AudioCue.settingsKey cue)) "auto");
    [reflexivity|].
  destruct (Js.strict_eq_str (getValue cfg "audioCues.enabled") "on");
    [reflexivity|].
  destruct (Js.strict_eq_str (getValue cfg "audioCues.enabled") "auto");
    [reflexivity|exact H].
Qed.

Lemma screen_reader_never_disables_witness :
  fst (audio_cue_enabled AudioCue.warning
         {| world_configuration :=
              {| getValue := fun key =>
                   if String.eqb key "audioCues.lineHasWarning" then Js.Str "on"
                   else Js.Undefined |};
            world_accessibility := {| isScreenReaderOptimized := true |} |})
  = true.
Proof. apply screen_reader_never_disables. reflexivity. Defined.

(** X4: the screen-reader state matters only through ['auto']: when neither
    the setting of the cue nor the legacy setting is ['auto'], the
    derivation does not read the screen-reader state and yields the same
    value with and without a screen reader. *)
Theorem screen_reader_only_matters_for_auto
  (cue : AudioCue.t) (cfg : IConfigurationService) (acc acc' : IAccessibilityService)
  (H1 : getValue cfg (AudioCue.settingsKey cue) <> Js.Str "auto")
  (H2 : getValue cfg "audioCues.enabled" <> Js.Str "auto") :
  audio_cue_enabled cue {| world_configuration := cfg; world_accessibility := acc |}
  = audio_cue_enabled cue {| world_configuration := cfg; world_accessibility := acc' |}
  /\ ~ In screenReaderAttached
         (snd (audio_cue_enabled cue
                 {| world_configuration := cfg; world_accessibility := acc |})).
Proof.
  rewrite !audio_cue_enabled_two_tiers. simpl.
  unfold two_tiers, second_tier.
  rewrite (strict_eq_str_false _ _ H1), (strict_eq_str_false _ _ H2).
  destruct (Js.strict_eq_str (getValue cfg (AudioCue.settingsKey cue)) "on");
    [|destruct (Js.strict_eq_str (getValue cfg "audioCues.enabled") "on")];
    (split; [reflexivity|]); simpl; intros H;
    repeat (destruct H as [H|H]; try discriminate); contradiction.
Qed.

Lemma screen_reader_only_matters_for_auto_witness :
  audio_cue_enabled AudioCue.warning
    {| world_configuration := {| getValue := fun _ => Js.Str "off" |};
       world_accessibility := {| isScreenReaderOptimized := true |} |}
  = audio_cue_enabled AudioCue.warning
      {| world_configuration := {| getValue := fun _ => Js.Str "off" |};
         world_accessibility := {| isScreenReaderOptimized := false |} |}.
Proof.
  refine (proj1 (screen_reader_only_matters_for_auto AudioCue.warning
                   {| getValue := fun _ => Js.Str "off" |} _ _ _ _));
    simpl; discriminate.
Defined.

(** X5: a value that is neither ['on'] nor ['auto'] counts as off: when
    that is the case for both the setting of the cue and the legacy setting
    (missing values, other strings, values of other types), the cue is
    disabled whatever the screen-reader state. *)
Theorem unrecognised_settings_disable (cue : AudioCue.t) (w : World)
  (P1 : getValue (world_configuration w) (AudioCue.settingsKey cue) <> Js.Str "on")
  (P2 : getValue (world_configuration w) (AudioCue.settingsKey cue) <> Js.Str "auto")
  (L1 : getValue (world_configuration w) "audioCues.enabled" <> Js.Str "on")
  (L2 : getValue (world_configuration w) "audioCues.enabled" <> Js.Str "auto") :
  fst (audio_cue_enabled cue w) = false.
Proof.
  rewrite audio_cue_enabled_two_tiers. unfold two_tiers, second_tier.
  now rewrite (strict_eq_str_false _ _ P1), (strict_eq_str_false _ _ P2),
    (strict_eq_str_false _ _ L1), (strict_eq_str_false _ _ L2).
Qed.

Lemma unrecognised_settings_disable_witness :
  fst (audio_cue_enabled AudioCue.error
         {| world_configuration :=
              {| getValue := fun key =>
                   if String.eqb key "audioCues.enabled" then Js.Boolean true
                   else Js.Str "ON" |};
            world_accessibility := {| isScreenReaderOptimized := true |} |})
  = false.
Proof. apply unrecognised_settings_disable; simpl; discriminate. Defined.

(** X6: the derivation of a cue first reads the setting of that cue, reads
    at most four observables in all, and never reads the setting of
    another cue: besides its own setting it reads only the legacy setting
    and the screen-reader state. *)
Theorem derivation_reads_only_its_inputs (cue : AudioCue.t) (w : World) :
  hd_error (snd (audio_cue_enabled cue w)) = Some (settingObservable cue)
  /\ List.length (snd (audio_cue_enabled cue w)) <= 4
  /\ (forall o, In o (snd (audio_cue_enabled cue w)) ->
                o = settingObservable cue
                \/ o = screenReaderAttached \/ o = obsoleteAudioCuesEnabled)
  /\ (forall other, other <> cue ->
                    ~ In (settingObservable other) (snd (audio_cue_enabled cue w))).
Proof.
  rewrite audio_cue_enabled_two_tiers. unfold two_tiers, second_tier.
  repeat match goal with
         | |- context [if ?c then _ else _] => destruct c
         end; simpl;
    (split; [reflexivity|split; [lia|split]]);
    try (intros o H; repeat (destruct H as [H|H]; [subst; auto|]); contradiction);
    intros other N H;
    repeat (destruct H as [H|H]; [inversion H; congruence|]); contradiction.
Qed.

Lemma derivation_reads_only_its_inputs_witness :
  ~ In (settingObservable AudioCue.warning)
      (snd (audio_cue_enabled AudioCue.error (world example_service))).
Proof.
  apply (proj2 (proj2 (proj2 (derivation_reads_only_its_inputs
                                AudioCue.error (world example_service))))).
  discriminate.
Defined.

(** ** What no event undoes *)

Section Persistence.

Lemma call_persists_refl x : call_persists x x.
Proof. repeat split; auto. Qed.

Lemma audio_persists_refl y : audio_persists y y.
Proof. repeat split; auto. Qed.

Lemma call_persists_trans x y z :
  call_persists x y -> call_persists y z -> call_persists x z.
Proof.
  intros (A1 & A2 & A3 & A4) (B1 & B2 & B3 & B4).
  repeat split; try congruence. intros r H. eauto.
Qed.

Lemma audio_persists_trans x y z :
  audio_persists x y -> audio_persists y z -> audio_persists x z.
Proof.
  intros (A1 & A2 & A3 & A4 & A5 & A6) (B1 & B2 & B3 & B4 & B5 & B6).
  repeat split; try congruence; auto.
  intros H. rewrite <- (A4 H). apply B4. rewrite (A4 H). exact H.
Qed.

Lemma persists_refl st : persists st st.
Proof.
  repeat split; eauto using call_persists_refl, audio_persists_refl.
  exists []. now rewrite app_nil_r.
Qed.

Lemma persists_trans st1 st2 st3 :
  persists st1 st2 -> persists st2 st3 -> persists st1 st3.
Proof.
  intros (C1 & A1 & (l1 & L1) & N1) (C2 & A2 & (l2 & L2) & N2).
  repeat split.
  - intros c x H. destruct (C1 _ _ H) as (x' & H' & P).
    destruct (C2 _ _ H') as (x'' & H'' & P'). eauto using call_persists_trans.
  - intros a y H. destruct (A1 _ _ H) as (y' & H' & P).
    destruct (A2 _ _ H') as (y'' & H'' & P'). eauto using audio_persists_trans.
  - exists (l1 ++ l2). rewrite L2, L1. now rewrite app_assoc.
  - lia.
Qed.

Lemma persists_ext st st' : playback_view st' = playback_view st -> persists st st'.
Proof.
  unfold playback_view. intros E. inversion E as [[E1 E2 E3 E4 E5]].
  unfold persists. rewrite E2, E3, E4, E5.
  repeat split; eauto using call_persists_refl, audio_persists_refl.
  exists []. now rewrite app_nil_r.
Qed.

Lemma update_nth_related {A : Type} (P : A -> A -> Prop) (f : A -> A)
  (l : list A) (i a : nat) (y : A) :
  (forall z, P z z) -> (forall z, nth_error l i = Some z -> P z (f z)) ->
  nth_error l a = Some y ->
  exists y', nth_error (update_nth i f l) a = Some y' /\ P y y'.
Proof.
  intros Hr Hf Hy. rewrite nth_error_update_nth.
  destruct (Nat.eqb i a) eqn:E.
  - apply Nat.eqb_eq in E. subst a. rewrite Hy. simpl. eauto.
  - eauto.
Qed.

Lemma persists_playSound sound allow st :
  persists st (snd (playSound sound allow st)).
Proof.
  destruct (negb allow && Js.set_has Sound.eq_dec sound (playingSounds st)) eqn:G.
  - rewrite (playSound_blocked _ _ _ G). simpl. repeat split; simpl.
    + intros c x H. exists x. split; [now apply nth_error_snoc_old|].
      apply call_persists_refl.
    + intros a y H. exists y. split; [assumption|apply audio_persists_refl].
    + exists []. now rewrite app_nil_r.
    + lia.
  - rewrite (playSound_passed _ _ _ G). simpl. repeat split; simpl.
    + intros c x H. exists x. split; [now apply nth_error_snoc_old|].
      apply call_persists_refl.
    + intros a y H. exists y. split; [now apply nth_error_snoc_old|].
      apply audio_persists_refl.
    + exists []. now rewrite app_nil_r.
    + lia.
Qed.

Lemma persists_playSounds sounds st : persists st (snd (playSounds sounds st)).
Proof.
  revert st. induction sounds as [|s l IH]; intros st; simpl; [apply persists_refl|].
  pose proof (persists_playSound s false st) as P1.
  destruct (playSound s false st) as [c st1]. simpl in P1.
  specialize (IH st1). destruct (playSounds l st1) as [cs st2]. simpl in *.
  eapply persists_trans; eauto.
Qed.

Lemma remove_at_persists o l a y :
  nth_error l a = Some y ->
  exists y', nth_error (remove_at o l) a = Some y' /\ audio_persists y y'.
Proof.
  intros H. destruct o as [i|]; simpl.
  - apply update_nth_related; auto using audio_persists_refl.
    intros z _. repeat split; auto.
  - eauto using audio_persists_refl.
Qed.

Lemma persists_resume c r st :
  (forall x, nth_error (calls st) c = Some x -> call_state x = Suspended) ->
  persists st (playSound_resume c r st).
Proof.
  intros Hs. repeat split.
  - intros c' x H. rewrite playSound_resume_calls.
    apply update_nth_related; auto using call_persists_refl.
    intros z Hz. repeat split; auto.
    intros r' Hr. rewrite (Hs _ Hz) in Hr. discriminate.
  - intros a y H. rewrite playSound_resume_audios. now apply remove_at_persists.
  - rewrite playSound_resume_console. destruct r; eexists;
      [symmetry; apply app_nil_r|reflexivity].
  - rewrite playSound_resume_now. lia.
Qed.

Lemma persists_race a p r st :
  play_pending a st = true ->
  persists st (race_settles a r (set_audio_play a p st)).
Proof.
  intros P.
  assert (P0 : persists st (set_audio_play a p st)).
  { repeat split; simpl.
    - intros c x H. eauto using call_persists_refl.
    - intros a' y H. apply update_nth_related; auto using audio_persists_refl.
      intros z Hz. repeat split; auto. simpl. intros N. exfalso. apply N.
      unfold play_pending in P. rewrite Hz in P.
      destruct (audio_play z); try discriminate; reflexivity.
    - exists []. now rewrite app_nil_r.
    - lia. }
  eapply persists_trans; [exact P0|].
  destruct (race_settles_cases a r (set_audio_play a p st))
    as [(c & x & F & Hn & A & S0 & ->)|(F & ->)]; [|apply persists_refl].
  apply persists_resume. intros x' Hx'. congruence.
Qed.

Lemma persists_ended a st : persists st (on_ended a (set_audio_ended a st)).
Proof.
  repeat split.
  - intros c x H. rewrite ended_calls. eauto using call_persists_refl.
  - intros a' y H. rewrite ended_audios.
    apply update_nth_related; auto using audio_persists_refl.
    intros z Hz. repeat split; auto.
  - rewrite ended_console. exists []. now rewrite app_nil_r.
  - rewrite ended_now. lia.
Qed.

Lemma timer_due_suspended c st :
  timer_due c st = true ->
  forall x, nth_error (calls st) c = Some x -> call_state x = Suspended.
Proof.
  unfold timer_due. intros D x H. rewrite H in D.
  destruct (call_state x); [reflexivity|discriminate].
Qed.

Lemma persists_step ev st st' : step ev st = Some st' -> persists st st'.
Proof.
  intros S. destruct ev; simpl in S.
  - inversion S; subst. apply persists_playSound.
  - inversion S; subst. unfold playAudioCue.
    pose proof (isEnabled_get_playback_view cue st) as F.
    destruct (isEnabled_get cue st) as [b st1]. simpl in F.
    destruct b; [|now apply persists_ext].
    pose proof (persists_playSound (AudioCue.sound cue) allowManyInParallel st1) as P.
    destruct (playSound (AudioCue.sound cue) allowManyInParallel st1). simpl in *.
    eapply persists_trans; [apply persists_ext; exact F|exact P].
  - inversion S; subst. unfold playAudioCues.
    pose proof (filter_enabled_playback_view cues st) as F.
    destruct (filter_enabled cues st) as [en st1]. simpl in F.
    eapply persists_trans; [apply persists_ext; exact F|apply persists_playSounds].
  - inversion S; subst. apply persists_ext, isEnabled_playback_view.
  - inversion S; subst. apply persists_ext, observable_get_playback_view.
  - destruct (play_pending audio st) eqn:P; inversion S; subst. now apply persists_race.
  - destruct (play_pending audio st) eqn:P; inversion S; subst. now apply persists_race.
  - destruct (can_end audio st); inversion S; subst. apply persists_ended.
  - destruct (timer_due call st) eqn:D; inversion S; subst.
    apply persists_resume. now apply timer_due_suspended.
  - destruct (may_elapse ms st); inversion S; subst.
    repeat split; simpl; eauto using call_persists_refl, audio_persists_refl; [|lia].
    exists []. now rewrite app_nil_r.
  - inversion S; subst. now apply persists_ext.
  - inversion S; subst. now apply persists_ext.
Qed.

Lemma persists_run evs st st' : run evs st = Some st' -> persists st st'.
Proof.
  revert st. induction evs as [|ev evs IH]; intros st H; simpl in H.
  - inversion H; subst. apply persists_refl.
  - destruct (step ev st) as [st1|] eqn:S; [|discriminate].
    eapply persists_trans; [eapply persists_step; eauto|eauto].
Qed.

End Persistence.

(** X7: the promise of a [playSound] call settles once: after it has
    settled, whatever happens later (further calls, late fulfilment or
    rejection of [play()], completion events, timers, configuration
    changes), the activation is still recorded, with the same sound and the
    same element, and settled in the same way. *)
Theorem settled_call_stays_settled
  (evs : list Event) (st st' : Service) (c : nat) (x : PlaySoundCall) (r : Completion)
  (H : run evs st = Some st')
  (Hx : nth_error (calls st) c = Some x)
  (Hs : call_state x = Settled r) :
  exists x',
    nth_error (calls st') c = Some x'
    /\ call_state x' = Settled r
    /\ call_sound x' = call_sound x
    /\ call_audio x' = call_audio x.
Proof.
  destruct (persists_run _ _ _ H) as (C & _).
  destruct (C _ _ Hx) as (x' & Hx' & P1 & P2 & P3 & P4).
  exists x'. auto.
Qed.

Lemma settled_call_stays_settled_witness :
  exists x',
    nth_error (calls (set_audio_play 0 Fulfilled
                        (playSound_resume 0 Normal stalled_service))) 0 = Some x'
    /\ call_state x' = Settled Normal
    /\ call_sound x' = Sound.error
    /\ call_audio x' = Some 0.
Proof.
  exact (settled_call_stays_settled [PlayFulfilled 0]
           (playSound_resume 0 Normal stalled_service) _ 0 _ Normal
           eq_refl eq_refl eq_refl).
Defined.

(** X8: the source, the volume and the ['ended'] listener of an element
    are fixed when [playSound] creates it: no later event changes them; in
    particular a later change of the configured volume does not reach a
    playback that has been started, and elements are never discarded. *)
Theorem element_is_fixed_at_creation
  (evs : list Event) (st st' : Service) (a : nat) (y : Audio)
  (H : run evs st = Some st')
  (Hy : nth_error (audios st) a = Some y) :
  exists y',
    nth_error (audios st') a = Some y'
    /\ audio_src y' = audio_src y
    /\ audio_volume y' = audio_volume y
    /\ audio_onended y' = audio_onended y.
Proof.
  destruct (persists_run _ _ _ H) as (_ & A & _).
  destruct (A _ _ Hy) as (y' & Hy' & P1 & P2 & P3 & _).
  exists y'. auto.
Qed.

Lemma element_is_fixed_at_creation_witness :
  exists y',
    nth_error
      (audios (onDidChangeConfiguration [("audioCues.volume", Js.Number 10)]
                 busy_service)) 0 = Some y'
    /\ audio_src y' = "vs/platform/audioCues/common/media/error.mp3"
    /\ audio_volume y' = 1%float
    /\ audio_onended y' = Some Sound.error.
Proof.
  exact (element_is_fixed_at_creation
           [DidChangeConfiguration [("audioCues.volume", Js.Number 10)]]
           busy_service _ 0 _ eq_refl eq_refl).
Defined.

Section ConsoleFacts.

Lemma playSound_console sound allow st :
  console (snd (playSound sound allow st)) = console st.
Proof.
  unfold playSound.
  destruct (negb allow && Js.set_has Sound.eq_dec sound (playingSounds st));
    [|destruct (volume_accepted _)]; reflexivity.
Qed.

Lemma playSounds_console sounds st :
  console (snd (playSounds sounds st)) = console st.
Proof.
  revert st. induction sounds as [|s l IH]; intros st; simpl; [reflexivity|].
  pose proof (playSound_console s false st) as E1.
  destruct (playSound s false st) as [c st1]. simpl in E1.
  specialize (IH st1). destruct (playSounds l st1) as [cs st2]. simpl in *.
  congruence.
Qed.

Lemma playback_view_console st st' :
  playback_view st' = playback_view st -> console st' = console st.
Proof. unfold playback_view. intros E. now inversion E. Qed.

Lemma race_settles_console a r st :
  console (race_settles a r st) = console st
  \/ exists e, r = Throw e
               /\ console (race_settles a r st)
                  = console st ++ [("Error while playing sound", e)].
Proof.
  unfold race_settles. destruct (find_awaiting a (calls st) 0); [|now left].
  rewrite playSound_resume_console. destruct r; [now left|right; eauto].
Qed.

(** Only the rejection of [play()] writes to the console. *)
Lemma step_console ev st st' :
  step ev st = Some st' ->
  console st' = console st
  \/ exists a e, ev = PlayRejected a e
                 /\ play_pending a st = true
                 /\ console st' = console st ++ [("Error while playing sound", e)].
Proof.
  intros S. destruct ev; simpl in S.
  - inversion S; subst. left. apply playSound_console.
  - inversion S; subst. left. unfold playAudioCue.
    pose proof (isEnabled_get_playback_view cue st) as F.
    destruct (isEnabled_get cue st) as [b st1]. simpl in F.
    apply playback_view_console in F.
    destruct b; [|exact F].
    pose proof (playSound_console (AudioCue.sound cue) allowManyInParallel st1) as P.
    destruct (playSound (AudioCue.sound cue) allowManyInParallel st1). simpl in *.
    congruence.
  - inversion S; subst. left. unfold playAudioCues.
    pose proof (filter_enabled_playback_view cues st) as F.
    destruct (filter_enabled cues st) as [en st1]. simpl in F.
    apply playback_view_console in F. rewrite playSounds_console. exact F.
  - inversion S; subst. left.
    apply playback_view_console, isEnabled_playback_view.
  - inversion S; subst. left.
    apply playback_view_console, observable_get_playback_view.
  - destruct (play_pending audio st); inversion S; subst. left.
    destruct (race_settles_console audio Normal (set_audio_play audio Fulfilled st))
      as [E|(e & E & _)]; [exact E|discriminate].
  - destruct (play_pending audio st) eqn:P; inversion S; subst.
    destruct (race_settles_console audio (Throw e)
                (set_audio_play audio (Rejected e) st)) as [E|(e' & E & E')].
    + left. exact E.
    + right. inversion E; subst e'. eauto.
  - destruct (can_end audio st); inversion S; subst. left. apply ended_console.
  - destruct (timer_due call st); inversion S; subst. left.
    apply playSound_resume_console.
  - destruct (may_elapse ms st); inversion S; subst. now left.
  - inversion S; subst. now left.
  - inversion S; subst. now left.
Qed.

End ConsoleFacts.

(** X9: the service writes to the console only when [play()] is rejected:
    in every execution each console entry carries the message
    ['Error while playing sound'] and the error of an element whose
    [play()] was rejected with it; timeouts, fulfilments, completions and
    de-duplicated calls log nothing. *)
Theorem console_only_reports_rejections (st : Service) (R : reachable st) :
  forall entry, In entry (console st) ->
    exists e a y,
      entry = ("Error while playing sound", e)
      /\ nth_error (audios st) a = Some y
      /\ audio_play y = Rejected e.
Proof.
  induction R as [cfg acc | st ev st' R IH S]; [intros entry []|].
  intros entry I.
  destruct (persists_step _ _ _ S) as (_ & PA & _).
  assert (Old : In entry (console st) ->
                exists e a y, entry = ("Error while playing sound", e)
                              /\ nth_error (audios st') a = Some y
                              /\ audio_play y = Rejected e).
  { intros I0. destruct (IH _ I0) as (e & a & y & E & Hy & P).
    destruct (PA _ _ Hy) as (y' & Hy' & _ & _ & _ & K & _).
    exists e, a, y'. repeat split; auto. rewrite K; [exact P|]. rewrite P. discriminate. }
  destruct (step_console _ _ _ S) as [E|(a & e & -> & P & E)].
  - rewrite E in I. auto.
  - rewrite E in I. apply in_app_iff in I. destruct I as [I|[<-|[]]]; [auto|].
    simpl in S. rewrite P in S. inversion S; subst st'. clear S.
    unfold play_pending in P.
    destruct (nth_error (audios st) a) as [y|] eqn:Hy; [|discriminate].
    assert (H0 : exists y0, nth_error (audios (set_audio_play a (Rejected e) st)) a
                            = Some y0 /\ audio_play y0 = Rejected e).
    { simpl. rewrite nth_error_update_nth, Nat.eqb_refl, Hy. simpl. eauto. }
    destruct H0 as (y0 & Hy0 & P0).
    assert (PR : persists (set_audio_play a (Rejected e) st)
                   (race_settles a (Throw e) (set_audio_play a (Rejected e) st))).
    { destruct (race_settles_cases a (Throw e) (set_audio_play a (Rejected e) st))
        as [(c & x & F & Hn & A & S0 & ->)|(F & ->)]; [|apply persists_refl].
      apply persists_resume. intros x' Hx'. congruence. }
    destruct PR as (_ & PA' & _).
    destruct (PA' _ _ Hy0) as (y' & Hy' & _ & _ & _ & K & _).
    exists e, a, y'. repeat split; auto. rewrite K; [exact P0|]. rewrite P0. discriminate.
Qed.

Lemma console_only_reports_rejections_witness :
  exists e a y,
    ("Error while playing sound", Js.MkError "decode")
    = ("Error while playing sound", e)
    /\ nth_error
         (audios (race_settles 0 (Throw (Js.MkError "decode"))
                    (set_audio_play 0 (Rejected (Js.MkError "decode")) busy_service)))
         a = Some y
    /\ audio_play y = Rejected e.
Proof.
  refine (console_only_reports_rejections _
            (reachable_step busy_service
               (PlayRejected 0 (Js.MkError "decode")) _
               (reachable_step example_service
                  (Call_playSound Sound.error false) _
                  (reachable_initial _ _) eq_refl)
               eq_refl) _ _).
  left. reflexivity.
Defined.

Section RegistryGrowth.

Lemma playSound_keeps_members sound allow st s :
  In s (playingSounds st) -> In s (playingSounds (snd (playSound sound allow st))).
Proof.
  intros I.
  destruct (negb allow && Js.set_has Sound.eq_dec sound (playingSounds st)) eqn:G.
  - now rewrite (playSound_blocked _ _ _ G).
  - rewrite (playSound_passed _ _ _ G). simpl. apply set_add_In. now right.
Qed.

Lemma playSounds_keeps_members sounds st s :
  In s (playingSounds st) -> In s (playingSounds (snd (playSounds sounds st))).
Proof.
  revert st. induction sounds as [|s0 l IH]; intros st I; simpl; [assumption|].
  pose proof (playSound_keeps_members s0 false st s I) as I1.
  destruct (playSound s0 false st) as [c st1]. simpl in I1.
  specialize (IH st1 I1). destruct (playSounds l st1) as [cs st2]. exact IH.
Qed.

Lemma playback_view_playingSounds st st' :
  playback_view st' = playback_view st -> playingSounds st' = playingSounds st.
Proof. unfold playback_view. intros E. now inversion E. Qed.

End RegistryGrowth.

(** X10: the only thing that takes a sound out of the registry is the
    completion event of an element of that sound.  Across every other
    event (a rejected or fulfilled [play()], the timeout, further calls,
    changes of configuration) a sound that is in the registry stays in it,
    so a playback that fails or stalls keeps later calls for its sound
    de-duplicated until such an event occurs. *)
Theorem registry_shrinks_only_on_ended
  (ev : Event) (st st' : Service) (s : Sound.t)
  (S : step ev st = Some st')
  (I : In s (playingSounds st)) :
  In s (playingSounds st')
  \/ exists a y, ev = Ended a
                 /\ nth_error (audios st) a = Some y
                 /\ audio_onended y = Some s
                 /\ audio_play y = Fulfilled.
Proof.
  destruct ev; simpl in S.
  - inversion S; subst. left. now apply playSound_keeps_members.
  - inversion S; subst. left. unfold playAudioCue.
    pose proof (isEnabled_get_playback_view cue st) as F.
    destruct (isEnabled_get cue st) as [b st1]. simpl in F.
    apply playback_view_playingSounds in F. rewrite <- F in I.
    destruct b; [|exact I].
    pose proof (playSound_keeps_members (AudioCue.sound cue) allowManyInParallel st1 s I) as P.
    destruct (playSound (AudioCue.sound cue) allowManyInParallel st1). exact P.
  - inversion S; subst. left. unfold playAudioCues.
    pose proof (filter_enabled_playback_view cues st) as F.
    destruct (filter_enabled cues st) as [en st1]. simpl in F.
    apply playback_view_playingSounds in F. rewrite <- F in I.
    now apply playSounds_keeps_members.
  - inversion S; subst. left.
    now rewrite (playback_view_playingSounds _ _ (isEnabled_playback_view cue st)).
  - inversion S; subst. left.
    now rewrite (playback_view_playingSounds _ _ (observable_get_playback_view ref st)).
  - destruct (play_pending audio st); inversion S; subst. left.
    now rewrite race_settles_playingSounds.
  - destruct (play_pending audio st); inversion S; subst. left.
    now rewrite race_settles_playingSounds.
  - destruct (can_end audio st) eqn:C; inversion S; subst.
    destruct (can_end_spec _ _ C) as (y & Hy & P & _).
    rewrite (ended_playingSounds _ _ _ Hy).
    destruct (audio_onended y) as [s0|] eqn:O; [|now left].
    destruct (Sound.eq_dec s s0) as [E|N].
    + right. exists audio, y. subst s0. auto.
    + left. apply set_delete_In. auto.
  - destruct (timer_due call st); inversion S; subst. left.
    now rewrite playSound_resume_playingSounds.
  - destruct (may_elapse ms st); inversion S; subst. now left.
  - inversion S; subst. now left.
  - inversion S; subst. now left.
Qed.

Lemma registry_shrinks_only_on_ended_witness :
  In Sound.error
    (playingSounds
       (race_settles 0 (Throw (Js.MkError "decode"))
          (set_audio_play 0 (Rejected (Js.MkError "decode")) busy_service)))
  \/ exists a y, PlayRejected 0 (Js.MkError "decode") = Ended a
                 /\ nth_error (audios busy_service) a = Some y
                 /\ audio_onended y = Some Sound.error
                 /\ audio_play y = Fulfilled.
Proof.
  apply (registry_shrinks_only_on_ended
           (PlayRejected 0 (Js.MkError "decode")) busy_service _ Sound.error eq_refl).
  left. reflexivity.
Defined.

Section Isolation.

(** What the settling of the race of one element changes: the activation
    awaiting it, that element, the console. *)
Lemma race_is_local a p r st :
  playingSounds (race_settles a r (set_audio_play a p st)) = playingSounds st
  /\ now (race_settles a r (set_audio_play a p st)) = now st
  /\ (forall a', a' <> a ->
        nth_error (audios (race_settles a r (set_audio_play a p st))) a'
        = nth_error (audios st) a')
  /\ (forall c x, nth_error (calls st) c = Some x -> call_audio x <> Some a ->
        nth_error (calls (race_settles a r (set_audio_play a p st))) c = Some x).
Proof.
  assert (A0 : forall a', a' <> a ->
            nth_error (audios (set_audio_play a p st)) a' = nth_error (audios st) a').
  { intros a' N. simpl. rewrite nth_error_update_nth.
    replace (Nat.eqb a a') with false by (symmetry; apply Nat.eqb_neq; congruence).
    reflexivity. }
  destruct (race_settles_cases a r (set_audio_play a p st))
    as [(c & x & F & Hn & A & S0 & ->)|(F & ->)].
  - split; [now rewrite playSound_resume_playingSounds|].
    split; [now rewrite playSound_resume_now|]. split.
    + intros a' N. rewrite playSound_resume_audios.
      unfold audio_of_call. rewrite Hn, A. simpl remove_at.
      rewrite nth_error_update_nth.
      replace (Nat.eqb a a') with false by (symmetry; apply Nat.eqb_neq; congruence).
      now apply A0.
    + intros c' x' Hx' N. rewrite playSound_resume_calls, nth_error_update_nth.
      destruct (Nat.eqb c c') eqn:E; [|exact Hx'].
      apply Nat.eqb_eq in E. subst c'. simpl in Hn. congruence.
  - repeat split; auto.
Qed.

End Isolation.

(** X11: a failure stays with its own call.  When [play()] of one element
    is rejected, the registry, the clock, every other element and every
    activation of [playSound] that awaits another element are exactly as
    before: other sounds, such as the siblings of a batch, are not
    affected. *)
Theorem rejection_is_isolated
  (a : nat) (e : Js.Error) (st st' : Service)
  (S : step (PlayRejected a e) st = Some st') :
  playingSounds st' = playingSounds st
  /\ now st' = now st
  /\ (forall a', a' <> a -> nth_error (audios st') a' = nth_error (audios st) a')
  /\ (forall c x, nth_error (calls st) c = Some x -> call_audio x <> Some a ->
                  nth_error (calls st') c = Some x).
Proof.
  simpl in S. destruct (play_pending a st); inversion S; subst.
  apply race_is_local.
Qed.

Lemma rejection_is_isolated_witness :
  playingSounds
    (race_settles 0 (Throw (Js.MkError "decode"))
       (set_audio_play 0 (Rejected (Js.MkError "decode")) busy_service))
  = playingSounds busy_service.
Proof.
  exact (proj1 (rejection_is_isolated 0 (Js.MkError "decode") busy_service _ eq_refl)).
Defined.

Section Cleanup.

Lemma cleanup_ext st st' :
  playback_view st' = playback_view st ->
  cleanup_matches_settlement st -> cleanup_matches_settlement st'.
Proof.
  unfold playback_view. intros E. inversion E as [[E1 E2 E3 E4 E5]].
  unfold cleanup_matches_settlement. rewrite E2, E3. auto.
Qed.

Lemma cleanup_playSound sound allow st :
  playback_wf st ->
  cleanup_matches_settlement st ->
  cleanup_matches_settlement (snd (playSound sound allow st)).
Proof.
  intros (_ & _ & (Ho1 & _) & _) H.
  destruct (negb allow && Js.set_has Sound.eq_dec sound (playingSounds st)) eqn:G.
  - rewrite (playSound_blocked _ _ _ G). intros c x a Hn A. simpl in *.
    apply nth_error_snoc_inv in Hn. destruct Hn as [(_ & Hn)|(_ & ->)].
    + eauto.
    + discriminate.
  - rewrite (playSound_passed _ _ _ G). intros c x a Hn A. simpl in *.
    apply nth_error_snoc_inv in Hn. destruct Hn as [(_ & Hn)|(_ & ->)].
    + destruct (H _ _ _ Hn A) as (y & Hy & P). exists y. split; [|exact P].
      now apply nth_error_snoc_old.
    + rewrite new_activation_audio in A. inversion A; subst a.
      eexists. split; [apply nth_error_snoc_new|].
      unfold new_element, new_activation.
      destruct (volume_accepted (audioVolume (configurationService st)));
        reflexivity.
Qed.

Lemma cleanup_playSounds sounds st :
  playback_wf st ->
  cleanup_matches_settlement st ->
  cleanup_matches_settlement (snd (playSounds sounds st)).
Proof.
  revert st. induction sounds as [|s l IH]; intros st W H; simpl; [assumption|].
  pose proof (playback_wf_playSound s false st W) as W1.
  pose proof (cleanup_playSound s false st W H) as H1.
  destruct (playSound s false st) as [c st1]. simpl in *.
  specialize (IH st1 W1 H1). destruct (playSounds l st1) as [cs st2]. exact IH.
Qed.

Lemma cleanup_resume c r st :
  (forall c1 c2 x1 x2 a,
     nth_error (calls st) c1 = Some x1 -> nth_error (calls st) c2 = Some x2 ->
     call_audio x1 = Some a -> call_audio x2 = Some a -> c1 = c2) ->
  cleanup_matches_settlement st ->
  cleanup_matches_settlement (playSound_resume c r st).
Proof.
  intros U H c' x' a' Hn A.
  rewrite playSound_resume_calls, nth_error_update_nth in Hn.
  rewrite playSound_resume_audios. unfold audio_of_call.
  destruct (Nat.eqb c c') eqn:E.
  - apply Nat.eqb_eq in E. subst c'.
    destruct (nth_error (calls st) c) as [xc|] eqn:Hc; [|discriminate].
    simpl in Hn. inversion Hn; subst x'. simpl in A. rewrite A. simpl.
    destruct (H _ _ _ Hc A) as (y & Hy & _).
    rewrite nth_error_update_nth, Nat.eqb_refl, Hy. simpl. eauto.
  - destruct (H _ _ _ Hn A) as (y & Hy & P). exists y. split; [|exact P].
    destruct (nth_error (calls st) c) as [xc|] eqn:Hc; [|exact Hy].
    destruct (call_audio xc) as [ac|] eqn:Ac; [|exact Hy].
    simpl. rewrite nth_error_update_nth.
    destruct (Nat.eqb ac a') eqn:E'; [|exact Hy].
    apply Nat.eqb_eq in E'. subst ac.
    apply Nat.eqb_neq in E. exfalso. apply E. exact (U _ _ _ _ _ Hc Hn Ac A).
Qed.

Lemma cleanup_audio_update f a st :
  (forall y, audio_removed (f y) = audio_removed y) ->
  cleanup_matches_settlement st ->
  cleanup_matches_settlement (set_audios (update_nth a f (audios st)) st).
Proof.
  intros Hf H c x a' Hn A. simpl in *.
  destruct (H _ _ _ Hn A) as (y & Hy & P).
  rewrite nth_error_update_nth. destruct (Nat.eqb a a'); [|eauto].
  rewrite Hy. simpl. exists (f y). split; [reflexivity|]. now rewrite Hf.
Qed.

Lemma cleanup_step ev st st' :
  playback_wf st -> cleanup_matches_settlement st ->
  step ev st = Some st' -> cleanup_matches_settlement st'.
Proof.
  intros W H S. pose proof W as (_ & _ & (_ & U) & _).
  destruct ev; simpl in S.
  - inversion S; subst. now apply cleanup_playSound.
  - inversion S; subst. unfold playAudioCue.
    pose proof (isEnabled_get_playback_view cue st) as F.
    destruct (isEnabled_get cue st) as [b st1]. simpl in F.
    pose proof (cleanup_ext _ _ F H) as H1.
    pose proof (playback_wf_ext _ _ F W) as W1.
    destruct b; [|exact H1].
    pose proof (cleanup_playSound (AudioCue.sound cue) allowManyInParallel st1 W1 H1) as P.
    destruct (playSound (AudioCue.sound cue) allowManyInParallel st1). exact P.
  - inversion S; subst. unfold playAudioCues.
    pose proof (filter_enabled_playback_view cues st) as F.
    destruct (filter_enabled cues st) as [en st1]. simpl in F.
    apply cleanup_playSounds;
      [exact (playback_wf_ext _ _ F W)|exact (cleanup_ext _ _ F H)].
  - inversion S; subst. exact (cleanup_ext _ _ (isEnabled_playback_view cue st) H).
  - inversion S; subst.
    exact (cleanup_ext _ _ (observable_get_playback_view ref st) H).
  - destruct (play_pending audio st); inversion S; subst.
    pose proof (cleanup_audio_update (mark_play Fulfilled) audio st
                  (fun _ => eq_refl) H) as H0.
    unfold race_settles.
    destruct (find_awaiting audio (calls (set_audio_play audio Fulfilled st)) 0);
      [|exact H0].
    apply cleanup_resume; [exact U|exact H0].
  - destruct (play_pending audio st); inversion S; subst.
    pose proof (cleanup_audio_update (mark_play (Rejected e)) audio st
                  (fun _ => eq_refl) H) as H0.
    unfold race_settles.
    destruct (find_awaiting audio (calls (set_audio_play audio (Rejected e) st)) 0);
      [|exact H0].
    apply cleanup_resume; [exact U|exact H0].
  - destruct (can_end audio st); inversion S; subst.
    intros c x a Hn A. rewrite ended_calls in Hn. rewrite ended_audios.
    exact (cleanup_audio_update mark_ended audio st (fun _ => eq_refl) H c x a Hn A).
  - destruct (timer_due call st); inversion S; subst. now apply cleanup_resume.
  - destruct (may_elapse ms st); inversion S; subst. exact H.
  - inversion S; subst. exact H.
  - inversion S; subst. exact H.
Qed.

End Cleanup.

(** X12: the [finally] block runs on every way out of the [try] of
    [playSound] and on no other occasion: in every execution, for each
    activation that created an element, [audio.remove()] has been called on
    that element exactly when the activation has resolved, whether by
    fulfilment, by a rejection of [play()] or by the timeout; while the
    activation is suspended the element has not been removed, and neither
    has it when the activation was rejected at the assignment of the
    volume, which is before the [try]. *)
Theorem element_removed_iff_call_resolved (st : Service) (R : reachable st) :
  forall c x a,
    nth_error (calls st) c = Some x -> call_audio x = Some a ->
    exists y,
      nth_error (audios st) a = Some y
      /\ audio_removed y = match call_state x with
                           | Suspended => false
                           | Settled Normal => true
                           | Settled (Throw _) => false
                           end.
Proof.
  change (cleanup_matches_settlement st).
  induction R as [cfg acc | st ev st' R IH S].
  - intros c x a Hn. destruct c; discriminate.
  - eapply cleanup_step; eauto. now apply reachable_playback_wf.
Qed.

Lemma element_removed_iff_call_resolved_witness :
  (exists y,
     nth_error (audios (playSound_resume 0 Normal stalled_service)) 0 = Some y
     /\ audio_removed y = true)
  /\ (exists y,
        nth_error (audios (snd (playSound Sound.error false nan_service))) 0
        = Some y
        /\ audio_removed y = false).
Proof.
  split.
  - exact (element_removed_iff_call_resolved
             (playSound_resume 0 Normal stalled_service)
             (reachable_step stalled_service (TimerFired 0) _
                (reachable_step busy_service (Elapse 1000) _
                   (reachable_step example_service
                      (Call_playSound Sound.error false) _
                      (reachable_initial _ _) eq_refl)
                   eq_refl)
                eq_refl)
             0 _ 0 eq_refl eq_refl).
  - exact (element_removed_iff_call_resolved
             (snd (playSound Sound.error false nan_service))
             (reachable_step nan_service (Call_playSound Sound.error false) _
                (reachable_initial _ _) eq_refl)
             0 _ 0 eq_refl eq_refl).
Defined.

(** X13: with [allowManyInParallel] the registry is not consulted: when
    the configured volume is one the element accepts, two calls in a row
    for one sound create two elements and two suspended activations, each
    with its own pending promise, while the registry holds the sound once;
    and the two proceed independently: when [play()] of the first is
    rejected, the second activation is still suspended on its still
    pending promise, which can still be fulfilled. *)
Theorem parallel_calls_are_independent (sound : Sound.t) (st : Service)
  (R : reachable st)
  (V : volume_accepted (audioVolume (configurationService st)) = true) :
  let st1 := snd (playSound sound true st) in
  let st2 := snd (playSound sound true st1) in
  let a1 := List.length (audios st) in
  let c1 := List.length (calls st) in
  List.length (audios st2) = a1 + 2
  /\ fst (playSound sound true st) = c1
  /\ fst (playSound sound true st1) = c1 + 1
  /\ audio_of_call st2 c1 = Some a1
  /\ audio_of_call st2 (c1 + 1) = Some (a1 + 1)
  /\ call_state_of st2 c1 = Suspended
  /\ call_state_of st2 (c1 + 1) = Suspended
  /\ play_pending a1 st2 = true
  /\ play_pending (a1 + 1) st2 = true
  /\ count_occ Sound.eq_dec (playingSounds st2) sound = 1
  /\ (forall e, exists st3,
        step (PlayRejected a1 e) st2 = Some st3
        /\ call_state_of st3 c1 = Settled Normal
        /\ call_state_of st3 (c1 + 1) = Suspended
        /\ play_pending (a1 + 1) st3 = true
        /\ step (PlayFulfilled (a1 + 1)) st3 <> None).
Proof.
  intros st1 st2 a1 c1.
  assert (R1 : reachable st1)
    by (apply (reachable_step st (Call_playSound sound true)); [assumption|reflexivity]).
  assert (R2 : reachable st2)
    by (apply (reachable_step st1 (Call_playSound sound true)); [assumption|reflexivity]).
  pose proof (reachable_playback_wf _ R2) as W2.
  assert (V1 : volume_accepted (audioVolume (configurationService st1)) = true)
    by (subst st1; now rewrite playSound_configurationService).
  pose proof (playSound_started sound true st eq_refl V) as E1.
  pose proof (playSound_started sound true st1 eq_refl V1) as E2.
  assert (F1 : fst (playSound sound true st) = c1) by now rewrite E1.
  assert (Ca1 : exists x1, calls st1 = calls st ++ [x1]
                           /\ call_audio x1 = Some a1 /\ call_state x1 = Suspended)
    by (subst st1; rewrite E1; simpl; eauto).
  assert (Au1 : exists y1, audios st1 = audios st ++ [y1])
    by (subst st1; rewrite E1; simpl; eauto).
  assert (In1 : In sound (playingSounds st1))
    by (subst st1; rewrite E1; simpl; apply set_add_In; now left).
  clear E1. clearbody st1.
  destruct Ca1 as (x1 & Ca1 & A1 & S1). destruct Au1 as (y1 & Au1).
  assert (La : List.length (audios st1) = a1 + 1)
    by (rewrite Au1, length_app; reflexivity).
  assert (Lc : List.length (calls st1) = c1 + 1)
    by (rewrite Ca1, length_app; reflexivity).
  assert (F2 : fst (playSound sound true st1) = c1 + 1) by now rewrite E2.
  assert (Ca2 : exists x2, calls st2 = calls st1 ++ [x2]
                           /\ call_audio x2 = Some (a1 + 1)
                           /\ call_state x2 = Suspended).
  { subst st2. rewrite E2. simpl. eexists. split; [reflexivity|].
    simpl. rewrite La. auto. }
  assert (Au2 : exists y2, audios st2 = audios st1 ++ [y2])
    by (subst st2; rewrite E2; simpl; eauto).
  assert (In2 : In sound (playingSounds st2))
    by (subst st2; rewrite E2; simpl; apply set_add_In; now right).
  clear E2. clearbody st2.
  destruct Ca2 as (x2 & Ca2 & A2 & S2). destruct Au2 as (y2 & Au2).
  assert (Hx1 : nth_error (calls st2) c1 = Some x1).
  { rewrite Ca2. apply nth_error_snoc_old. rewrite Ca1. apply nth_error_snoc_new. }
  assert (Hx2 : nth_error (calls st2) (c1 + 1) = Some x2).
  { rewrite Ca2, <- Lc. apply nth_error_snoc_new. }
  pose proof (suspended_pending _ _ _ _ W2 Hx1 S1 A1) as P1.
  pose proof (suspended_pending _ _ _ _ W2 Hx2 S2 A2) as P2.
  split; [rewrite Au2, length_app, La; simpl; lia|].
  split; [exact F1|]. split; [exact F2|].
  split; [unfold audio_of_call; now rewrite Hx1|].
  split; [unfold audio_of_call; now rewrite Hx2|].
  split; [unfold call_state_of; now rewrite Hx1|].
  split; [unfold call_state_of; now rewrite Hx2|].
  split; [exact P1|]. split; [exact P2|]. split.
  - apply NoDup_count_occ_one; [apply W2|exact In2].
  - intros e. eexists. simpl. rewrite P1. split; [reflexivity|].
    destruct (race_is_local a1 (Rejected e) (Throw e) st2) as (_ & _ & LA & LC).
    assert (Hx2' := LC _ _ Hx2). rewrite A2 in Hx2'.
    specialize (Hx2' ltac:(intros Q; inversion Q; lia)).
    assert (P2' : play_pending (a1 + 1)
                    (race_settles a1 (Throw e) (set_audio_play a1 (Rejected e) st2))
                  = true).
    { unfold play_pending. rewrite LA by lia. exact P2. }
    split.
    + unfold race_settles. simpl calls.
      rewrite (find_awaiting_unique _ _ _ _ W2 Hx1 S1 A1).
      now apply call_state_of_resume with (x := x1).
    + split; [unfold call_state_of; now rewrite Hx2'|].
      split; [exact P2'|]. rewrite P2'. discriminate.
Qed.

Lemma parallel_calls_are_independent_witness :
  List.length
    (audios (snd (playSound Sound.error true
                    (snd (playSound Sound.error true busy_service)))))
  = List.length (audios busy_service) + 2.
Proof.
  exact (proj1 (parallel_calls_are_independent Sound.error busy_service
                  (reachable_step example_service
                     (Call_playSound Sound.error false) _
                     (reachable_initial _ _) eq_refl)
                  eq_refl)).
Defined.

(** ** The facade *)

Section Facade.

(** [playSound] looks only at the playback state and the configuration. *)
Lemma playSound_respects_views sound allow st st1 :
  playback_view st1 = playback_view st ->
  configurationService st1 = configurationService st ->
  fst (playSound sound allow st1) = fst (playSound sound allow st)
  /\ playback_view (snd (playSound sound allow st1))
     = playback_view (snd (playSound sound allow st)).
Proof.
  unfold playback_view. intros E Ec. inversion E as [[E1 E2 E3 E4 E5]].
  unfold playSound, new_call. rewrite E1.
  destruct (negb allow && Js.set_has Sound.eq_dec sound (playingSounds st));
    simpl; rewrite ?Ec;
    [|destruct (volume_accepted
                  (getVolumeInPercent (configurationService st) / 100))];
    simpl; unfold playback_view; simpl; rewrite ?E1, ?E2, ?E3, ?E4, ?E5, ?Ec;
    split; reflexivity.
Qed.

Lemma world_configuration_eq st st' :
  world st' = world st -> configurationService st' = configurationService st.
Proof. unfold world. intros E. now inversion E. Qed.

Lemma promise_all_singleton st c : promise_all st [c] = call_state_of st c.
Proof. simpl. destruct (call_state_of st c) as [|[|e]]; reflexivity. Qed.

End Facade.

(** X14: [playAudioCue] is [playSound] behind the enablement gate.  For a
    cue that is not enabled it starts nothing: no activation is created and
    the playback state (registry, elements, activations, console, clock) is
    untouched.  For an enabled cue it returns the activation of
    [playSound(cue.sound, allowManyInParallel)] and changes the playback
    state exactly as that call alone would. *)
Theorem playAudioCue_is_gated_playSound
  (cue : AudioCue.t) (allow : bool) (st : Service) :
  if fst (isEnabled_get cue st)
  then fst (playAudioCue cue allow st)
       = Some (fst (playSound (AudioCue.sound cue) allow st))
       /\ playback_view (snd (playAudioCue cue allow st))
          = playback_view (snd (playSound (AudioCue.sound cue) allow st))
  else fst (playAudioCue cue allow st) = None
       /\ playback_view (snd (playAudioCue cue allow st)) = playback_view st.
Proof.
  unfold playAudioCue.
  pose proof (isEnabled_get_playback_view cue st) as F.
  pose proof (world_configuration_eq _ _ (isEnabled_get_world cue st)) as Ec.
  destruct (isEnabled_get cue st) as [b st1]. simpl in *.
  destruct b; [|auto].
  destruct (playSound_respects_views (AudioCue.sound cue) allow st st1 F Ec) as (P1 & P2).
  destruct (playSound (AudioCue.sound cue) allow st1) as [c st2]. simpl in *.
  split; congruence.
Qed.

(** X15: a batch of one cue is [playAudioCue] on that cue without
    [allowManyInParallel]: the same resulting state, the same activation
    (or none), and a promise settled exactly like that of
    [playAudioCue]. *)
Theorem playAudioCues_singleton (cue : AudioCue.t) (st : Service) :
  snd (playAudioCues [cue] st) = snd (playAudioCue cue false st)
  /\ fst (playAudioCues [cue] st)
     = match fst (playAudioCue cue false st) with
       | Some c => [c]
       | None => []
       end
  /\ (forall st',
        promise_all st' (fst (playAudioCues [cue] st))
        = playAudioCue_state st' (fst (playAudioCue cue false st))).
Proof.
  unfold playAudioCues, playAudioCue. simpl.
  destruct (isEnabled_get cue st) as [b st1]. destruct b; simpl.
  - destruct (playSound (AudioCue.sound cue) false st1) as [c st2]. simpl.
    repeat split. intros st'. apply promise_all_singleton.
  - repeat split.
Qed.

(** X16: a batch without an enabled cue, the empty batch included, starts
    nothing: no activation of [playSound] is created, the playback state is
    untouched, and the promise of [playAudioCues] is resolved at once. *)
Theorem playAudioCues_nothing_enabled (cues : list AudioCue.t) (st : Service)
  (R : reachable st)
  (H : forall cue, In cue cues -> fst (isEnabled_get cue st) = false) :
  fst (playAudioCues cues st) = []
  /\ playback_view (snd (playAudioCues cues st)) = playback_view st
  /\ (forall st', promise_all st' (fst (playAudioCues cues st)) = Settled Normal).
Proof.
  pose proof (reachable_enablement_wf _ R) as WA.
  assert (En : fst (filter_enabled cues st) = []).
  { rewrite filter_enabled_value by assumption.
    induction cues as [|c l IH]; [reflexivity|]. simpl.
    rewrite <- (isEnabled_get_value c st WA), (H c (or_introl eq_refl)).
    apply IH. intros cue I. apply H. now right. }
  pose proof (filter_enabled_playback_view cues st) as F.
  unfold playAudioCues. destruct (filter_enabled cues st) as [en st1].
  simpl in En, F. subst en. simpl. auto.
Qed.

Lemma playAudioCues_nothing_enabled_witness :
  fst (playAudioCues [AudioCue.warning; AudioCue.taskFailed] example_service) = [].
Proof.
  refine (proj1 (playAudioCues_nothing_enabled
                   [AudioCue.warning; AudioCue.taskFailed] example_service
                   (reachable_initial _ _) _)).
  intros cue [<-|[<-|[]]]; reflexivity.
Defined.

(** ** The cache and the catalog *)

(** X17: [Cache.get], for any factory that leaves the map of the cache
    alone: a hit returns the stored value without running the factory and
    without changing anything; a miss returns what the factory returns;
    either way the value is then stored under the key, so that a second
    [get] is a hit returning the same value; and a [get] for one key never
    changes what is stored under another. *)
Theorem Cache_get_memoizes
  (TArg TValue : Type) (TArg_eq_dec : forall x y : TArg, {x = y} + {x <> y})
  (getValue : TArg -> Service -> TValue * Service)
  (map_of : Service -> Js.JMap TArg TValue)
  (store : Js.JMap TArg TValue -> Service -> Service)
  (map_of_store : forall m st, map_of (store m st) = m)
  (factory_frame : forall a s, map_of (snd (getValue a s)) = map_of s)
  (arg : TArg) (st : Service) :
  let r := Cache.get TArg_eq_dec getValue map_of store arg st in
  (forall v, Js.map_get TArg_eq_dec arg (map_of st) = Some v -> r = (v, st))
  /\ (Js.map_get TArg_eq_dec arg (map_of st) = None ->
      fst r = fst (getValue arg st))
  /\ Js.map_get TArg_eq_dec arg (map_of (snd r)) = Some (fst r)
  /\ Cache.get TArg_eq_dec getValue map_of store arg (snd r) = (fst r, snd r)
  /\ (forall arg' v,
        Js.map_get TArg_eq_dec arg' (map_of st) = Some v ->
        Js.map_get TArg_eq_dec arg' (map_of (snd r)) = Some v).
Proof.
  intros r. split; [|split; [|split; [|split]]].
  - intros v G. subst r. unfold Cache.get. now rewrite G.
  - intros G. subst r. unfold Cache.get. rewrite G.
    destruct (getValue arg st). reflexivity.
  - now apply Cache_get_stores.
  - now apply Cache_get_again.
  - intros arg' v G. now apply Cache_get_keeps.
Qed.

Lemma Cache_get_memoizes_witness :
  Cache.get AudioCue.eq_dec isEnabledCache_getValue isEnabledCache
    set_isEnabledCache AudioCue.error
    (snd (Cache.get AudioCue.eq_dec isEnabledCache_getValue isEnabledCache
            set_isEnabledCache AudioCue.error example_service))
  = (0, snd (Cache.get AudioCue.eq_dec isEnabledCache_getValue isEnabledCache
               set_isEnabledCache AudioCue.error example_service)).
Proof.
  exact (proj1 (proj2 (proj2 (proj2
           (Cache_get_memoizes AudioCue.t nat AudioCue.eq_dec
              isEnabledCache_getValue isEnabledCache set_isEnabledCache
              (fun _ _ => eq_refl) (fun _ _ => eq_refl)
              AudioCue.error example_service))))).
Defined.

(** X18: the settings of the cues are independent: the setting keys of
    the catalog are pairwise distinct and none is the legacy key, so two
    configurations that differ only in the setting of one cue give every
    other cue the same enablement and the same reads. *)
Theorem other_cue_setting_is_irrelevant
  (cue other : AudioCue.t) (cfg cfg' : IConfigurationService)
  (acc : IAccessibilityService)
  (N : other <> cue)
  (H : forall key, key <> AudioCue.settingsKey other ->
                   getValue cfg' key = getValue cfg key) :
  audio_cue_enabled cue {| world_configuration := cfg'; world_accessibility := acc |}
  = audio_cue_enabled cue {| world_configuration := cfg; world_accessibility := acc |}.
Proof.
  rewrite !audio_cue_enabled_two_tiers. simpl.
  rewrite (H (AudioCue.settingsKey cue)), (H "audioCues.enabled"); [reflexivity| |].
  - intros E. pose proof (settingsKey_not_legacy other) as L.
    rewrite <- E, String.eqb_refl in L. discriminate.
  - intros E. apply N. symmetry. apply settingsKey_injective.
    rewrite E. apply String.eqb_refl.
Qed.

Lemma other_cue_setting_is_irrelevant_witness :
  audio_cue_enabled AudioCue.error
    {| world_configuration :=
         {| getValue := fun key =>
              if String.eqb key "audioCues.lineHasWarning" then Js.Str "on"
              else getValue example_configuration key |};
       world_accessibility := example_accessibility |}
  = audio_cue_enabled AudioCue.error
      {| world_configuration := example_configuration;
         world_accessibility := example_accessibility |}.
Proof.
  apply (other_cue_setting_is_irrelevant AudioCue.error AudioCue.warning).
  - discriminate.
  - intros key K. simpl.
    destruct (String.eqb key "audioCues.lineHasWarning") eqn:E; [|reflexivity].
    apply String.eqb_eq in E. contradiction.
Defined.

(** ** Playing again *)

(** X19: a sound can be played again once a playback of it has completed:
    right after the completion event of an element, [playSound] for the
    sound of its listener passes the guard even without
    [allowManyInParallel], creates a new element for the sound, and the
    sound is in the registry again; when the configured volume is one the
    element accepts, [play()] is called on the new element and the call
    suspends on its pending promise. *)
Theorem replay_after_completion
  (a : nat) (y : Audio) (sound : Sound.t) (st st' : Service)
  (Hy : nth_error (audios st) a = Some y)
  (O : audio_onended y = Some sound)
  (S : step (Ended a) st = Some st') :
  let st2 := snd (playSound sound false st') in
  Js.set_has Sound.eq_dec sound (playingSounds st') = false
  /\ (exists x, audios st2 = audios st' ++ [x]
                /\ audio_src x = media_url sound
                /\ (volume_accepted (audioVolume (configurationService st')) = true ->
                    audio_onended x = Some sound /\ audio_play x = Pending))
  /\ (volume_accepted (audioVolume (configurationService st')) = true ->
      call_state_of st2 (fst (playSound sound false st')) = Suspended)
  /\ In sound (playingSounds st2).
Proof.
  intros st2. subst st2.
  apply step_Ended_inv in S. destruct S as (_ & ->).
  assert (G : Js.set_has Sound.eq_dec sound
                (playingSounds (on_ended a (set_audio_ended a st))) = false).
  { rewrite (ended_playingSounds_listener a y sound st Hy O).
    apply set_has_delete_same. }
  split; [exact G|].
  rewrite (playSound_passed sound false _ G). simpl. split; [|split].
  - eexists. split; [reflexivity|]. split; [apply new_element_src|].
    intros V. unfold new_element. rewrite V. split; reflexivity.
  - intros V. unfold call_state_of. simpl. rewrite nth_error_snoc_new.
    unfold new_activation. now rewrite V.
  - apply set_add_In. now left.
Qed.

Lemma replay_after_completion_witness :
  call_state_of
    (snd (playSound Sound.error false
            (on_ended 0 (set_audio_ended 0
               (set_audio_play 0 Fulfilled
                  (playSound_resume 0 Normal busy_service))))))
    (fst (playSound Sound.error false
            (on_ended 0 (set_audio_ended 0
               (set_audio_play 0 Fulfilled
                  (playSound_resume 0 Normal busy_service))))))
  = Suspended.
Proof.
  exact (proj1 (proj2 (proj2 (replay_after_completion 0 _ Sound.error
           (race_settles 0 Normal (set_audio_play 0 Fulfilled busy_service)) _
           eq_refl eq_refl eq_refl))) eq_refl).
Defined.

(** X20: a sound cannot be played again after a failure until some
    playback of it completes: when [play()] of an element is rejected
    while its sound is in the registry, the sound stays there, and the next
    [playSound] for it without [allowManyInParallel] is de-duplicated: it
    creates no element and returns resolved. *)
Theorem rejection_blocks_replay
  (a : nat) (e : Js.Error) (sound : Sound.t) (st st' : Service)
  (I : In sound (playingSounds st))
  (S : step (PlayRejected a e) st = Some st') :
  let st2 := snd (playSound sound false st') in
  In sound (playingSounds st')
  /\ audios st2 = audios st'
  /\ call_state_of st2 (fst (playSound sound false st')) = Settled Normal.
Proof.
  intros st2. subst st2.
  simpl in S. destruct (play_pending a st); inversion S; subst st'. clear S.
  assert (I' : In sound (playingSounds
                 (race_settles a (Throw e) (set_audio_play a (Rejected e) st))))
    by (rewrite race_settles_playingSounds; exact I).
  split; [exact I'|].
  rewrite (playSound_blocked sound false)
    by (simpl; apply set_has_In; exact I').
  simpl. split; [reflexivity|].
  unfold call_state_of. simpl. now rewrite nth_error_snoc_new.
Qed.

Lemma rejection_blocks_replay_witness :
  audios (snd (playSound Sound.error false
                 (race_settles 0 (Throw (Js.MkError "decode"))
                    (set_audio_play 0 (Rejected (Js.MkError "decode"))
                       busy_service))))
  = audios (race_settles 0 (Throw (Js.MkError "decode"))
              (set_audio_play 0 (Rejected (Js.MkError "decode")) busy_service)).
Proof.
  refine (proj1 (proj2 (rejection_blocks_replay 0 (Js.MkError "decode")
                          Sound.error busy_service _ _ eq_refl))).
  left. reflexivity.
Defined.

